(** * SyncTable: the synchronized-table engine of smc-util (synctable)

    A shallow embedding of the [SyncTable] class and of the registry
    function [sync_table], as they are written in
    [src/smc-webapp/project/client-side-throttle.ts] (lines 217-1638), and
    the properties of its reconciler, save pipeline, notification emitter
    and table registry; and of the functions of lines 22-100 of that file,
    which decide whether a project may run.

    Conventions of the embedding.
    - An Immutable.js [Map] is a [gmap]; [equals] and [immutable.is] are
      Rocq's equality, decided by [decide].  Immutable.js iterates a map in
      hash order; a JavaScript object lists its integer-like names first, in
      ascending order, and then the other names in the order of their
      insertion.  The model iterates a map and an object in the order of
      [map_to_list], and keeps the names that the throttle accumulates in
      the order of their arrival.  No statement below depends on these
      orders: a list of keys is stated by its members, or is a list of one
      key or of none.
    - A property that may be [undefined] is an [option].
    - A method is a function in the monad [M]: it reads and writes the
      instance, appends to a log of effects (events emitted, callbacks
      invoked, calls to the transport and to timers) and either returns or
      throws.
    - Console output is not modelled. *)

From stdpp Require Import gmap strings list fin_maps pretty sorting.

Set Warnings "-register-all".
Local Open Scope string_scope.
Local Open Scope list_scope.
Local Open Scope Z_scope.

(** * Values and records *)

(** The result of [immutable.fromJS] on JSON data.  Numbers are the
    integers among the JavaScript numbers. *)
Inductive value :=
  | VNull
  | VBool (b : bool)
  | VNum (n : Z)
  | VStr (s : string)
  | VList (l : list value)
  | VMap (m : gmap string value).

Fixpoint value_eq_dec (x y : value) {struct x} : Decision (x = y).
Proof.
  refine (
    match x, y with
    | VNull, VNull => left _
    | VBool a, VBool b => cast_if (decide (a = b))
    | VNum a, VNum b => cast_if (decide (a = b))
    | VStr a, VStr b => cast_if (decide (a = b))
    | VList a, VList b => cast_if (@list_eq_dec _ value_eq_dec a b)
    | VMap a, VMap b => cast_if (@gmap_eq_dec string _ _ value value_eq_dec a b)
    | _, _ => right _
    end); abstract congruence.
Defined.

#[global] Instance value_eq : EqDecision value := value_eq_dec.

(** A record of the table: field name to value. *)
Abbreviation record := (gmap string value).

(** * Keys *)

(** What [this._key] returns, and so what keys the Immutable.js maps
    [value_local] and [value_server] have at run time: [to_key] returns a
    string for a string and for an object, and a number or a boolean
    unchanged; [this._key] returns undefined for a missing record (lines
    267-273 and 804-844).  Immutable.js keeps all of these apart. *)
Inductive jskey :=
  | KUndefined
  | KString (s : string)
  | KNumber (n : Z)
  | KBoolean (b : bool).

#[global] Instance jskey_eq_dec : EqDecision jskey.
Proof. solve_decision. Defined.

Definition jskey_encode (k : jskey) : unit + string + Z + bool :=
  match k with
  | KUndefined => inl (inl (inl tt))
  | KString s => inl (inl (inr s))
  | KNumber n => inl (inr n)
  | KBoolean b => inr b
  end.

Definition jskey_decode (x : unit + string + Z + bool) : jskey :=
  match x with
  | inl (inl (inl _)) => KUndefined
  | inl (inl (inr s)) => KString s
  | inl (inr n) => KNumber n
  | inr b => KBoolean b
  end.

#[global] Instance jskey_countable : Countable jskey.
Proof.
  refine (inj_countable' jskey_encode jskey_decode _).
  intros []; reflexivity.
Defined.

#[global] Instance KString_inj : Inj (=) (=) KString.
Proof. intros s1 s2 H. congruence. Qed.

(** The name under which a JavaScript object stores a key: the key
    converted to a string. *)
Definition prop_name (k : jskey) : string :=
  match k with
  | KUndefined => "undefined"
  | KString s => s
  | KNumber n => pretty n
  | KBoolean b => if b then "true" else "false"
  end.

(** The tables [value_local] and [value_server]. *)
Abbreviation table_map := (gmap jskey record).

(** A JavaScript object whose values are records. *)
Abbreviation js_object := (gmap string record).

(** [immutable.fromJS(x)] on such an object. *)
Definition fromJS (x : js_object) : table_map := kmap KString x.

(** [misc.keys(x)], which is [keys] of underscore: the names of the own
    properties of [x], each once.  The order in which JavaScript lists them
    is not modelled. *)
Definition keys {A} (x : gmap string A) : list string := (map_to_list x).*1.

(** [v == null] on the result of a [get]: undefined or null. *)
Definition is_null (v : option value) : bool :=
  match v with
  | None | Some VNull => true
  | _ => false
  end.

(** [r != null ? r.get(k) : undefined] *)
Definition field (r : option record) (k : string) : option value :=
  r ≫= (.!! k).

(** * Callbacks, events and effects *)

(** A callback is one handed in by a caller, or the closure that [_save]
    wraps around its own callback (lines 906-909). *)
Inductive callback :=
  | UserCb (n : nat)
  | SaveDone (cb : option callback).

(** An entry of the object that [_changes] returns. *)
Record changed_entry := ChangedEntry {
  ce_new_val : record;
  ce_old_val : option record
}.

#[global] Instance changed_entry_eq : EqDecision changed_entry.
Proof. solve_decision. Defined.

(** An incremental record of the changefeed. *)
Record change := Change {
  new_val : option record;
  old_val : option record
}.

(** What the callback of the transport write of [__save] has captured
    (lines 947-952 and the parameter [cb]). *)
Record save_closure := SaveClosure {
  sc_changed : option (gmap string changed_entry);
  sc_at_start : table_map;
  sc_saved_objs : list record;
  sc_cb : option callback
}.

Inductive event :=
  | Ev_before_change
  | Ev_change (keys : list jskey)
  | Ev_conflict (new_val old_val : record)
  | Ev_connected (rows : option (list record))
  | Ev_saved (objs : list record).

Inductive effect :=
  | Emit (e : event)
  | Invoke (n : nat) (err : option string)
  | AsyncDebounce (interval : option Z) (cb : option callback)
  | ClientQuerySet (query : list (string * record)) (k : save_closure)
  | SetTimeout (delay : Z)
  | ClearTimeout
  | AlertMessage
  | QueryCancel (id : string)
  | PlugClose
  | RemoveClientListener
  | RemoveAllListeners
  | DeleteSynctables (key : string)
  | NextTick (addr : nat).

(** * The instance *)

(** A rule of [set.fields] in the schema. *)
Inductive field_rule :=
  | RuleNull
  | RuleValue
  | RuleComputed (f : record → option value).

Record SetQuery := {
  fields : gmap string field_rule;
  required_fields : gset string
}.

Record ClientQuery := {
  cq_set : option SetQuery
}.

(** [_reference_count]: undefined, a number, or the NaN that [+= 1] and
    [-= 1] make of undefined. *)
Inductive refcount :=
  | RcUndefined
  | RcNaN
  | RcNum (n : Z).

Record SyncTable := {
  (* assigned by the constructor *)
  client_is_project : bool;
  debounce_interval : Z;
  throttle_changes : option Z;
  cache_key : string;
  (* assigned by init_query *)
  table : string;
  _client_query : option ClientQuery;
  _primary_keys : list string;
  _key : option record → jskey;
  _set_fields : list string;
  _required_set_fields : gset string;
  (* assigned by init_plug: the Plug has been created *)
  plug : bool;
  (* assigned while the table runs *)
  state : string;
  changefeed_id : option string;   (* this.id *)
  value_local : option table_map;
  value_server : option table_map;
  __is_saving : bool;
  _save_debounce : bool;           (* the debounce state object exists *)
  _connected_save_cbs : option (list (option callback));
  _reference_count : refcount;
  (* variables of the closures of init_throttle_changes and of the
     throttle of underscore *)
  all_changed_keys : list string;
  throttle_previous : Z;
  throttle_timeout : bool;
  (* properties that the source reads and nowhere assigns *)
  _state : option string;
  _value_local : option table_map;
  _value_server : option table_map;
  _client : option unit;
  client_query : option ClientQuery;
  _debounce_interval : option Z;
  _cache_key : option string;
  _plug : option unit;
  (* the clock: what _.now() returns during the current event *)
  now : Z
}.

Definition set_state (v : string) (S : SyncTable) : SyncTable :=
  {| client_is_project := client_is_project S;
     debounce_interval := debounce_interval S; throttle_changes := throttle_changes S;
     cache_key := cache_key S; table := table S; _client_query := _client_query S;
     _primary_keys := _primary_keys S; _key := _key S; _set_fields := _set_fields S;
     _required_set_fields := _required_set_fields S; plug := plug S; state := v;
     changefeed_id := changefeed_id S; value_local := value_local S;
     value_server := value_server S; __is_saving := __is_saving S;
     _save_debounce := _save_debounce S; _connected_save_cbs := _connected_save_cbs S;
     _reference_count := _reference_count S; all_changed_keys := all_changed_keys S;
     throttle_previous := throttle_previous S; throttle_timeout := throttle_timeout S;
     _state := _state S; _value_local := _value_local S;
     _value_server := _value_server S; _client := _client S;
     client_query := client_query S; _debounce_interval := _debounce_interval S;
     _cache_key := _cache_key S; _plug := _plug S; now := now S |}.

Definition set_changefeed_id (v : option string) (S : SyncTable) : SyncTable :=
  {| client_is_project := client_is_project S;
     debounce_interval := debounce_interval S; throttle_changes := throttle_changes S;
     cache_key := cache_key S; table := table S; _client_query := _client_query S;
     _primary_keys := _primary_keys S; _key := _key S; _set_fields := _set_fields S;
     _required_set_fields := _required_set_fields S; plug := plug S; state := state S;
     changefeed_id := v; value_local := value_local S; value_server := value_server S;
     __is_saving := __is_saving S; _save_debounce := _save_debounce S;
     _connected_save_cbs := _connected_save_cbs S;
     _reference_count := _reference_count S; all_changed_keys := all_changed_keys S;
     throttle_previous := throttle_previous S; throttle_timeout := throttle_timeout S;
     _state := _state S; _value_local := _value_local S;
     _value_server := _value_server S; _client := _client S;
     client_query := client_query S; _debounce_interval := _debounce_interval S;
     _cache_key := _cache_key S; _plug := _plug S; now := now S |}.

Definition set_value_local (v : option table_map) (S : SyncTable) : SyncTable :=
  {| client_is_project := client_is_project S;
     debounce_interval := debounce_interval S; throttle_changes := throttle_changes S;
     cache_key := cache_key S; table := table S; _client_query := _client_query S;
     _primary_keys := _primary_keys S; _key := _key S; _set_fields := _set_fields S;
     _required_set_fields := _required_set_fields S; plug := plug S; state := state S;
     changefeed_id := changefeed_id S; value_local := v;
     value_server := value_server S; __is_saving := __is_saving S;
     _save_debounce := _save_debounce S; _connected_save_cbs := _connected_save_cbs S;
     _reference_count := _reference_count S; all_changed_keys := all_changed_keys S;
     throttle_previous := throttle_previous S; throttle_timeout := throttle_timeout S;
     _state := _state S; _value_local := _value_local S;
     _value_server := _value_server S; _client := _client S;
     client_query := client_query S; _debounce_interval := _debounce_interval S;
     _cache_key := _cache_key S; _plug := _plug S; now := now S |}.

Definition set_value_server (v : option table_map) (S : SyncTable) : SyncTable :=
  {| client_is_project := client_is_project S;
     debounce_interval := debounce_interval S; throttle_changes := throttle_changes S;
     cache_key := cache_key S; table := table S; _client_query := _client_query S;
     _primary_keys := _primary_keys S; _key := _key S; _set_fields := _set_fields S;
     _required_set_fields := _required_set_fields S; plug := plug S; state := state S;
     changefeed_id := changefeed_id S; value_local := value_local S; value_server := v;
     __is_saving := __is_saving S; _save_debounce := _save_debounce S;
     _connected_save_cbs := _connected_save_cbs S;
     _reference_count := _reference_count S; all_changed_keys := all_changed_keys S;
     throttle_previous := throttle_previous S; throttle_timeout := throttle_timeout S;
     _state := _state S; _value_local := _value_local S;
     _value_server := _value_server S; _client := _client S;
     client_query := client_query S; _debounce_interval := _debounce_interval S;
     _cache_key := _cache_key S; _plug := _plug S; now := now S |}.

Definition set___is_saving (v : bool) (S : SyncTable) : SyncTable :=
  {| client_is_project := client_is_project S;
     debounce_interval := debounce_interval S; throttle_changes := throttle_changes S;
     cache_key := cache_key S; table := table S; _client_query := _client_query S;
     _primary_keys := _primary_keys S; _key := _key S; _set_fields := _set_fields S;
     _required_set_fields := _required_set_fields S; plug := plug S; state := state S;
     changefeed_id := changefeed_id S; value_local := value_local S;
     value_server := value_server S; __is_saving := v;
     _save_debounce := _save_debounce S; _connected_save_cbs := _connected_save_cbs S;
     _reference_count := _reference_count S; all_changed_keys := all_changed_keys S;
     throttle_previous := throttle_previous S; throttle_timeout := throttle_timeout S;
     _state := _state S; _value_local := _value_local S;
     _value_server := _value_server S; _client := _client S;
     client_query := client_query S; _debounce_interval := _debounce_interval S;
     _cache_key := _cache_key S; _plug := _plug S; now := now S |}.

Definition set__save_debounce (v : bool) (S : SyncTable) : SyncTable :=
  {| client_is_project := client_is_project S;
     debounce_interval := debounce_interval S; throttle_changes := throttle_changes S;
     cache_key := cache_key S; table := table S; _client_query := _client_query S;
     _primary_keys := _primary_keys S; _key := _key S; _set_fields := _set_fields S;
     _required_set_fields := _required_set_fields S; plug := plug S; state := state S;
     changefeed_id := changefeed_id S; value_local := value_local S;
     value_server := value_server S; __is_saving := __is_saving S; _save_debounce := v;
     _connected_save_cbs := _connected_save_cbs S;
     _reference_count := _reference_count S; all_changed_keys := all_changed_keys S;
     throttle_previous := throttle_previous S; throttle_timeout := throttle_timeout S;
     _state := _state S; _value_local := _value_local S;
     _value_server := _value_server S; _client := _client S;
     client_query := client_query S; _debounce_interval := _debounce_interval S;
     _cache_key := _cache_key S; _plug := _plug S; now := now S |}.

Definition set__connected_save_cbs (v : option (list (option callback))) (S : SyncTable) : SyncTable :=
  {| client_is_project := client_is_project S;
     debounce_interval := debounce_interval S; throttle_changes := throttle_changes S;
     cache_key := cache_key S; table := table S; _client_query := _client_query S;
     _primary_keys := _primary_keys S; _key := _key S; _set_fields := _set_fields S;
     _required_set_fields := _required_set_fields S; plug := plug S; state := state S;
     changefeed_id := changefeed_id S; value_local := value_local S;
     value_server := value_server S; __is_saving := __is_saving S;
     _save_debounce := _save_debounce S; _connected_save_cbs := v;
     _reference_count := _reference_count S; all_changed_keys := all_changed_keys S;
     throttle_previous := throttle_previous S; throttle_timeout := throttle_timeout S;
     _state := _state S; _value_local := _value_local S;
     _value_server := _value_server S; _client := _client S;
     client_query := client_query S; _debounce_interval := _debounce_interval S;
     _cache_key := _cache_key S; _plug := _plug S; now := now S |}.

Definition set__reference_count (v : refcount) (S : SyncTable) : SyncTable :=
  {| client_is_project := client_is_project S;
     debounce_interval := debounce_interval S; throttle_changes := throttle_changes S;
     cache_key := cache_key S; table := table S; _client_query := _client_query S;
     _primary_keys := _primary_keys S; _key := _key S; _set_fields := _set_fields S;
     _required_set_fields := _required_set_fields S; plug := plug S; state := state S;
     changefeed_id := changefeed_id S; value_local := value_local S;
     value_server := value_server S; __is_saving := __is_saving S;
     _save_debounce := _save_debounce S; _connected_save_cbs := _connected_save_cbs S;
     _reference_count := v; all_changed_keys := all_changed_keys S;
     throttle_previous := throttle_previous S; throttle_timeout := throttle_timeout S;
     _state := _state S; _value_local := _value_local S;
     _value_server := _value_server S; _client := _client S;
     client_query := client_query S; _debounce_interval := _debounce_interval S;
     _cache_key := _cache_key S; _plug := _plug S; now := now S |}.

Definition set_all_changed_keys (v : list string) (S : SyncTable) : SyncTable :=
  {| client_is_project := client_is_project S;
     debounce_interval := debounce_interval S; throttle_changes := throttle_changes S;
     cache_key := cache_key S; table := table S; _client_query := _client_query S;
     _primary_keys := _primary_keys S; _key := _key S; _set_fields := _set_fields S;
     _required_set_fields := _required_set_fields S; plug := plug S; state := state S;
     changefeed_id := changefeed_id S; value_local := value_local S;
     value_server := value_server S; __is_saving := __is_saving S;
     _save_debounce := _save_debounce S; _connected_save_cbs := _connected_save_cbs S;
     _reference_count := _reference_count S; all_changed_keys := v;
     throttle_previous := throttle_previous S; throttle_timeout := throttle_timeout S;
     _state := _state S; _value_local := _value_local S;
     _value_server := _value_server S; _client := _client S;
     client_query := client_query S; _debounce_interval := _debounce_interval S;
     _cache_key := _cache_key S; _plug := _plug S; now := now S |}.

Definition set_throttle_previous (v : Z) (S : SyncTable) : SyncTable :=
  {| client_is_project := client_is_project S;
     debounce_interval := debounce_interval S; throttle_changes := throttle_changes S;
     cache_key := cache_key S; table := table S; _client_query := _client_query S;
     _primary_keys := _primary_keys S; _key := _key S; _set_fields := _set_fields S;
     _required_set_fields := _required_set_fields S; plug := plug S; state := state S;
     changefeed_id := changefeed_id S; value_local := value_local S;
     value_server := value_server S; __is_saving := __is_saving S;
     _save_debounce := _save_debounce S; _connected_save_cbs := _connected_save_cbs S;
     _reference_count := _reference_count S; all_changed_keys := all_changed_keys S;
     throttle_previous := v; throttle_timeout := throttle_timeout S;
     _state := _state S; _value_local := _value_local S;
     _value_server := _value_server S; _client := _client S;
     client_query := client_query S; _debounce_interval := _debounce_interval S;
     _cache_key := _cache_key S; _plug := _plug S; now := now S |}.

Definition set_throttle_timeout (v : bool) (S : SyncTable) : SyncTable :=
  {| client_is_project := client_is_project S;
     debounce_interval := debounce_interval S; throttle_changes := throttle_changes S;
     cache_key := cache_key S; table := table S; _client_query := _client_query S;
     _primary_keys := _primary_keys S; _key := _key S; _set_fields := _set_fields S;
     _required_set_fields := _required_set_fields S; plug := plug S; state := state S;
     changefeed_id := changefeed_id S; value_local := value_local S;
     value_server := value_server S; __is_saving := __is_saving S;
     _save_debounce := _save_debounce S; _connected_save_cbs := _connected_save_cbs S;
     _reference_count := _reference_count S; all_changed_keys := all_changed_keys S;
     throttle_previous := throttle_previous S; throttle_timeout := v;
     _state := _state S; _value_local := _value_local S;
     _value_server := _value_server S; _client := _client S;
     client_query := client_query S; _debounce_interval := _debounce_interval S;
     _cache_key := _cache_key S; _plug := _plug S; now := now S |}.

Definition set_now (v : Z) (S : SyncTable) : SyncTable :=
  {| client_is_project := client_is_project S;
     debounce_interval := debounce_interval S; throttle_changes := throttle_changes S;
     cache_key := cache_key S; table := table S; _client_query := _client_query S;
     _primary_keys := _primary_keys S; _key := _key S; _set_fields := _set_fields S;
     _required_set_fields := _required_set_fields S; plug := plug S; state := state S;
     changefeed_id := changefeed_id S; value_local := value_local S;
     value_server := value_server S; __is_saving := __is_saving S;
     _save_debounce := _save_debounce S; _connected_save_cbs := _connected_save_cbs S;
     _reference_count := _reference_count S; all_changed_keys := all_changed_keys S;
     throttle_previous := throttle_previous S; throttle_timeout := throttle_timeout S;
     _state := _state S; _value_local := _value_local S;
     _value_server := _value_server S; _client := _client S;
     client_query := client_query S; _debounce_interval := _debounce_interval S;
     _cache_key := _cache_key S; _plug := _plug S; now := v |}.

#[global] Arguments set_state _ _ /.
#[global] Arguments set_changefeed_id _ _ /.
#[global] Arguments set_value_local _ _ /.
#[global] Arguments set_value_server _ _ /.
#[global] Arguments set___is_saving _ _ /.
#[global] Arguments set__save_debounce _ _ /.
#[global] Arguments set__connected_save_cbs _ _ /.
#[global] Arguments set__reference_count _ _ /.
#[global] Arguments set_all_changed_keys _ _ /.
#[global] Arguments set_throttle_previous _ _ /.
#[global] Arguments set_throttle_timeout _ _ /.
#[global] Arguments set_now _ _ /.

(** * The monad of methods *)

Inductive outcome (A : Type) :=
  | Ret (a : A)
  | Throw (e : string).
Arguments Ret {A} a.
Arguments Throw {A} e.

Definition M (A : Type) : Type := SyncTable → SyncTable * list effect * outcome A.

Definition ret {A} (a : A) : M A := λ S, (S, [], Ret a).

Definition bind {A B} (m : M A) (f : A → M B) : M B := λ S,
  match m S with
  | (S1, e1, Ret a) => let '(S2, e2, o) := f a S1 in (S2, e1 ++ e2, o)
  | (S1, e1, Throw e) => (S1, e1, Throw e)
  end.

Declare Scope M_scope.
Delimit Scope M_scope with M.
Bind Scope M_scope with M.
Notation "x ← m ; k" := (bind m (λ x, k))
  (at level 20, m at level 100, k at level 200, only parsing) : M_scope.
Notation "' x ← m ; k" := (bind m (λ x, k))
  (at level 20, x pattern, m at level 100, k at level 200, only parsing) : M_scope.
Notation "m ;; k" := (bind m (λ _, k))
  (at level 100, k at level 200, only parsing, right associativity) : M_scope.
Local Open Scope M_scope.

Definition get {A} (f : SyncTable → A) : M A := λ S, (S, [], Ret (f S)).
Definition put (f : SyncTable → SyncTable) : M unit := λ S, (f S, [], Ret tt).
Definition perform (e : effect) : M unit := λ S, (S, [e], Ret tt).
Definition emit (e : event) : M unit := perform (Emit e).
Definition throw {A} (e : string) : M A := λ S, (S, [], Throw e).

Definition TypeError : string := "TypeError".

(** [this.p.m(...)] on a property [p] that may be undefined. *)
Definition deref {A} (f : SyncTable → option A) : M A :=
  o ← get f; match o with Some a => ret a | None => throw TypeError end.

(** [for (a of l) body], the loop variables threaded as [acc]. *)
Fixpoint for_of {A B} (l : list A) (body : A → B → M B) (acc : B) : M B :=
  match l with
  | [] => ret acc
  | a :: l' => acc' ← body a acc; for_of l' body acc'
  end.

(** A callback is run: a caller's callback is logged, the closure of
    [_save] clears [__is_saving] and passes the error on (lines 906-909). *)
Fixpoint invoke (cb : callback) (err : option string) : M unit :=
  match cb with
  | UserCb n => perform (Invoke n err)
  | SaveDone cb' =>
      put (set___is_saving false);;
      match cb' with
      | Some c => invoke c err
      | None => ret tt
      end
  end.

(** [typeof cb === "function" ? cb(err) : undefined] *)
Definition call_cb (cb : option callback) (err : option string) : M unit :=
  match cb with
  | Some c => invoke c err
  | None => ret tt
  end.

(** * Notification emitter (init_throttle_changes, lines 359-396) *)

(** [do_emit_changes], before it is throttled (lines 379-386). *)
Definition do_emit_changes : M unit :=
  acc ← get all_changed_keys;
  emit (Ev_change (KString <$> acc));;
  put (set_all_changed_keys []).

(** The function that [throttle(do_emit_changes, wait)] of underscore
    returns: it runs [do_emit_changes] at once when [wait] has elapsed since
    the last run, and otherwise arms one timer for the rest of the wait. *)
Definition throttled_do_emit_changes (wait : Z) : M unit :=
  t ← get now;
  previous ← get throttle_previous;
  let remaining := wait - (t - previous) in
  if decide (remaining ≤ 0 ∨ wait < remaining) then
    timeout ← get throttle_timeout;
    (if timeout then perform ClearTimeout;; put (set_throttle_timeout false)
     else ret tt);;
    put (set_throttle_previous t);;
    do_emit_changes
  else
    timeout ← get throttle_timeout;
    if timeout then ret tt
    else put (set_throttle_timeout true);; perform (SetTimeout remaining).

(** The timer of the throttle fires ([later] in underscore). *)
Definition later : M unit :=
  t ← get now;
  put (set_throttle_previous t);;
  put (set_throttle_timeout false);;
  do_emit_changes.

(** [all_changed_keys[key] = true]: the object [all_changed_keys] is the
    list of its property names, each once.  The order in which
    [misc.keys] lists them at line 384 is not modelled. *)
Definition mark_changed (acc : list string) (key : jskey) : list string :=
  if decide (prop_name key ∈ acc) then acc else acc ++ [prop_name key].

(** [this.emit_change]: the closure chosen at line 374 on
    [!this.throttle_changes]; the property is not assigned afterwards. *)
Definition emit_change (changed_keys : list jskey) : M unit :=
  tc ← get throttle_changes;
  match tc with
  | None => emit (Ev_change changed_keys)
  | Some wait =>
      if decide (wait = 0) then emit (Ev_change changed_keys)
      else
        acc ← get all_changed_keys;
        put (set_all_changed_keys (foldl mark_changed acc changed_keys));;
        throttled_do_emit_changes wait
  end.

(** * save (lines 1070-1109) *)

Definition save (cb : option callback) : M unit :=
  st ← get state;
  if decide (st = "closed") then call_cb cb (Some "closed")
  else if decide (st ≠ "connected") then call_cb cb (Some "not connected")
  else
    put (set__save_debounce true);;
    vs ← get value_server;
    vl ← get value_local;
    match vs, vl with
    | Some _, Some _ =>
        interval ← get _debounce_interval;
        perform (AsyncDebounce interval cb)
    | _, _ =>
        cbs ← get _connected_save_cbs;
        put (set__connected_save_cbs (Some (default [] cbs ++ [cb])))
    end.

(** * Reconciler *)

(** The patch of [_handle_new_val], lines 1289-1293: every field of
    [new_val] whose value differs from the server's is set in [local_val]. *)
Definition apply_changed (new_val : record) (server : option record)
    (local_val : record) : record :=
  map_fold (λ k v acc,
    if decide (Some v = field server k) then acc else <[k:=v]> acc)
    local_val new_val.

(** Lines 1295-1301: every field of [server] that [new_val] does not have is
    deleted from [local_val]. *)
Definition apply_removed (new_val : record) (server : option record)
    (local_val : record) : record :=
  match server with
  | Some s =>
      map_fold (λ k _ acc,
        if decide (is_Some (new_val !! k)) then acc else delete k acc)
        local_val s
  | None => local_val
  end.

(** [_handle_new_val(val, changed_keys)], lines 1274-1315.  The array
    [changed_keys] is returned with what was pushed. *)
Definition _handle_new_val (val : record) (changed_keys : list jskey)
    : M (list jskey * bool) :=
  _key ← get _key;
  let key := _key (Some val) in
  let new_val := val in
  vl ← deref value_local;
  let local_val := vl !! key in
  r ← (if decide (Some new_val ≠ local_val) then
         match local_val with
         | None =>
             put (set_value_local (Some (<[key:=new_val]> vl)));;
             ret (changed_keys ++ [key], false)
         | Some local_val =>
             vs ← deref value_server;
             let server := vs !! key in
             let local_val := apply_changed new_val server local_val in
             let local_val := apply_removed new_val server local_val in
             vl ← deref value_local;
             changed_keys ←
               (if decide (Some local_val ≠ vl !! key) then
                  put (set_value_local (Some (<[key:=local_val]> vl)));;
                  ret (changed_keys ++ [key])
                else ret changed_keys);
             if decide (local_val ≠ new_val) then
               emit (Ev_conflict new_val local_val);;
               ret (changed_keys, true)
             else ret (changed_keys, false)
         end
       else ret (changed_keys, false));
  vs ← deref value_server;
  put (set_value_server (Some (<[key:=new_val]> vs)));;
  ret r.

(** The object [x] of [_update_all], lines 1130-1133. *)
Definition snapshot_object (_key : option record → jskey) (v : list record)
    : js_object :=
  foldl (λ x y, <[prop_name (_key (Some y)) := y]> x) ∅ v.

(** The body of the loop over [value_local], lines 1155-1187. *)
Definition _update_all_local (x : js_object) (key : jskey)
    (acc : list jskey * bool) : M (list jskey * bool) :=
  let '(changed_keys, conflict) := acc in
  match x !! prop_name key with
  | Some y =>
      '(changed_keys, c) ← _handle_new_val y changed_keys;
      ret (changed_keys, if c then true else conflict)
  | None =>
      vl ← deref value_local;
      match vl !! key with
      | None => throw TypeError
      | Some local =>
          vs ← deref value_server;
          if decide (Some local = vs !! key) then
            put (set_value_local (Some (delete key vl)));;
            ret (changed_keys ++ [key], conflict)
          else ret (changed_keys, true)
      end
  end.

(** The body of the loop over [x], lines 1193-1199. *)
Definition _update_all_added (kv : string * record)
    (changed_keys : list jskey) : M (list jskey) :=
  let '(key, val) := kv in
  vl ← deref value_local;
  match vl !! KString key with
  | None =>
      put (set_value_local (Some (<[KString key:=val]> vl)));;
      ret (changed_keys ++ [KString key])
  | Some _ => ret changed_keys
  end.

(** Lines 1113-1200 of [_update_all], after the guards: the new local
    state, and the values of [changed_keys], [first_connect] and
    [conflict]. *)
Definition _update_all_merge (x : js_object) : M (list jskey * bool * bool) :=
  vl ← get value_local;
  vs ← get value_server;
  match vl, vs with
  | Some vl, Some _ =>
      '(changed_keys, conflict) ←
        for_of (map_to_list vl).*1 (_update_all_local x) ([], false);
      changed_keys ← for_of (map_to_list x) _update_all_added changed_keys;
      ret (changed_keys, false, conflict)
  | _, _ =>
      put (set_value_server (Some (fromJS x)));;
      put (set_value_local (Some (fromJS x)));;
      ret (KString <$> keys x, true, false)
  end.

(** [_update_all(v)], lines 1113-1216. *)
Definition _update_all (v : option (list record)) : M unit :=
  st ← get state;
  if decide (st = "closed") then ret tt
  else
    match v with
    | None => ret tt
    | Some v =>
        emit Ev_before_change;;
        _key ← get _key;
        let x := snapshot_object _key v in
        '(changed_keys, first_connect, conflict) ← _update_all_merge x;
        (if decide (changed_keys ≠ []) then
           put (set_value_server (Some (fromJS x)));;
           emit_change changed_keys
         else if first_connect : bool then emit_change changed_keys
         else ret tt);;
        if conflict : bool then save None else ret tt
    end.

(** Lines 1253-1262 of [_update_change]: the record of [old_val] is
    deleted when its key is not the key of [new_val]. *)
Definition _update_change_delete (c : change) (changed_keys : list jskey)
    : M (list jskey) :=
  _key ← get _key;
  if decide (is_Some (old_val c) ∧ _key (old_val c) ≠ _key (new_val c)) then
    let key := _key (old_val c) in
    vl ← deref value_local;
    put (set_value_local (Some (delete key vl)));;
    vs ← deref value_server;
    put (set_value_server (Some (delete key vs)));;
    ret (changed_keys ++ [key])
  else ret changed_keys.

(** Lines 1265-1271 of [_update_change]. *)
Definition _update_change_notify (changed_keys : list jskey) (conflict : bool)
    : M unit :=
  if decide (changed_keys ≠ []) then
    emit_change changed_keys;;
    if conflict then save None else ret tt
  else ret tt.

(** [_update_change(change)], lines 1220-1272. *)
Definition _update_change (c : change) : M unit :=
  st ← get state;
  if decide (st = "closed") then ret tt
  else
    vl ← get value_local;
    vs ← get value_server;
    match vl, vs with
    | Some _, Some _ =>
        emit Ev_before_change;;
        '(changed_keys, conflict) ←
          match new_val c with
          | Some val => _handle_new_val val []
          | None => ret ([], false)
          end;
        changed_keys ← _update_change_delete c changed_keys;
        _update_change_notify changed_keys conflict
    | _, _ => ret tt
    end.

(** * Save pipeline *)

(** [is_fatal(err)], lines 234-240. *)
Definition is_fatal (err : option string) : bool :=
  match err with
  | Some e =>
      bool_decide (String.substring 0 5 e = "FATAL")
      && bool_decide (String.index 0 "tracker" e = None)
  | None => false
  end.

(** [if (err)] on an error that is undefined or a string. *)
Definition truthy (err : option string) : bool :=
  match err with
  | Some e => bool_decide (e ≠ "")
  | None => false
  end.

(** [_changes()], lines 881-893.  It reads [_value_server] and
    [_value_local]. *)
Definition _changes (S : SyncTable) : option (gmap string changed_entry) :=
  match _value_server S, _value_local S with
  | Some vs, Some vl =>
      Some (foldl (λ changed kv,
              let old_val := vs !! kv.1 in
              if decide (Some kv.2 ≠ old_val)
              then <[prop_name kv.1 := ChangedEntry kv.2 old_val]> changed
              else changed) ∅ (map_to_list vl))
  | _, _ => None
  end.

(** The order of [Array.prototype.sort] on strings, for strings of
    characters below 128. *)
Definition string_le (a b : string) : Prop := String.leb a b = true.

#[global] Instance string_le_dec a b : Decision (string_le a b).
Proof. unfold string_le. apply _. Defined.

(** [v[i]] on a parsed key. *)
Definition js_index (v : value) (i : nat) : outcome (option value) :=
  match v with
  | VNull => Throw "TypeError"
  | VList l => Ret (l !! i)
  | VMap m => Ret (m !! pretty i)
  | VStr s =>
      Ret (match String.get i s with
           | Some a => Some (VStr (String a EmptyString))
           | None => None
           end)
  | _ => Ret None
  end.

(** Lines 971-985: a field that may be set goes into the record to write
    when the local record has a value for it that is not null and the field
    is required or its value is not the server's. *)
Definition write_field (required : gset string) (c : changed_entry)
    (obj : record) (k : string) : record :=
  let v := ce_new_val c !! k in
  if is_null v then obj
  else if decide (k ∈ required ∨ v ≠ field (ce_old_val c) k)
  then partial_alter (λ _, v) k obj
  else obj.

Section Save.

(** [JSON.parse]; [None] when it throws. *)
Variable JSON_parse : string → option value.

(** Lines 957-969: the primary key of the record to write.  A property
    assigned undefined is left out, as it is in the JSON that is sent. *)
Definition write_key (pks : list string) (key : string) : outcome record :=
  match pks with
  | [pk] => Ret {[ pk := VStr key ]}
  | _ =>
      match JSON_parse key with
      | None => Throw "SyntaxError"
      | Some v =>
          (fix go (pks : list string) (i : nat) (obj : record) :=
             match pks with
             | [] => Ret obj
             | pk :: pks' =>
                 match js_index v i with
                 | Throw e => Throw e
                 | Ret w => go pks' (S i) (partial_alter (λ _, w) pk obj)
                 end
             end) pks 0%nat ∅
      end
  end.

(** Lines 956-988: the record written for one changed key. *)
Definition write_record (pks set_fields : list string)
    (required : gset string) (key : string) (c : changed_entry)
    : outcome record :=
  match write_key pks key with
  | Throw e => Throw e
  | Ret obj => Ret (foldl (write_field required c) obj set_fields)
  end.

(** The loop of lines 955-988. *)
Fixpoint write_records (pks set_fields : list string)
    (required : gset string) (changed : gmap string changed_entry)
    (sorted_keys : list string) : outcome (list record) :=
  match sorted_keys with
  | [] => Ret []
  | key :: rest =>
      match changed !! key with
      | None => Throw "TypeError"
      | Some c =>
          match write_record pks set_fields required key c with
          | Throw e => Throw e
          | Ret obj =>
              match write_records pks set_fields required changed rest with
              | Throw e => Throw e
              | Ret objs => Ret (obj :: objs)
              end
          end
      end
  end.

(** [__save(cb)], lines 913-1068, up to the call of the transport; the
    callback of that call is [__save_query_cb]. *)
Definition __save (cb : option callback) : M unit :=
  st ← get state;
  if decide (st = "closed") then call_cb cb (Some "closed")
  else
    vs ← get value_server;
    match vs with
    | None => call_cb cb (Some "don't know server yet")
    | Some _ =>
        vl ← get value_local;
        match vl with
        | None => call_cb cb (Some "don't know local yet")
        | Some at_start =>
            cq ← deref _client_query;
            match cq_set cq with
            | None => call_cb cb None
            | Some _ =>
                changed ← get _changes;
                pks ← get _primary_keys;
                set_fields ← get _set_fields;
                required ← get _required_set_fields;
                let sorted_keys :=
                  merge_sort string_le (default [] (keys <$> changed)) in
                match write_records pks set_fields required
                        (default ∅ changed) sorted_keys with
                | Throw e => throw e
                | Ret saved_objs =>
                    if decide (saved_objs = []) then call_cb cb None
                    else
                      _ ← deref _client;
                      tbl ← get table;
                      perform (ClientQuerySet ((λ obj, (tbl, obj)) <$> saved_objs)
                                 (SaveClosure changed at_start saved_objs cb))
                end
            end
        end
    end.

(** [_save(cb)], lines 895-911. *)
Definition _save (cb : option callback) : M unit :=
  st ← get state;
  if decide (st = "closed") then call_cb cb (Some "closed")
  else
    saving ← get __is_saving;
    if saving : bool then call_cb cb (Some "already saving")
    else
      put (set___is_saving true);;
      __save (Some (SaveDone cb)).

(** [global_cache_decref(S)], lines 1628-1638; the result as [if] reads
    it.  It deletes [synctables[S._cache_key]]. *)
Definition global_cache_decref : M bool :=
  rc ← get _reference_count;
  match rc with
  | RcUndefined => ret false
  | RcNaN => ret true
  | RcNum n =>
      put (set__reference_count (RcNum (n - 1)));;
      if decide (n - 1 ≤ 0) then
        ck ← get _cache_key;
        perform (DeleteSynctables (default "undefined" ck));;
        ret false
      else ret true
  end.

(** [close(fatal)], lines 1500-1528. *)
Definition close (fatal : bool) : M unit :=
  st ← get state;
  if decide (st = "closed") then ret tt
  else
    in_use ← global_cache_decref;
    if in_use : bool then ret tt
    else
      _ ← deref _plug;
      perform PlugClose;;
      perform RemoveClientListener;;
      (if fatal then ret tt else _save None);;
      perform RemoveAllListeners;;
      id ← get changefeed_id;
      match id with
      | Some i =>
          _ ← deref _client;
          perform (QueryCancel i);;
          put (set_changefeed_id None)
      | None => ret tt
      end;;
      put (set_state "closed");;
      put (set_value_local None);;
      put (set_value_server None).

(** Lines 1050-1057: the server's records advance to what was saved,
    where they have not changed since the save began. *)
Definition advance_server (kc : string * changed_entry) (_ : unit) : M unit :=
  vs ← deref value_server;
  if decide (vs !! KString kc.1 = ce_old_val kc.2)
  then put (set_value_server (Some (<[KString kc.1 := ce_new_val kc.2]> vs)))
  else ret tt.

(** The callback of the transport write of [__save], lines 1006-1066. *)
Definition __save_query_cb (k : save_closure) (err : option string) : M unit :=
  let cb := sc_cb k in
  if truthy err then
    if is_fatal err then
      close true;;
      call_cb cb err
    else
      (if decide (err = Some "clock") then
         _ ← deref _client;
         perform AlertMessage
       else ret tt);;
      call_cb cb err
  else
    st ← get state;
    if decide (st = "closed") then call_cb cb (Some "closed")
    else
      vs ← get value_server;
      vl ← get value_local;
      match vs, vl with
      | Some _, Some _ =>
          emit (Ev_saved (sc_saved_objs k));;
          for_of (map_to_list (default ∅ (sc_changed k))) advance_server tt;;
          vl ← get value_local;
          if decide (Some (sc_at_start k) ≠ vl) then _save cb
          else call_cb cb None
      | _, _ => call_cb cb (Some "value_server and value_local must be set")
      end.

End Save.

(** * Local mutation *)

(** The second argument of [set]: left out, a name, or the callback. *)
Inductive merge_arg :=
  | MergeUndefined
  | MergeName (s : string)
  | MergeCallback (cb : callback).

(** A key of [value_local] as the value of a field. *)
Definition value_of_key (k : jskey) : option value :=
  match k with
  | KUndefined => None
  | KString s => Some (VStr s)
  | KNumber n => Some (VNum n)
  | KBoolean b => Some (VBool b)
  end.

Section LocalMutation.

(** [json_stable_stringify] of the package of that name. *)
Variable json_stable_stringify : value → string.

(** [mergeDeep] of an Immutable.js map. *)
Variable mergeDeep : record → record → record.

(** [to_key(x)], lines 267-273, on a value that may be undefined. *)
Definition to_key (x : option value) : jskey :=
  match x with
  | None => KUndefined
  | Some (VStr s) => KString s
  | Some (VNum n) => KNumber n
  | Some (VBool b) => KBoolean b
  | Some v => KString (json_stable_stringify v)
  end.

(** [this._key], as [init_query] builds it (lines 804-844). *)
Definition make_key (pks : list string) (obj : option record) : jskey :=
  match obj with
  | None => KUndefined
  | Some r =>
      match pks with
      | [pk] => to_key (r !! pk)
      | _ =>
          match
            foldl (λ acc pk,
              match acc with
              | None => None
              | Some v => if is_null (r !! pk) then None
                          else (λ a, v ++ [a]) <$> r !! pk
              end) (Some []) pks
          with
          | None => KUndefined
          | Some v => to_key (Some (VList v))
          end
      end
  end.

(** [_computed_primary_key(obj)], lines 1322-1343; the field rules are
    read from [this._client_query.set]. *)
Definition _computed_primary_key (obj : record) : M (option value) :=
  cq ← deref _client_query;
  pks ← get _primary_keys;
  match cq_set cq with
  | None => throw TypeError
  | Some sq =>
      match pks with
      | [pk] =>
          match fields sq !! pk with
          | Some (RuleComputed f) => ret (f obj)
          | _ => ret None
          end
      | _ =>
          ret ((λ v, VList v) <$>
            foldl (λ acc pk,
              match acc, fields sq !! pk with
              | Some v, Some (RuleComputed f) => Some (v ++ [default VNull (f obj)])
              | _, _ => None
              end) (Some []) pks)
      end
  end.

(** Lines 1439-1447: the primary key is written into [changes]. *)
Definition with_primary_key (pks : list string) (id0 : option value)
    (changes : record) : record :=
  match pks with
  | [pk] => partial_alter (λ _, id0) pk changes
  | _ =>
      (foldl (λ acc pk,
         (partial_alter
            (λ _, match id0 with
                  | Some (VList l) => l !! acc.2
                  | _ => None
                  end) pk acc.1,
          S acc.2)) (changes, 0%nat) pks).1
  end.

(** Lines 1418-1448: the key of the record that [set] changes, and
    [changes] with that key; [None] when no key is found. *)
Definition resolve_key (changes : record) : M (option (jskey * record)) :=
  _key ← get _key;
  let id := _key (Some changes) in
  if decide (id ≠ KUndefined) then ret (Some (id, changes))
  else
    id0 ← _computed_primary_key changes;
    let id := to_key id0 in
    pks ← get _primary_keys;
    '(id0, id) ←
      (if decide (id = KUndefined ∧ length pks = 1%nat) then
         vl ← deref value_local;
         let first := head (map_to_list vl).*1 in
         ret (first ≫= value_of_key, default KUndefined first)
       else ret (id0, id));
    if decide (id = KUndefined) then ret None
    else ret (Some (id, with_primary_key pks id0 changes)).

(** Lines 1486-1497 of [set]: the new value is stored, saved and
    announced when it is not the current one. *)
Definition finish_set (id : jskey) (cur : option record) (new_val : record)
    (cb : option callback) : M (option record) :=
  (if decide (Some new_val ≠ cur) then
     vl ← deref value_local;
     put (set_value_local (Some (<[id:=new_val]> vl)));;
     save cb;;
     emit_change [id]
   else call_cb cb None);;
  ret (Some new_val).

(** [set(changes, merge, cb)], lines 1356-1498; the result is the
    value returned, [None] for undefined. *)
Definition set (changes : record) (merge : merge_arg)
    (cb : option callback) : M (option record) :=
  st ← get state;
  if decide (st = "closed") then call_cb cb (Some "closed");; ret None
  else
    vl ← get value_local;
    (if vl is None then put (set_value_local (Some ∅)) else ret tt);;
    let '(merge, cb) :=
      match merge with
      | MergeUndefined => ("deep", cb)
      | MergeCallback f => ("deep", Some f)
      | MergeName s => (s, cb)
      end in
    cq ← deref client_query;
    tbl ← get table;
    match cq_set cq with
    | None => call_cb cb (Some ("users may not set " +:+ tbl));; ret None
    | Some sq =>
        match filter (λ k, fields sq !! k = None) (keys changes) with
        | k :: _ =>
            call_cb cb (Some ("users may not set " +:+ tbl +:+ "." +:+ k));;
            ret None
        | [] =>
            pks ← get _primary_keys;
            r ← resolve_key changes;
            match r with
            | None =>
                call_cb cb (Some ("must specify primary key "
                  +:+ String.concat "," pks
                  +:+ ", have at least one record, or have a computed primary key"));;
                ret None
            | Some (id, changes) =>
                vl ← deref value_local;
                let cur := vl !! id in
                required ← get _required_set_fields;
                match cur with
                | None =>
                    match filter (λ k, is_null (changes !! k) = true)
                            (elements required) with
                    | k :: _ =>
                        call_cb cb (Some ("must specify field '" +:+ k
                          +:+ "' for new records"));;
                        ret None
                    | [] => finish_set id cur changes cb
                    end
                | Some c =>
                    if decide (merge = "deep")
                    then finish_set id cur (mergeDeep c changes) cb
                    else if decide (merge = "shallow")
                    then finish_set id cur (changes ∪ c) cb
                    else if decide (merge = "none")
                    then finish_set id cur changes cb
                    else
                      call_cb cb (Some "merge must be one of 'deep', 'shallow', 'none'");;
                      ret None
                end
            end
        end
    end.

End LocalMutation.

(** * Construction and the table registry *)

(** The part of a table of [schema.SCHEMA] that the class reads. *)
Record GetQuery := {
  get_fields : list string;
  get_throttle_changes : option Z
}.

Record TableSchema := {
  user_query_get : option GetQuery;
  user_query : option ClientQuery;
  project_query : option ClientQuery;
  anonymous : bool;
  primary_keys : list string   (* schema.client_db.primary_keys(table) *)
}.

(** A query: the name of a table, or an object from table names to a
    template or an array of templates. *)
Inductive query_body :=
  | BodyArray (l : list record)
  | BodyObject (r : record).

Inductive query :=
  | QueryName (tbl : string)
  | QueryObject (q : list (string * query_body)).

(** [set.fields[field] != null], lines 851-861. *)
Definition settable (sq : option SetQuery) (k : string) : bool :=
  match sq ≫= (λ s, fields s !! k) with
  | Some RuleNull | None => false
  | Some _ => true
  end.

(** [set.required_fields[field] != null], lines 862-872. *)
Definition required (sq : option SetQuery) (k : string) : bool :=
  match sq with
  | Some s => bool_decide (k ∈ required_fields s)
  | None => false
  end.

(** The global [synctables] and the instances, by address. *)
Record Registry := {
  synctables : gmap string nat;
  instances : gmap nat SyncTable
}.

Section Registry.

Variable json_stable_stringify : value → string.

(** [json_stable_stringify] of [{query, options, debounce_interval,
    throttle_changes}], line 1585. *)
Variable signature : query → option value → Z → option Z → string.

Variable SCHEMA : string → option TableSchema.

(** [parse_query(query)], lines 745-767: the table and its templates. *)
Definition parse_query (q : query) : outcome (string * list record) :=
  match q with
  | QueryName tbl =>
      match SCHEMA tbl ≫= user_query_get with
      | None => Throw TypeError
      | Some g =>
          Ret (tbl, [list_to_map ((λ k, (k, VNull)) <$> get_fields g)])
      end
  | QueryObject [(tbl, BodyArray l)] => Ret (tbl, l)
  | QueryObject [(tbl, BodyObject r)] => Ret (tbl, [r])
  | QueryObject _ => Throw "must specify exactly one table"
  end.

(** The constructor, lines 304-396: [init_query], [init_plug],
    [init_disconnect] and [init_throttle_changes]. *)
Definition new_SyncTable (q : query) (is_project : bool)
    (debounce_interval : Z) (throttle_changes : option Z)
    (cache_key : string) (t : Z) : outcome SyncTable :=
  match parse_query q with
  | Throw e => Throw e
  | Ret (tbl, templates) =>
      match SCHEMA tbl with
      | None => Throw TypeError
      | Some sch =>
          match
            match head templates, primary_keys sch with
            | None, _ :: _ => Throw TypeError
            | None, [] => Ret None
            | Some template, pks =>
                Ret (Some (foldl (λ r pk,
                       if is_null (r !! pk) then <[pk:=VNull]> r else r)
                     template pks))
            end
          with
          | Throw e => Throw e
          | Ret template =>
              let cq := if is_project then project_query sch
                        else user_query sch in
              let sq := cq ≫= cq_set in
              let template_keys := default [] (keys <$> template) in
              Ret {| client_is_project := is_project;
                     debounce_interval := debounce_interval;
                     throttle_changes :=
                       match throttle_changes with
                       | Some w => Some w
                       | None => user_query_get sch ≫= get_throttle_changes
                       end;
                     cache_key := cache_key;
                     table := tbl;
                     _client_query := cq;
                     _primary_keys := primary_keys sch;
                     _key := make_key json_stable_stringify (primary_keys sch);
                     _set_fields :=
                       filter (λ k, settable sq k = true) template_keys;
                     _required_set_fields :=
                       list_to_set
                         (filter (λ k, required sq k = true) template_keys);
                     plug := true;
                     state := "disconnected";
                     changefeed_id := None;
                     value_local := None;
                     value_server := None;
                     __is_saving := false;
                     _save_debounce := false;
                     _connected_save_cbs := None;
                     _reference_count := RcUndefined;
                     all_changed_keys := [];
                     throttle_previous := 0;
                     throttle_timeout := false;
                     _state := None;
                     _value_local := None;
                     _value_server := None;
                     _client := None;
                     client_query := None;
                     _debounce_interval := None;
                     _cache_key := None;
                     _plug := None;
                     now := t |}
          end
      end
  end.

(** [S._reference_count += 1] *)
Definition incr_refcount (rc : refcount) : refcount :=
  match rc with
  | RcNum n => RcNum (n + 1)
  | _ => RcNaN
  end.

(** [sync_table(query, options, client, debounce_interval,
    throttle_changes, use_cache)], lines 1577-1626.  The result is the
    address of the instance; the effect [NextTick] is the function handed
    to [async.nextTick], which is [sync_table_tick]. *)
Definition sync_table (q : query) (options : option value)
    (is_project : bool) (debounce_interval : option Z)
    (throttle_changes : option Z) (use_cache : option bool) (t : Z)
    (R : Registry) : Registry * list effect * outcome nat :=
  let debounce_interval := default 2000 debounce_interval in
  let use_cache := default true use_cache in
  let cache_key := signature q options debounce_interval throttle_changes in
  let fresh_addr := fresh (dom (instances R)) in
  if negb use_cache then
    match new_SyncTable q is_project debounce_interval throttle_changes
            cache_key t with
    | Throw e => (R, [], Throw e)
    | Ret T =>
        ({| synctables := synctables R;
            instances := <[fresh_addr:=T]> (instances R) |}, [], Ret fresh_addr)
    end
  else
    match synctables R !! cache_key with
    | Some a =>
        match instances R !! a with
        | None => (R, [], Throw TypeError)
        | Some T =>
            ({| synctables := synctables R;
                instances :=
                  <[a:=set__reference_count
                         (incr_refcount (_reference_count T)) T]> (instances R) |},
             if decide (_state T = Some "connected") then [NextTick a]
             else [],
             Ret a)
        end
    | None =>
        match new_SyncTable q is_project debounce_interval throttle_changes
                cache_key t with
        | Throw e => (R, [], Throw e)
        | Ret T =>
            ({| synctables := <[cache_key:=fresh_addr]> (synctables R);
                instances :=
                  <[fresh_addr:=set__reference_count (RcNum 1) T]> (instances R) |},
             [], Ret fresh_addr)
        end
    end.

(** The function handed to [async.nextTick], lines 1606-1610. *)
Definition sync_table_tick (S : SyncTable) : list effect :=
  if decide (_state S = Some "connected") then [Emit (Ev_connected None)]
  else [].

End Registry.

(** * Client-side throttling of running projects (lines 22-100) *)

(** Truthiness of a value that may be undefined. *)
Definition truthy_value (v : option value) : bool :=
  match v with
  | None | Some VNull => false
  | Some (VBool b) => b
  | Some (VNum n) => bool_decide (n ≠ 0)
  | Some (VStr s) => bool_decide (s ≠ "")
  | Some (VList _) | Some (VMap _) => true
  end.

(** What [allow_project_to_run] reads of the store of projects.  A project
    of [project_map] is an Immutable.js map, a [record]. *)
Record ProjectsStore := {
  get_state : string → option string;
  project_map : gmap string record;
  get_total_project_upgrades : string → option (gmap string Z);
  get_site_license_ids : string → list string
}.

(** What the two functions read of the page: [window.location.host], the
    number at [running_projects.free] of the store [server_stats], the
    number [max_trial_projects] of the store [customize], each undefined
    when its store or the entry is, and the store [projects]. *)
Record Page := {
  host : string;
  running_projects_free : option Z;
  max_trial_projects : option Z;
  projects : option ProjectsStore
}.

(** [not_on_cocalc_com()], lines 22-24. *)
Definition not_on_cocalc_com (p : Page) : bool :=
  bool_decide (host p ≠ "cocalc.com").

(** [too_many_free_projects()], lines 26-37. *)
Definition too_many_free_projects (p : Page) : bool :=
  if not_on_cocalc_com p then false
  else
    let running_projects := default 0 (running_projects_free p) in
    let free_limit := default 0 (max_trial_projects p) in
    bool_decide (0 < free_limit) && bool_decide (free_limit ≤ running_projects).

(** [project.getIn(["settings", "member_host"])] *)
Definition member_host (project : record) : option value :=
  match project !! "settings" with
  | Some (VMap settings) => settings !! "member_host"
  | _ => None
  end.

(** The loop of lines 76-81: some upgrade is not zero. *)
Definition some_upgrade (upgrades : option (gmap string Z)) : bool :=
  match upgrades with
  | Some u => bool_decide (Exists (λ kv, kv.2 ≠ 0) (map_to_list u))
  | None => false
  end.

(** [allow_project_to_run(project_id)], lines 39-100. *)
Definition allow_project_to_run (p : Page) (project_id : string)
    : outcome bool :=
  if not_on_cocalc_com p then Ret true
  else
    match projects p with
    | None => Throw TypeError
    | Some store =>
        let state := get_state store project_id in
        if decide (state = Some "running" ∨ state = Some "starting")
        then Ret true
        else if negb (too_many_free_projects p) then Ret true
        else
          match project_map store !! project_id with
          | None => Ret true
          | Some project =>
              if negb (is_null (project !! "course")) then Ret true
              else if some_upgrade (get_total_project_upgrades store project_id)
              then Ret true
              else if truthy_value (member_host project) then Ret true
              else if decide (0 < length (get_site_license_ids store project_id))%nat
              then Ret true
              else Ret false
          end
    end.

(** * Reading the table (lines 707-743) *)

(** [has_uncommitted_changes()], lines 710-718; [None] is undefined.  It
    reads [_value_server] and [_value_local]. *)
Definition has_uncommitted_changes (S : SyncTable) : option bool :=
  match _value_server S, _value_local S with
  | None, None => None
  | None, Some _ => Some true
  | Some vs, vl => Some (bool_decide (Some vs ≠ vl))
  end.

(** What [get] returns when it is not undefined: the table, a record, or
    the map that [immutable.fromJS] makes of the object [x] of line 726,
    whose properties may be undefined. *)
Inductive got :=
  | GotTable (t : table_map)
  | GotRecord (r : record)
  | GotRecords (x : gmap string (option record)).

Section Get.

Variable json_stable_stringify : value → string.

(** [get(arg)], lines 720-737.  It reads [_value_local]. *)
Definition get_ (arg : option value) (S : SyncTable) : option got :=
  match _value_local S with
  | None => None
  | Some vl =>
      if is_null arg then Some (GotTable vl)
      else
        match arg with
        | Some (VList ks) =>
            Some (GotRecords
              (foldl (λ x k,
                 <[prop_name (to_key json_stable_stringify (Some k))
                   := vl !! to_key json_stable_stringify (Some k)]> x) ∅ ks))
        | _ => GotRecord <$> vl !! to_key json_stable_stringify arg
        end
  end.

End Get.

(** [get_one()], lines 739-743: the first record in the order of
    iteration. *)
Definition get_one (S : SyncTable) : option record :=
  _value_local S ≫= (λ vl, head (map_to_list vl).*2).

(** * Connecting (lines 461-544 and 683-700) *)

(** A message of the transport to the callback of a query: [resp.event],
    [resp.id], [resp.query] with its entry for the table of the instance,
    and the change that [_update_change] reads in it. *)
Record response := {
  resp_event : option string;
  resp_id : option string;
  resp_query : option (option (list record));
  resp_change : change
}.

(** [resp.query[this.table]] behind the guards of lines 498-503. *)
Definition resp_rows (resp : option response) : option (list record) :=
  match resp with
  | Some r => default None (resp_query r)
  | None => None
  end.

(** The variables that the callback of [_do_the_query] has captured:
    [first_resp], [this_query_id] and the parameter [cb]. *)
Record query_closure := QueryClosure {
  first_resp : bool;
  this_query_id : option string;
  qc_cb : option callback
}.

(** How a callback of the transport ends: it returns, or it ends in the
    call [this._plug.connect()] of [disconnected]. *)
Inductive ending :=
  | Returns
  | PlugConnect.

(** [disconnected(why)], lines 683-695. *)
Definition disconnected : M ending :=
  st ← get state;
  if decide (st = "disconnected") then ret Returns
  else
    id ← get changefeed_id;
    match id with
    | Some i =>
        if decide (i ≠ "") then _ ← deref _client; perform (QueryCancel i)
        else ret tt
    | None => ret tt
    end;;
    put (set_state "disconnected");;
    _ ← deref _plug;
    ret PlugConnect.

(** [reconnect()], lines 698-700. *)
Definition reconnect : M ending := disconnected.

(** [this._update_change(resp)] on a message that may be undefined. *)
Definition _update_change_resp (resp : option response) : M unit :=
  match resp with
  | Some r => _update_change (resp_change r)
  | None =>
      st ← get state;
      if decide (st = "closed") then ret tt
      else
        vl ← get value_local;
        vs ← get value_server;
        match vl, vs with
        | Some _, Some _ => emit Ev_before_change;; throw TypeError
        | _, _ => ret tt
        end
  end.

Section Connect.

Variable JSON_parse : string → option value.

(** The callback of the query of [_do_the_query], lines 471-542.  The
    result has the captured variables as the call leaves them. *)
Definition _do_the_query_cb (k : query_closure) (err : option string)
    (resp : option response) : M (query_closure * ending) :=
  st ← get state;
  if decide (st = "closed") then ret (k, Returns)
  else if is_fatal err then
    close JSON_parse true;;
    call_cb (qc_cb k) err;;
    ret (QueryClosure (first_resp k) (this_query_id k) None, Returns)
  else if first_resp k then
    let k := QueryClosure false (this_query_id k) (qc_cb k) in
    st ← get state;
    if decide (st = "closed") then
      call_cb (qc_cb k) (Some "closed");; ret (k, Returns)
    else if decide (resp ≫= resp_event = Some "query_cancel") then
      call_cb (qc_cb k) (Some "query-cancel");; ret (k, Returns)
    else if truthy err then
      call_cb (qc_cb k) err;; ret (k, Returns)
    else
      match resp, resp_rows resp with
      | Some r, Some rows =>
          put (set_changefeed_id (resp_id r));;
          put (set_state "connected");;
          _update_all (Some rows);;
          emit (Ev_connected (Some rows));;
          call_cb (qc_cb k) None;;
          cbs ← get _connected_save_cbs;
          cb ← for_of (default [] cbs)
                 (λ (c _ : option callback), save c;; ret c) (qc_cb k);
          put (set__connected_save_cbs None);;
          ret (QueryClosure false (resp_id r) cb, Returns)
      | _, _ =>
          call_cb (qc_cb k) (Some "got no data");; ret (k, Returns)
      end
  else
    st ← get state;
    if decide (st ≠ "connected") then
      match this_query_id k with
      | Some i => _ ← deref _client; perform (QueryCancel i)
      | None => ret tt
      end;;
      ret (k, Returns)
    else if truthy err || bool_decide (resp ≫= resp_event = Some "query_cancel")
    then
      e ← disconnected;
      ret (k, e)
    else
      _update_change_resp resp;;
      ret (k, Returns).

End Connect.

(** * The three-way merge of a record *)

(** The record that [_handle_new_val] leaves in [value_local] when a local
    record exists: lines 1289-1301. *)
Definition merged (new_val : record) (server : option record)
    (local_val : record) : record :=
  apply_removed new_val server (apply_changed new_val server local_val).

Lemma lookup_apply_changed new_val server local_val (j : string) :
  apply_changed new_val server local_val !! j =
    match new_val !! j with
    | Some v => if decide (Some v = field server j) then local_val !! j else Some v
    | None => local_val !! j
    end.
Proof.
  unfold apply_changed.
  apply (map_fold_weak_ind (λ r m, r !! j =
    match m !! j with
    | Some v => if decide (Some v = field server j) then local_val !! j else Some v
    | None => local_val !! j
    end)).
  - by rewrite lookup_empty.
  - intros i x m r Hi IH. destruct (decide (i = j)) as [->|Hne].
    + rewrite lookup_insert_eq. destruct (decide (Some x = _)) as [Heq|Hneq].
      * by rewrite IH, Hi.
      * by rewrite lookup_insert_eq.
    + rewrite (lookup_insert_ne m) by done.
      destruct (decide (Some x = _)); [done|].
      by rewrite lookup_insert_ne.
Qed.

Lemma lookup_apply_removed new_val server local_val (j : string) :
  apply_removed new_val server local_val !! j =
    if decide (is_Some (field server j) ∧ new_val !! j = None) then None
    else local_val !! j.
Proof.
  unfold apply_removed, field. destruct server as [s|]; simpl.
  - pose (P := λ (r m : record), r !! j =
      if decide (is_Some (m !! j) ∧ new_val !! j = None) then None
      else local_val !! j).
    change (P (map_fold (λ k _ acc,
      if decide (is_Some (new_val !! k)) then acc else delete k acc) local_val s) s).
    apply map_fold_weak_ind; unfold P.
    + rewrite lookup_empty. case_decide as H; [|done].
      destruct H as [[? ?] _]. done.
    + intros i x m r Hi IH. destruct (decide (i = j)) as [->|Hne].
      * rewrite lookup_insert_eq.
        destruct (new_val !! j) as [v|] eqn:Hn.
        -- rewrite decide_True by eauto. rewrite IH, Hi.
           rewrite !decide_False; [done|intros [? ?]; done|intros [[? ?] ?]; done].
        -- rewrite decide_False by (intros [? ?]; done).
           rewrite lookup_delete_eq. rewrite decide_True; eauto.
      * rewrite (lookup_insert_ne m) by done.
        destruct (decide (is_Some (new_val !! i))); [done|].
        by rewrite lookup_delete_ne.
  - done.
Qed.

(** Field by field, the merge takes the server's new value where the server
    changed the field since its last recorded value, a removal included, and
    keeps the local value everywhere else. *)
Lemma lookup_merged new_val server local_val (j : string) :
  merged new_val server local_val !! j =
    if decide (new_val !! j = field server j) then local_val !! j
    else new_val !! j.
Proof.
  unfold merged. rewrite lookup_apply_removed, lookup_apply_changed.
  destruct (new_val !! j) as [v|] eqn:Hn.
  - rewrite decide_False by (intros [_ ?]; done).
    destruct (decide (Some v = field server j)); done.
  - destruct (field server j) as [w|] eqn:Hs.
    + rewrite decide_True by eauto. by rewrite decide_False.
    + rewrite decide_False by (intros [[? ?] _]; done). by rewrite decide_True.
Qed.

Lemma merged_same new_val local_val :
  merged new_val (Some new_val) local_val = local_val.
Proof.
  apply map_eq. intros j. rewrite lookup_merged. by rewrite decide_True.
Qed.

(** * What a call of [_handle_new_val] does *)

(** The instance with both tables replaced. *)
Definition with_tables (vl vs : table_map) (S : SyncTable) : SyncTable :=
  set_value_server (Some vs) (set_value_local (Some vl) S).

(** The record at the key of [val] after [_handle_new_val(val, ...)]. *)
Definition handled (val : record) (local_val : option record)
    (server : option record) : record :=
  match local_val with
  | Some lv => merged val server lv
  | None => val
  end.

Lemma merged_eq_local val server :
  merged val server val = val.
Proof.
  apply map_eq. intros j. rewrite lookup_merged. by case_decide.
Qed.

Ltac run_M :=
  cbv beta iota delta [bind get deref put ret emit perform throw with_tables];
  cbn.

Local Opaque apply_changed apply_removed.

Lemma _handle_new_val_run S val changed_keys vl vs :
  value_local S = Some vl →
  value_server S = Some vs →
  let key := _key S (Some val) in
  let m := handled val (vl !! key) (vs !! key) in
  _handle_new_val val changed_keys S =
    (set_value_server (Some (<[key:=val]> vs))
       (set_value_local (Some (<[key:=m]> vl)) S),
     if decide (m = val) then [] else [Emit (Ev_conflict val m)],
     Ret (if decide (vl !! key = Some m) then changed_keys
          else changed_keys ++ [key],
          bool_decide (m ≠ val))).
Proof.
  intros Hl Hs key m. subst key m. unfold _handle_new_val, handled, merged.
  destruct S; simpl in *; subst. run_M.
  destruct (vl !! _key0 (Some val)) as [lv|] eqn:Hlv; simpl.
  - destruct (decide (Some val ≠ Some lv)) as [Hne|Heq]; simpl.
    + rewrite Hlv.
      remember (apply_removed val (vs !! _key0 (Some val))
        (apply_changed val (vs !! _key0 (Some val)) lv)) as m eqn:Hmdef.
      destruct (decide (Some m ≠ Some lv)) as [Hm|Hm]; simpl.
      * rewrite (decide_False (P := Some lv = Some m)) by congruence.
        destruct (decide (m ≠ val)) as [Hc|Hc]; simpl.
        -- rewrite decide_False by done. by rewrite bool_decide_eq_true_2.
        -- apply dec_stable in Hc. rewrite decide_True by done.
           by rewrite bool_decide_eq_false_2 by (intros Hx; by apply Hx).
      * apply dec_stable in Hm. injection Hm as Hm.
        rewrite (decide_True (P := Some lv = Some m)) by congruence.
        rewrite (insert_id vl _ m) by congruence.
        destruct (decide (m ≠ val)) as [Hc|Hc]; simpl.
        -- rewrite decide_False by done. by rewrite bool_decide_eq_true_2.
        -- apply dec_stable in Hc. rewrite decide_True by done.
           by rewrite bool_decide_eq_false_2 by (intros Hx; by apply Hx).
    + apply dec_stable in Heq. injection Heq as <-.
      pose proof (merged_eq_local val (vs !! _key0 (Some val))) as Hmv.
      unfold merged in Hmv. rewrite Hmv.
      rewrite decide_True by done.
      rewrite decide_True by done. rewrite (insert_id vl) by done.
      by rewrite bool_decide_eq_false_2 by (intros Hx; by apply Hx).
  - rewrite decide_True by done. simpl.
    by rewrite bool_decide_eq_false_2 by (intros Hx; by apply Hx).
Qed.

(** * The loops of [_update_all] on the two tables *)

Lemma with_tables_id S vl vs :
  value_local S = Some vl → value_server S = Some vs → with_tables vl vs S = S.
Proof. destruct S; simpl; intros -> ->; reflexivity. Qed.

Lemma with_tables_twice vl vs vl' vs' S :
  with_tables vl' vs' (with_tables vl vs S) = with_tables vl' vs' S.
Proof. reflexivity. Qed.

Lemma _handle_new_val_tables S val changed_keys vl vs :
  let key := _key S (Some val) in
  let m := handled val (vl !! key) (vs !! key) in
  _handle_new_val val changed_keys (with_tables vl vs S) =
    (with_tables (<[key:=m]> vl) (<[key:=val]> vs) S,
     if decide (m = val) then [] else [Emit (Ev_conflict val m)],
     Ret (if decide (vl !! key = Some m) then changed_keys
          else changed_keys ++ [key],
          bool_decide (m ≠ val))).
Proof.
  intros key m.
  rewrite (_handle_new_val_run (with_tables vl vs S) val changed_keys vl vs)
    by reflexivity.
  reflexivity.
Qed.

(** The tables, [changed_keys] and [conflict] during the loops. *)
Definition merge_state : Type := table_map * table_map * list jskey * bool.

(** One round of the loop over [value_local] (lines 1155-1187), for a key
    that [value_local] still has. *)
Definition local_step (key_of : option record → jskey) (x : js_object)
    (t : merge_state) (key : jskey) : merge_state :=
  let '(vl, vs, changed_keys, c) := t in
  match x !! prop_name key with
  | Some y =>
      let k := key_of (Some y) in
      let m := handled y (vl !! k) (vs !! k) in
      (<[k:=m]> vl, <[k:=y]> vs,
       if decide (vl !! k = Some m) then changed_keys else changed_keys ++ [k],
       if bool_decide (m ≠ y) then true else c)
  | None =>
      if decide (vl !! key = vs !! key) then (delete key vl, vs, changed_keys ++ [key], c)
      else (vl, vs, changed_keys, true)
  end.

(** One round of the loop over [x] (lines 1193-1199). *)
Definition added_step (t : table_map * list jskey) (kv : string * record)
    : table_map * list jskey :=
  let '(vl, changed_keys) := t in
  match vl !! KString kv.1 with
  | None => (<[KString kv.1:=kv.2]> vl, changed_keys ++ [KString kv.1])
  | Some _ => (vl, changed_keys)
  end.

Definition conflict_effect (e : effect) : Prop :=
  ∃ a b, e = Emit (Ev_conflict a b).

Lemma local_step_defined key_of x vl vs ck c key k :
  k ≠ key → is_Some (vl !! k) →
  is_Some ((local_step key_of x (vl, vs, ck, c) key).1.1.1 !! k).
Proof.
  intros Hne Hk. unfold local_step.
  destruct (x !! prop_name key) as [y|]; simpl.
  - destruct (decide (key_of (Some y) = k)) as [->|Hn].
    + rewrite lookup_insert_eq. eauto.
    + by rewrite lookup_insert_ne.
  - case_decide; simpl; [|done]. by rewrite lookup_delete_ne.
Qed.

Lemma _update_all_local_run S x vl vs ck c key :
  is_Some (vl !! key) →
  ∃ effs,
    _update_all_local x key (ck, c) (with_tables vl vs S) =
      (let '(vl', vs', ck', c') := local_step (_key S) x (vl, vs, ck, c) key in
       (with_tables vl' vs' S, effs, Ret (ck', c')))
    ∧ Forall conflict_effect effs.
Proof.
  intros [l Hl]. unfold _update_all_local, local_step.
  destruct (x !! prop_name key) as [y|].
  - unfold bind at 1. rewrite _handle_new_val_tables. simpl.
    eexists. split.
    + unfold ret. rewrite app_nil_r.
      by destruct (bool_decide _).
    + case_decide; [constructor|]. repeat constructor. by eexists _, _.
  - exists []. split; [|constructor]. run_M. rewrite Hl. cbn.
    destruct (decide (Some l = vs !! key)) as [He|He]; reflexivity.
Qed.

Lemma loop_local_run S x keys : ∀ vl vs ck c,
  NoDup keys →
  (∀ k, k ∈ keys → is_Some (vl !! k)) →
  ∃ effs,
    for_of keys (_update_all_local x) (ck, c) (with_tables vl vs S) =
      (let '(vl', vs', ck', c') := foldl (local_step (_key S) x) (vl, vs, ck, c) keys in
       (with_tables vl' vs' S, effs, Ret (ck', c')))
    ∧ Forall conflict_effect effs.
Proof.
  induction keys as [|key keys IH]; intros vl vs ck c Hnd Hdef.
  - exists []. split; [reflexivity|constructor].
  - apply NoDup_cons in Hnd as [Hnotin Hnd].
    destruct (_update_all_local_run S x vl vs ck c key) as (e1 & Hrun & He1).
    { apply Hdef. left. }
    cbn [for_of foldl]. unfold bind at 1. rewrite Hrun.
    pose proof (λ k Hne Hk, local_step_defined (_key S) x vl vs ck c key k Hne Hk)
      as Hstep.
    destruct (local_step (_key S) x (vl, vs, ck, c) key) as [[[vl1 vs1] ck1] c1].
    simpl in Hstep.
    destruct (IH vl1 vs1 ck1 c1 Hnd) as (e2 & Hrun2 & He2).
    { intros k Hk. apply Hstep; [|apply Hdef; by right].
      intros ->. done. }
    rewrite Hrun2.
    destruct (foldl _ _ keys) as [[[vl2 vs2] ck2] c2].
    exists (e1 ++ e2). split; [reflexivity|]. by apply Forall_app.
Qed.

Lemma _update_all_added_run S kv vl vs ck :
  _update_all_added kv ck (with_tables vl vs S) =
    (let '(vl', ck') := added_step (vl, ck) kv in
     (with_tables vl' vs S, [], Ret ck')).
Proof.
  destruct kv as [key val]. unfold _update_all_added, added_step. run_M.
  destruct (vl !! KString key); reflexivity.
Qed.

Lemma loop_added_run S kvs : ∀ vl vs ck,
  for_of kvs _update_all_added ck (with_tables vl vs S) =
    (let '(vl', ck') := foldl added_step (vl, ck) kvs in
     (with_tables vl' vs S, [], Ret ck')).
Proof.
  induction kvs as [|kv kvs IH]; intros vl vs ck; [reflexivity|].
  cbn [for_of foldl]. unfold bind at 1. rewrite _update_all_added_run.
  destruct (added_step (vl, ck) kv) as [vl1 ck1].
  rewrite IH. by destruct (foldl _ _ kvs).
Qed.

(** The values of the tables, [changed_keys] and [conflict] after the two
    loops of [_update_all]. *)
Definition merge_tables (key_of : option record → jskey) (x : js_object)
    (vl vs : table_map) : merge_state :=
  let '(vl1, vs1, ck1, c1) :=
    foldl (local_step key_of x) (vl, vs, [], false) (map_to_list vl).*1 in
  let '(vl2, ck2) := foldl added_step (vl1, ck1) (map_to_list x) in
  (vl2, vs1, ck2, c1).

Lemma _update_all_merge_run S x vl vs :
  ∃ effs,
    _update_all_merge x (with_tables vl vs S) =
      (let '(vl', vs', ck, c) := merge_tables (_key S) x vl vs in
       (with_tables vl' vs' S, effs, Ret (ck, false, c)))
    ∧ Forall conflict_effect effs.
Proof.
  destruct (loop_local_run S x (map_to_list vl).*1 vl vs [] false)
    as (e1 & Hrun & He1).
  { apply NoDup_fst_map_to_list. }
  { intros k [[k' r] [-> Hkr]]%list_elem_of_fmap.
    apply elem_of_map_to_list in Hkr. eauto. }
  exists e1. split; [|done].
  unfold _update_all_merge, merge_tables.
  unfold bind at 1. unfold get at 1. unfold bind at 1. unfold get at 1.
  cbn [value_local value_server with_tables set_value_local set_value_server].
  unfold bind at 1. rewrite Hrun.
  destruct (foldl (local_step _ _) _ _) as [[[vl1 vs1] ck1] c1].
  unfold bind at 1. rewrite loop_added_run.
  destruct (foldl added_step _ _) as [vl2 ck2].
  unfold ret. by rewrite !app_nil_r.
Qed.

Lemma _update_all_merge_first S x :
  value_local S = None ∨ value_server S = None →
  _update_all_merge x S =
    (with_tables (fromJS x) (fromJS x) S, [], Ret (KString <$> keys x, true, false)).
Proof.
  intros H. unfold _update_all_merge. run_M.
  destruct S; simpl in *.
  destruct H as [-> | ->]; [reflexivity|].
  by destruct value_local0.
Qed.

(** * Facts on lists and on the object of a snapshot *)

Lemma foldl_prefix_ind {A B} (f : B → A → B) (I : list A → B → Prop) l b :
  I [] b →
  (∀ done a rest b, l = done ++ a :: rest → I done b → I (done ++ [a]) (f b a)) →
  I l (foldl f b l).
Proof.
  intros Hb Hstep.
  assert (∀ rest done b, l = done ++ rest → I done b →
            I (done ++ rest) (foldl f b rest)) as Hgen.
  { induction rest as [|a rest IH]; intros done b' Hl Hd.
    - by rewrite app_nil_r.
    - simpl. replace (done ++ a :: rest) with ((done ++ [a]) ++ rest)
        by (by rewrite <- app_assoc).
      apply IH; [by rewrite <- app_assoc|]. by eapply Hstep. }
  apply (Hgen l [] b); done.
Qed.

Lemma snapshot_object_lookup key_of v s y :
  snapshot_object key_of v !! s = Some y →
  y ∈ v ∧ prop_name (key_of (Some y)) = s.
Proof.
  unfold snapshot_object. revert s y.
  induction v as [|z v IH] using rev_ind; intros s y.
  - simpl. by rewrite lookup_empty.
  - rewrite foldl_app. simpl.
    destruct (decide (prop_name (key_of (Some z)) = s)) as [<-|Hne].
    + rewrite lookup_insert_eq. intros [= ->]. split; [|done].
      apply elem_of_app. right. by left.
    + rewrite lookup_insert_ne by done. intros [Hy Hs]%IH. split; [|done].
      apply elem_of_app. by left.
Qed.

Lemma lookup_fromJS_string (x : js_object) s : fromJS x !! KString s = x !! s.
Proof. unfold fromJS. apply (lookup_kmap KString). Qed.

Lemma lookup_fromJS_None (x : js_object) k :
  x !! prop_name k = None → fromJS x !! k = None.
Proof.
  intros H. unfold fromJS. apply lookup_kmap_None; [apply _|].
  intros s ->. done.
Qed.

(** * A snapshot applied twice *)

(** Every record of the object [x] has the string key under which [x]
    stores it. *)
Definition keyed (key_of : option record → jskey) (x : js_object) : Prop :=
  ∀ s y, x !! s = Some y → key_of (Some y) = KString s.

(** The tables have taken in the snapshot [x]: every record of [x] is the
    server's record and has a local record, and a local record that [x] does
    not have differs from the server's. *)
Definition synced (x : js_object) (vl vs : table_map) : Prop :=
  (∀ s y, x !! s = Some y → is_Some (vl !! KString s) ∧ vs !! KString s = Some y)
  ∧ (∀ k, is_Some (vl !! k) → x !! prop_name k = None → vl !! k ≠ vs !! k).

Lemma local_step_synced key_of x vl vs c a :
  keyed key_of x → synced x vl vs → is_Some (vl !! a) →
  ∃ c', local_step key_of x (vl, vs, [], c) a = (vl, vs, [], c').
Proof.
  intros Hk [Hx Hl] Ha. unfold local_step.
  destruct (x !! prop_name a) as [y|] eqn:Hxa.
  - rewrite (Hk _ _ Hxa). destruct (Hx _ _ Hxa) as [[lv Hlv] Hsv].
    rewrite Hlv, Hsv. simpl. rewrite merged_same.
    rewrite decide_True by done. rewrite !insert_id by done. eauto.
  - rewrite decide_False by (by apply Hl). eauto.
Qed.

Lemma loop_local_synced key_of x vl vs l : ∀ c,
  keyed key_of x → synced x vl vs → (∀ a, a ∈ l → is_Some (vl !! a)) →
  ∃ c', foldl (local_step key_of x) (vl, vs, [], c) l = (vl, vs, [], c').
Proof.
  induction l as [|a l IH]; intros c Hk Hs Hl; cbn [foldl]; [eauto|].
  destruct (local_step_synced key_of x vl vs c a) as [c1 ->]; [done..| |].
  { apply Hl. by left. }
  apply IH; [done..|]. intros b Hb. apply Hl. by right.
Qed.

Lemma loop_added_present vl l :
  (∀ kv, kv ∈ l → is_Some (vl !! KString kv.1)) →
  foldl added_step (vl, []) l = (vl, []).
Proof.
  induction l as [|kv l IH]; intros Hl; simpl; [done|].
  destruct (Hl kv) as [r Hr]; [by left|]. rewrite Hr.
  apply IH. intros b Hb. apply Hl. by right.
Qed.

(** On tables that have taken in [x], the two loops change nothing and
    [changed_keys] stays empty. *)
Lemma merge_tables_synced key_of x vl vs :
  keyed key_of x → synced x vl vs →
  ∃ c, merge_tables key_of x vl vs = (vl, vs, [], c).
Proof.
  intros Hk Hs. unfold merge_tables.
  destruct (loop_local_synced key_of x vl vs (map_to_list vl).*1 false)
    as [c ->]; [done..| |].
  { intros k [[k' r] [-> Hkr]]%list_elem_of_fmap.
    apply elem_of_map_to_list in Hkr. eauto. }
  rewrite loop_added_present; [eauto|].
  intros [s y] Hsy%elem_of_map_to_list. simpl.
  destruct Hs as [Hx _]. by destruct (Hx _ _ Hsy).
Qed.

(** The invariant of the loop over [value_local], on the keys done. *)
Definition local_inv (x : js_object) (vl0 : table_map)
    (done : list jskey) (t : merge_state) : Prop :=
  let '(vl, vs, ck, _) := t in
  (ck = [] → vl = vl0)
  ∧ (∀ k y, k ∈ done → x !! prop_name k = Some y →
       vs !! KString (prop_name k) = Some y)
  ∧ (∀ k, k ∈ done → x !! prop_name k = None → is_Some (vl !! k) →
       vl !! k ≠ vs !! k).

Lemma local_inv_step key_of x vl0 done a t :
  keyed key_of x → a ∉ done →
  local_inv x vl0 done t →
  local_inv x vl0 (done ++ [a]) (local_step key_of x t a).
Proof.
  intros Hk Ha. destruct t as [[[vl vs] ck] c]. intros (Hck & Hsv & Hdiff).
  unfold local_step. destruct (x !! prop_name a) as [y|] eqn:Hxa.
  - rewrite (Hk _ _ Hxa). set (m := handled _ _ _). simpl.
    split; [|split].
    + case_decide as Hm; [|by destruct ck]. intros Hnil.
      rewrite insert_id by done. by apply Hck.
    + intros k y' [Hin| ->%list_elem_of_singleton]%elem_of_app Hxk.
      * destruct (decide (prop_name a = prop_name k)) as [He|Hne].
        -- rewrite He, lookup_insert_eq. congruence.
        -- rewrite lookup_insert_ne by congruence. by apply Hsv.
      * rewrite lookup_insert_eq. congruence.
    + intros k [Hin| ->%list_elem_of_singleton]%elem_of_app Hxk; [|congruence].
      assert (KString (prop_name a) ≠ k) as Hne.
      { intros <-. simpl in Hxk. congruence. }
      rewrite !lookup_insert_ne by done. by apply Hdiff.
  - case_decide as Heq; simpl.
    + split; [|split].
      * by destruct ck.
      * intros k y' [Hin| ->%list_elem_of_singleton]%elem_of_app Hxk;
          [by apply Hsv|congruence].
      * intros k [Hin| ->%list_elem_of_singleton]%elem_of_app Hxk.
        -- rewrite lookup_delete_ne by (intros ->; done). by apply Hdiff.
        -- rewrite lookup_delete_eq. by intros [? ?].
    + split; [done|split].
      * intros k y' [Hin| ->%list_elem_of_singleton]%elem_of_app Hxk;
          [by apply Hsv|congruence].
      * intros k [Hin| ->%list_elem_of_singleton]%elem_of_app Hxk;
          [by apply Hdiff|done].
Qed.

Lemma loop_local_inv key_of x vl0 vs0 l :
  keyed key_of x → NoDup l →
  local_inv x vl0 l (foldl (local_step key_of x) (vl0, vs0, [], false) l).
Proof.
  intros Hk Hnd. apply (foldl_prefix_ind _ (local_inv x vl0)).
  - repeat split; intros; by (exfalso; eapply not_elem_of_nil).
  - intros done a rest b -> Hinv. apply local_inv_step; [done| |done].
    apply NoDup_app in Hnd as (_ & Hnd & _). intros Hin.
    apply (Hnd a); [done|by left].
Qed.

(** The invariant of the loop over [x], on the entries done. *)
Definition added_inv (vl1 : table_map) (ck1 : list jskey)
    (done : list (string * record)) (t : table_map * list jskey) : Prop :=
  let '(vl, ck) := t in
  (ck = [] → vl = vl1 ∧ ck1 = [])
  ∧ (∀ kv, kv ∈ done → is_Some (vl !! KString kv.1))
  ∧ (∀ k, is_Some (vl1 !! k) → vl !! k = vl1 !! k)
  ∧ (∀ k, is_Some (vl !! k) →
       is_Some (vl1 !! k) ∨ ∃ kv, kv ∈ done ∧ k = KString kv.1).

Lemma loop_added_inv vl1 ck1 l :
  added_inv vl1 ck1 l (foldl added_step (vl1, ck1) l).
Proof.
  apply (foldl_prefix_ind _ (added_inv vl1 ck1)).
  - split; [done|split; [|split; [done|by left]]].
    intros kv Hkv. by apply not_elem_of_nil in Hkv.
  - intros done kv rest [vl ck] _ (Hck & Hdone & Hold & Hnew).
    unfold added_step. destruct (vl !! KString kv.1) as [r|] eqn:Hkv; simpl.
    + split; [done|split; [|split; [done|]]].
      * intros b [Hin| ->%list_elem_of_singleton]%elem_of_app;
          [by apply Hdone|by rewrite Hkv].
      * intros k Hk. destruct (Hnew k Hk) as [?|(b & Hb & ->)]; [by left|].
        right. exists b. split; [|done]. apply elem_of_app. by left.
    + split; [by destruct ck|split; [|split]].
      * intros b [Hin| ->%list_elem_of_singleton]%elem_of_app.
        -- destruct (decide (KString kv.1 = KString b.1)) as [->|Hne].
           ++ rewrite lookup_insert_eq. eauto.
           ++ rewrite lookup_insert_ne by done. by apply Hdone.
        -- rewrite lookup_insert_eq. eauto.
      * intros k Hk. rewrite lookup_insert_ne; [by apply Hold|].
        intros <-. rewrite Hold in Hkv by done. rewrite Hkv in Hk.
        by destruct Hk.
      * intros k. destruct (decide (KString kv.1 = k)) as [<-|Hne].
        -- intros _. right. exists kv. split; [|done].
           apply elem_of_app. right. by left.
        -- rewrite lookup_insert_ne by done. intros Hk.
           destruct (Hnew k Hk) as [?|(b & Hb & ->)]; [by left|].
           right. exists b. split; [|done]. apply elem_of_app. by left.
Qed.

(** After the two loops, and the replacement of [value_server] that follows
    when a key has changed (lines 1206-1208), the tables have taken in
    [x]. *)
Lemma merge_tables_makes_synced key_of x vl vs :
  keyed key_of x →
  let '(vl', vs', ck, _) := merge_tables key_of x vl vs in
  synced x vl' (if decide (ck ≠ []) then fromJS x else vs').
Proof.
  intros Hk. unfold merge_tables.
  pose proof (loop_local_inv key_of x vl vs (map_to_list vl).*1 Hk
    (NoDup_fst_map_to_list vl)) as H1.
  destruct (foldl (local_step _ _) _ _) as [[[vl1 vs1] ck1] c1].
  destruct H1 as (Hck1 & Hsv1 & Hdiff1).
  pose proof (loop_added_inv vl1 ck1 (map_to_list x)) as H2.
  destruct (foldl added_step _ _) as [vl2 ck2].
  destruct H2 as (Hck2 & Hdone2 & Hold2 & Hnew2).
  assert (∀ k, is_Some (vl !! k) → k ∈ (map_to_list vl).*1) as Hkeys.
  { intros k [r Hr]. apply list_elem_of_fmap. exists (k, r).
    split; [done|]. by apply elem_of_map_to_list. }
  case_decide as Hne.
  - split.
    + intros s y Hxs. split; [|by rewrite lookup_fromJS_string].
      apply (Hdone2 (s, y)). by apply elem_of_map_to_list.
    + intros k [r Hr] Hxk. rewrite Hr, lookup_fromJS_None by done. done.
  - destruct (Hck2 Hne) as [-> ->].
    specialize (Hck1 eq_refl) as ->.
    split.
    + intros s y Hxs.
      assert (is_Some (vl !! KString s)) as Hs.
      { apply (Hdone2 (s, y)). by apply elem_of_map_to_list. }
      split; [done|]. apply (Hsv1 (KString s) y); [by apply Hkeys|done].
    + intros k Hkl Hxk. apply Hdiff1; [by apply Hkeys|done..].
Qed.

(** * Running the monad *)

Lemma bind_run {A B} (m : M A) (k : A → M B) S S1 e1 a :
  m S = (S1, e1, Ret a) →
  bind m k S = (let '(S2, e2, o) := k a S1 in (S2, e1 ++ e2, o)).
Proof. intros H. unfold bind. by rewrite H. Qed.

Lemma bind_get {A B} (f : SyncTable → A) (k : A → M B) S :
  bind (get f) k S = k (f S) S.
Proof. unfold bind, get. by destruct (k (f S) S) as [[? ?] ?]. Qed.

Lemma bind_put {B} (f : SyncTable → SyncTable) (k : unit → M B) S :
  bind (put f) k S = k tt (f S).
Proof. unfold bind, put. by destruct (k tt (f S)) as [[? ?] ?]. Qed.

Lemma bind_ret {A B} (a : A) (k : A → M B) S :
  bind (ret a) k S = k a S.
Proof. unfold bind, ret. by destruct (k a S) as [[? ?] ?]. Qed.

Lemma bind_perform {B} (e : effect) (k : unit → M B) S :
  bind (perform e) k S = (let '(S2, e2, o) := k tt S in (S2, e :: e2, o)).
Proof. reflexivity. Qed.

Lemma bind_deref_Some {A B} (f : SyncTable → option A) (k : A → M B) S a :
  f S = Some a → bind (deref f) k S = k a S.
Proof.
  intros H. cbv beta iota delta [bind deref get ret]. rewrite H.
  cbn beta iota. by destruct (k a S) as [[? ?] ?].
Qed.

Lemma bind_deref_None {A B} (f : SyncTable → option A) (k : A → M B) S :
  f S = None → bind (deref f) k S = (S, [], Throw TypeError).
Proof.
  intros H. cbv beta iota delta [bind deref get throw]. by rewrite H.
Qed.

(** What an instance keeps when only the emitter and the save queue act. *)
Definition same_tables (S S' : SyncTable) : Prop :=
  value_local S' = value_local S ∧ value_server S' = value_server S
  ∧ _key S' = _key S ∧ state S' = state S
  ∧ _debounce_interval S' = _debounce_interval S.

Lemma same_tables_refl S : same_tables S S.
Proof. by (unfold same_tables; simpl; repeat split). Qed.

Lemma same_tables_trans S1 S2 S3 :
  same_tables S1 S2 → same_tables S2 S3 → same_tables S1 S3.
Proof.
  intros (?&?&?&?&?) (?&?&?&?&?). repeat split; congruence.
Qed.

Definition change_effect (e : effect) : Prop := ∃ ks, e = Emit (Ev_change ks).

(** * The emitter *)

Definition immediate (S : SyncTable) : Prop :=
  throttle_changes S = None ∨ throttle_changes S = Some 0.

Lemma emit_change_immediate ks S :
  immediate S → emit_change ks S = (S, [Emit (Ev_change ks)], Ret tt).
Proof.
  intros H. unfold emit_change. rewrite bind_get.
  destruct H as [-> | ->]; [reflexivity|]. by rewrite decide_True.
Qed.

Lemma emit_change_throttled ks S wait :
  throttle_changes S = Some wait → wait ≠ 0 →
  emit_change ks S =
    throttled_do_emit_changes wait
      (set_all_changed_keys (foldl mark_changed (all_changed_keys S) ks) S).
Proof.
  intros H Hw. unfold emit_change. rewrite bind_get, H.
  rewrite decide_False by done. by rewrite bind_get, bind_put.
Qed.

(** The throttled flush: it fires at once, or it arms the timer, or the
    timer is armed already. *)
Lemma throttled_do_emit_changes_run wait S :
  let remaining := wait - (now S - throttle_previous S) in
  throttled_do_emit_changes wait S =
    if decide (remaining ≤ 0 ∨ wait < remaining) then
      (set_all_changed_keys [] (set_throttle_previous (now S)
         (set_throttle_timeout false S)),
       (if throttle_timeout S then [ClearTimeout] else [])
         ++ [Emit (Ev_change (KString <$> all_changed_keys S))],
       Ret tt)
    else if throttle_timeout S then (S, [], Ret tt)
    else (set_throttle_timeout true S, [SetTimeout remaining], Ret tt).
Proof.
  intros remaining. subst remaining. unfold throttled_do_emit_changes.
  rewrite !bind_get. destruct S; simpl.
  case_decide; destruct throttle_timeout0; reflexivity.
Qed.

Lemma later_run S :
  later S =
    (set_all_changed_keys [] (set_throttle_timeout false
       (set_throttle_previous (now S) S)),
     [Emit (Ev_change (KString <$> all_changed_keys S))], Ret tt).
Proof. reflexivity. Qed.

Lemma emit_change_same_tables ks S :
  ∃ S' e, emit_change ks S = (S', e, Ret tt) ∧ same_tables S S'.
Proof.
  destruct (throttle_changes S) as [wait|] eqn:Htc.
  - destruct (decide (wait = 0)) as [->|Hw].
    + rewrite emit_change_immediate by (by right).
      eexists _, _. split; [done|apply same_tables_refl].
    + rewrite (emit_change_throttled ks S wait) by done.
      rewrite throttled_do_emit_changes_run.
      simpl. case_decide; [|destruct (throttle_timeout S)];
        eexists _, _; (split; [reflexivity|by (unfold same_tables; simpl; repeat split)]).
  - rewrite emit_change_immediate by (by left).
    eexists _, _. split; [done|apply same_tables_refl].
Qed.

(** * save *)

Lemma save_connected cb S vl vs :
  state S = "connected" → value_local S = Some vl → value_server S = Some vs →
  save cb S =
    (set__save_debounce true S, [AsyncDebounce (_debounce_interval S) cb], Ret tt).
Proof.
  intros Hst Hl Hs. unfold save. rewrite bind_get, Hst.
  rewrite decide_False by done. rewrite decide_False by (intros H; by apply H).
  rewrite bind_put, !bind_get. simpl. rewrite Hs, Hl.
  rewrite bind_get. reflexivity.
Qed.

Lemma save_None_same_tables S :
  ∃ S' e, save None S = (S', e, Ret tt) ∧ same_tables S S'
          ∧ Forall (λ e, ¬ change_effect e) e.
Proof.
  unfold save. rewrite bind_get.
  case_decide; [eexists _, _; split; [reflexivity|split; [apply same_tables_refl|constructor]]|].
  case_decide; [eexists _, _; split; [reflexivity|split; [apply same_tables_refl|constructor]]|].
  rewrite bind_put, !bind_get. simpl.
  destruct (value_server S) eqn:Hs, (value_local S) eqn:Hl; rewrite bind_get;
    eexists _, _; (split; [reflexivity|split;
      [unfold same_tables; simpl; repeat split; congruence|]]);
    repeat constructor; by intros [? ?].
Qed.

(** * What a call of [_update_all] does *)

Lemma Forall_not_change_conflict effs :
  Forall conflict_effect effs → Forall (λ e, ¬ change_effect e) effs.
Proof.
  intros H. eapply Forall_impl; [exact H|].
  intros e (a & b & ->) [ks Hks]. discriminate.
Qed.

(** A full resync on an instance that has both tables. *)
Lemma _update_all_tables S v vl vs :
  state S ≠ "closed" → value_local S = Some vl → value_server S = Some vs →
  let x := snapshot_object (_key S) v in
  ∃ S' effs vl' vs' ck c,
    merge_tables (_key S) x vl vs = (vl', vs', ck, c)
    ∧ _update_all (Some v) S = (S', effs, Ret tt)
    ∧ value_local S' = Some vl'
    ∧ value_server S' = Some (if decide (ck ≠ []) then fromJS x else vs')
    ∧ _key S' = _key S ∧ state S' = state S
    ∧ (ck = [] → Forall (λ e, ¬ change_effect e) effs)
    ∧ (c = true → state S = "connected" →
         AsyncDebounce (_debounce_interval S) None ∈ effs).
Proof.
  intros Hst Hl Hs x.
  destruct (_update_all_merge_run S x vl vs) as (e1 & Hrun & He1).
  rewrite (with_tables_id S vl vs) in Hrun by done.
  destruct (merge_tables (_key S) x vl vs) as [[[vl' vs'] ck] c] eqn:Hm.
  unfold _update_all. rewrite bind_get, decide_False by done.
  unfold emit at 1. rewrite bind_perform, bind_get. fold x.
  rewrite (bind_run _ _ _ _ _ _ Hrun). cbn beta iota.
  destruct (decide (ck ≠ [])) as [Hck|Hck].
  - destruct (emit_change_same_tables ck
      (set_value_server (Some (fromJS x)) (with_tables vl' vs' S)))
      as (S2 & e2 & Hem & (Hl2 & Hs2 & Hk2 & Hst2 & Hd2)).
    rewrite <- (bind_put _ (λ _, emit_change ck)) in Hem.
    rewrite (bind_run _ _ _ _ _ _ Hem). simpl in Hl2, Hs2, Hk2, Hst2, Hd2.
    destruct c.
    + destruct (save_None_same_tables S2)
        as (S3 & e3 & Hsave & (Hl3 & Hs3 & Hk3 & Hst3 & Hd3) & _).
      rewrite Hsave. eexists _, _, _, _, _, _. split; [done|]. split; [done|].
      rewrite decide_True by done.
      split_and!; [congruence..|done|].
      intros _ Hconn. rewrite <- Hst2 in Hconn.
      rewrite (save_connected None S2 vl' (fromJS x)) in Hsave by done.
      injection Hsave as <- <-. rewrite Hd2.
      apply list_elem_of_further, elem_of_app. right.
      apply elem_of_app. right. by left.
    + eexists _, _, _, _, _, _. split; [done|]. split; [reflexivity|].
      rewrite decide_True by done.
      split_and!; [congruence..|done|done].
  - apply dec_stable in Hck. subst ck.
    destruct c.
    + destruct (save_None_same_tables (with_tables vl' vs' S))
        as (S3 & e3 & Hsave & (Hl3 & Hs3 & Hk3 & Hst3 & Hd3) & Hne3).
      rewrite bind_ret, Hsave. simpl in Hl3, Hs3, Hk3, Hst3, Hd3.
      eexists _, _, _, _, _, _. split; [done|]. split; [done|].
      rewrite decide_False by (intros H; by apply H).
      split_and!; [congruence..| |].
      * intros _. constructor; [by intros [? ?]|].
        apply Forall_app. split; [by apply Forall_not_change_conflict|done].
      * intros _ Hconn.
        rewrite (save_connected None _ vl' vs') in Hsave by done.
        injection Hsave as <- <-.
        apply list_elem_of_further, elem_of_app. right. by left.
    + rewrite !bind_ret. eexists _, _, _, _, _, _. split; [done|].
      split; [reflexivity|]. rewrite decide_False by (intros H; by apply H).
      split_and!; [done..| |done].
      intros _. constructor; [by intros [? ?]|].
      rewrite app_nil_r. by apply Forall_not_change_conflict.
Qed.

(** The first snapshot: taken over as it is. *)
Lemma _update_all_first S v :
  state S ≠ "closed" → value_local S = None ∨ value_server S = None →
  let x := snapshot_object (_key S) v in
  ∃ S' effs,
    _update_all (Some v) S = (S', effs, Ret tt)
    ∧ emit_change (KString <$> keys x) (with_tables (fromJS x) (fromJS x) S)
        = (S', drop 1 effs, Ret tt)
    ∧ effs = Emit Ev_before_change :: drop 1 effs
    ∧ value_local S' = Some (fromJS x) ∧ value_server S' = Some (fromJS x)
    ∧ _key S' = _key S ∧ state S' = state S.
Proof.
  intros Hst Hnone x.
  unfold _update_all. rewrite bind_get, decide_False by done.
  unfold emit at 1. rewrite bind_perform, bind_get. fold x.
  rewrite (bind_run _ _ _ _ _ _ (_update_all_merge_first S x Hnone)).
  cbn beta iota.
  destruct (emit_change_same_tables (KString <$> keys x)
      (with_tables (fromJS x) (fromJS x) S))
    as (S2 & e2 & Hem & (Hl2 & Hs2 & Hk2 & Hst2 & Hd2)).
  simpl in Hl2, Hs2, Hk2, Hst2.
  destruct (decide (KString <$> keys x ≠ [])) as [Hck|Hck].
  - assert (bind (put (set_value_server (Some (fromJS x))))
        (λ _, emit_change (KString <$> keys x))
        (with_tables (fromJS x) (fromJS x) S) = (S2, e2, Ret tt)) as Hem'.
    { rewrite bind_put. exact Hem. }
    rewrite (bind_run _ _ _ _ _ _ Hem'). cbn beta iota. unfold ret.
    rewrite app_nil_r. eexists _, _. split_and!; done.
  - rewrite (bind_run _ _ _ _ _ _ Hem). cbn beta iota. unfold ret.
    rewrite app_nil_r. eexists _, _. split_and!; done.
Qed.

(** * Full resync is idempotent *)

(** The records of a snapshot carry their primary key, a string or an
    object: the argument type of [to_key]. *)
Definition is_string_key (k : jskey) : bool :=
  match k with
  | KString _ => true
  | _ => false
  end.

Definition snapshot_keyed (S : SyncTable) (v : list record) : Prop :=
  Forall (λ y, is_string_key (_key S (Some y)) = true) v.

Lemma snapshot_keyed_object S v :
  snapshot_keyed S v → keyed (_key S) (snapshot_object (_key S) v).
Proof.
  intros Hv s y [Hy Hs]%snapshot_object_lookup.
  unfold snapshot_keyed in Hv. rewrite Forall_forall in Hv.
  specialize (Hv y Hy). destruct (_key S (Some y)); try done.
  simpl in Hs. congruence.
Qed.

Lemma synced_fromJS x : synced x (fromJS x) (fromJS x).
Proof.
  split.
  - intros s y Hxs. rewrite lookup_fromJS_string. eauto.
  - intros k [r Hr] Hxk. by rewrite lookup_fromJS_None in Hr.
Qed.

(** After a full resync the tables have taken in the snapshot. *)
Lemma _update_all_synced S v :
  state S ≠ "closed" → snapshot_keyed S v →
  ∃ S1 e1 vl vs,
    _update_all (Some v) S = (S1, e1, Ret tt)
    ∧ value_local S1 = Some vl ∧ value_server S1 = Some vs
    ∧ synced (snapshot_object (_key S) v) vl vs
    ∧ _key S1 = _key S ∧ state S1 = state S.
Proof.
  intros Hst Hv.
  destruct (value_local S) as [vl|] eqn:Hl; [destruct (value_server S) as [vs|] eqn:Hs|].
  - destruct (_update_all_tables S v vl vs Hst Hl Hs)
      as (S1 & e1 & vl' & vs' & ck & c & Hm & Hrun & Hl1 & Hs1 & Hk1 & Hst1 & _).
    pose proof (merge_tables_makes_synced (_key S) _ vl vs
      (snapshot_keyed_object S v Hv)) as Hsync.
    rewrite Hm in Hsync. eexists _, _, _, _. split_and!; done.
  - destruct (_update_all_first S v Hst) as (S1 & e1 & Hrun & _ & _ & Hl1 & Hs1 & Hk1 & Hst1);
      [by right|].
    eexists _, _, _, _. split_and!; [done..|apply synced_fromJS|done|done].
  - destruct (_update_all_first S v Hst) as (S1 & e1 & Hrun & _ & _ & Hl1 & Hs1 & Hk1 & Hst1);
      [by left|].
    eexists _, _, _, _. split_and!; [done..|apply synced_fromJS|done|done].
Qed.

(** X28.  Full resync is idempotent on a table whose keys are strings:
    when [_update_all] is applied twice in a row to the same snapshot, and
    [this._key] gives a string for every record of it (a string as primary
    key, or a compound key), the second application finds no changed key
    ([changed_keys] is empty after its two loops), emits no change
    notification and leaves both tables as the first application left
    them. *)
Theorem resync_is_idempotent (S : SyncTable) (v : list record) :
  state S ≠ "closed" →
  snapshot_keyed S v →
  ∃ S1 e1 S2 e2 c,
    _update_all (Some v) S = (S1, e1, Ret tt)
    ∧ _update_all (Some v) S1 = (S2, e2, Ret tt)
    ∧ (_update_all_merge (snapshot_object (_key S1) v) S1).2 = Ret ([], false, c)
    ∧ Forall (λ e, ¬ change_effect e) e2
    ∧ value_local S2 = value_local S1
    ∧ value_server S2 = value_server S1.
Proof.
  intros Hst Hv.
  destruct (_update_all_synced S v Hst Hv)
    as (S1 & e1 & vl & vs & Hrun1 & Hl1 & Hs1 & Hsync & Hk1 & Hst1).
  assert (state S1 ≠ "closed") as Hst1' by congruence.
  destruct (_update_all_tables S1 v vl vs Hst1' Hl1 Hs1)
    as (S2 & e2 & vl' & vs' & ck & c & Hm & Hrun2 & Hl2 & Hs2 & _ & _ & Hne & _).
  rewrite Hk1 in Hm.
  destruct (merge_tables_synced (_key S) _ vl vs
    (snapshot_keyed_object S v Hv) Hsync) as [c' Hm'].
  rewrite Hm' in Hm. injection Hm as <- <- <- <-.
  destruct (_update_all_merge_run S1 (snapshot_object (_key S1) v) vl vs)
    as (e & Hmerge & _).
  rewrite (with_tables_id S1 vl vs) in Hmerge by done.
  rewrite Hk1, Hm' in Hmerge.
  exists S1, e1, S2, e2, c'. split_and!; [done|done| |by apply Hne| |].
  - rewrite Hk1, Hmerge. reflexivity.
  - congruence.
  - rewrite Hs2, Hs1. by rewrite decide_False by (intros H; by apply H).
Qed.

(** * First-connection notification *)

(** The key lists of the change notifications among some effects. *)
Definition change_lists (effs : list effect) : list (list jskey) :=
  omap (λ e, match e with Emit (Ev_change ks) => Some ks | _ => None end) effs.

(** C6.  On the first connection (a table is still undefined) an empty
    snapshot makes [_update_all] emit one change notification with the empty
    key list.  Without throttling it is emitted at once.  With throttling,
    on an emitter that has nothing accumulated and no flush pending, either
    the flush runs at once and emits the empty list, or nothing is emitted
    yet, the timer of the throttle is armed, and the flush that its firing
    runs emits the empty list. *)
Theorem first_connection_notifies_empty (S : SyncTable) :
  state S ≠ "closed" →
  value_local S = None ∨ value_server S = None →
  all_changed_keys S = [] →
  throttle_timeout S = false →
  ∃ S' effs,
    _update_all (Some []) S = (S', effs, Ret tt)
    ∧ value_local S' = Some ∅ ∧ value_server S' = Some ∅
    ∧ (immediate S → change_lists effs = [[]])
    ∧ (change_lists effs = [[]] ∧ throttle_timeout S' = false
       ∨ change_lists effs = [] ∧ throttle_timeout S' = true
         ∧ ∀ t, change_lists (later (set_now t S')).1.2 = [[]]).
Proof.
  intros Hst Hnone Hacc Htimer.
  destruct (_update_all_first S [] Hst Hnone)
    as (S' & effs & Hrun & Hem & Heffs & Hl & Hs & _ & _).
  change (snapshot_object (_key S) []) with (∅ : js_object) in Hem, Hl, Hs.
  assert (fromJS (∅ : js_object) = ∅) as Hempty by apply kmap_empty.
  assert (keys (∅ : js_object) = []) as Hkeys
    by (unfold keys; by rewrite map_to_list_empty).
  rewrite Hempty in Hem, Hl, Hs. rewrite Hkeys in Hem.
  change (KString <$> []) with (@nil jskey) in Hem.
  exists S', effs. split; [done|]. split; [done|]. split; [done|].
  rewrite Heffs. unfold change_lists. cbn [omap list_omap].
  fold (change_lists (drop 1 effs)).
  destruct (throttle_changes S) as [wait|] eqn:Htc.
  - destruct (decide (wait = 0)) as [->|Hw].
    + rewrite emit_change_immediate in Hem by (by right).
      injection Hem as <- <-. simpl in *.
      split; [done|]. left. by rewrite Htimer.
    + rewrite (emit_change_throttled _ _ wait) in Hem by done.
      rewrite throttled_do_emit_changes_run in Hem. simpl in Hem.
      rewrite Hacc, Htimer in Hem. simpl in Hem.
      split; [intros [Hi|Hi]; congruence|].
      case_decide.
      * injection Hem as <- <-. by left.
      * injection Hem as <- <-. right. split; [done|]. split; [done|].
        intros t. rewrite later_run. reflexivity.
  - rewrite emit_change_immediate in Hem by (by left).
    injection Hem as <- <-. simpl in *.
    split; [done|]. left. by rewrite Htimer.
Qed.

(** * Local edits across a reconnect *)

(** The invariant of the loop over [value_local] for a record [K] whose
    field [f] was edited locally to [lf] while the snapshot reports the
    value [yf] that the server had: the edit stays, the server's record has
    [yf], and once [K] is done the conflict flag is up. *)
Definition edit_inv (K : jskey) (f : string) (lf yf : option value)
    (done : list jskey) (t : merge_state) : Prop :=
  let '(vl, vs, _, c) := t in
  (∃ l, vl !! K = Some l ∧ l !! f = lf)
  ∧ (∃ s, vs !! K = Some s ∧ s !! f = yf)
  ∧ (K ∈ done → c = true).

Lemma edit_inv_step key_of v k val f lf yf done a t :
  let x := snapshot_object key_of v in
  x !! k = Some val → key_of (Some val) = KString k →
  val !! f = yf → lf ≠ yf →
  edit_inv (KString k) f lf yf done t →
  edit_inv (KString k) f lf yf (done ++ [a]) (local_step key_of x t a).
Proof.
  intros x Hxk Hkey Hvf Hne. destruct t as [[[vl vs] ck] c].
  intros ((l & Hl & Hlf) & (s & Hs & Hsf) & Hc).
  unfold edit_inv, local_step. destruct (x !! prop_name a) as [y|] eqn:Hxa.
  - destruct (decide (key_of (Some y) = KString k)) as [Hk|Hk].
    + assert (y = val) as ->.
      { pose proof (snapshot_object_lookup _ _ _ _ Hxa) as [_ Hp].
        rewrite Hk in Hp. simpl in Hp. subst x. congruence. }
      rewrite Hkey, Hl, Hs. simpl.
      assert (merged val (Some s) l !! f = lf) as Hm.
      { rewrite lookup_merged. simpl. rewrite Hsf, Hvf.
        by rewrite decide_True. }
      split; [|split].
      * rewrite lookup_insert_eq. eauto.
      * rewrite lookup_insert_eq. eauto.
      * intros _. rewrite bool_decide_eq_true_2; [done|].
        intros Heq. rewrite Heq in Hm. congruence.
    + simpl. split; [|split].
      { exists l. by rewrite lookup_insert_ne. }
      { exists s. by rewrite lookup_insert_ne. }
      intros [Hin|Ha%list_elem_of_singleton]%elem_of_app.
      * rewrite (Hc Hin). by destruct (bool_decide _).
      * subst a. simpl in Hxa. subst x. congruence.
  - assert (a ≠ KString k) as Ha.
    { intros ->. simpl in Hxa. subst x. congruence. }
    assert (KString k ∈ done ++ [a] → c = true) as Hc'.
    { intros [Hin|Hin%list_elem_of_singleton]%elem_of_app; [auto|congruence]. }
    case_decide; simpl.
    + split; [|split; [eauto|done]].
      exists l. by rewrite lookup_delete_ne.
    + split; [eauto|split; [eauto|done]].
Qed.

Lemma loop_edit_inv key_of v k val f lf yf vl vs l :
  let x := snapshot_object key_of v in
  x !! k = Some val → key_of (Some val) = KString k →
  val !! f = yf → lf ≠ yf →
  (∃ lv, vl !! KString k = Some lv ∧ lv !! f = lf) →
  (∃ sv, vs !! KString k = Some sv ∧ sv !! f = yf) →
  edit_inv (KString k) f lf yf l
    (foldl (local_step key_of x) (vl, vs, [], false) l).
Proof.
  intros x Hxk Hkey Hvf Hne Hl Hs.
  apply (foldl_prefix_ind _ (edit_inv (KString k) f lf yf)).
  - split; [done|split; [done|]]. intros H. by apply not_elem_of_nil in H.
  - intros done a rest b _ Hinv. by eapply edit_inv_step.
Qed.

(** X29.  The three-way merge.  First part: when a record arrives from the
    server for a key that has a local record, [_handle_new_val] leaves at
    that key the local record in which exactly the fields that the server
    changed since its last recorded value (a removal is a change) have the
    server's new value, and every other field its local value; the other
    records of [value_local] are untouched and the recorded server value
    becomes the incoming record.  Second part, for a record that both
    tables keep under the string [k] that [this._key] gives for it: a local
    edit to the field [f] of the record, made while disconnected, survives
    the snapshot of a reconnect in which [k.f] has the last recorded server
    value; [k] then differs between the two tables and the save is
    requested. *)
Theorem three_way_merge_keeps_local_edits :
  (∀ (S : SyncTable) (val : record) (changed_keys : list jskey)
     (vl vs : table_map) (lv : record),
     value_local S = Some vl →
     value_server S = Some vs →
     vl !! _key S (Some val) = Some lv →
     ∃ S' effs changed_keys' c vl' m,
       _handle_new_val val changed_keys S = (S', effs, Ret (changed_keys', c))
       ∧ value_local S' = Some vl'
       ∧ value_server S' = Some (<[_key S (Some val):=val]> vs)
       ∧ vl' !! _key S (Some val) = Some m
       ∧ (∀ j, m !! j =
            if decide (val !! j = field (vs !! _key S (Some val)) j)
            then lv !! j else val !! j)
       ∧ (∀ k, k ≠ _key S (Some val) → vl' !! k = vl !! k))
  ∧ (∀ (S : SyncTable) (v : list record) (k f : string) (val lv sv : record)
       (vl vs : table_map),
       state S = "connected" →
       value_local S = Some vl →
       value_server S = Some vs →
       snapshot_object (_key S) v !! k = Some val →
       _key S (Some val) = KString k →
       vl !! KString k = Some lv →
       vs !! KString k = Some sv →
       val !! f = sv !! f →
       lv !! f ≠ sv !! f →
       ∃ S' effs vl' vs' lv' sv',
         _update_all (Some v) S = (S', effs, Ret tt)
         ∧ value_local S' = Some vl' ∧ value_server S' = Some vs'
         ∧ vl' !! KString k = Some lv' ∧ lv' !! f = lv !! f
         ∧ vs' !! KString k = Some sv' ∧ sv' !! f = sv !! f
         ∧ lv' ≠ sv'
         ∧ AsyncDebounce (_debounce_interval S) None ∈ effs).
Proof.
  split.
  - intros S val ck vl vs lv Hl Hs Hlv.
    rewrite (_handle_new_val_run S val ck vl vs Hl Hs).
    rewrite Hlv. simpl.
    eexists _, _, _, _, _, _. split; [reflexivity|].
    split_and!; [reflexivity|reflexivity|apply lookup_insert_eq| |].
    + intros j. apply lookup_merged.
    + intros k Hk. by rewrite lookup_insert_ne.
  - intros S v k f val lv sv vl vs Hst Hl Hs Hxk Hkey Hlv Hsv Hvf Hne.
    assert (state S ≠ "closed") as Hst' by (rewrite Hst; done).
    destruct (_update_all_tables S v vl vs Hst' Hl Hs)
      as (S' & effs & vl' & vs' & ck & c & Hm & Hrun & Hl' & Hs' & _ & _ & _ & Hsave).
    unfold merge_tables in Hm.
    pose proof (loop_edit_inv (_key S) v k val f (lv !! f) (sv !! f) vl vs
      (map_to_list vl).*1 Hxk Hkey Hvf Hne) as H1.
    destruct (foldl (local_step _ _) _ _) as [[[vl1 vs1] ck1] c1].
    destruct H1 as ((l1 & Hl1 & Hl1f) & (s1 & Hs1 & Hs1f) & Hc1); [eauto..|].
    pose proof (loop_added_inv vl1 ck1
      (map_to_list (snapshot_object (_key S) v))) as H2.
    destruct (foldl added_step _ _) as [vl2 ck2].
    destruct H2 as (_ & _ & Hold & _).
    injection Hm as <- <- <- <-.
    assert (c1 = true) as ->.
    { apply Hc1. apply list_elem_of_fmap. exists (KString k, lv).
      split; [done|]. by apply elem_of_map_to_list. }
    assert (∃ sv', (if decide (ck2 ≠ []) then fromJS (snapshot_object (_key S) v)
                    else vs1) !! KString k = Some sv' ∧ sv' !! f = sv !! f)
      as (sv' & Hsv' & Hsv'f).
    { case_decide; [|eauto]. exists val.
      by rewrite lookup_fromJS_string. }
    eexists S', effs, vl2, _, l1, sv'.
    split_and!; [done..| | | | | |by apply Hsave].
    + rewrite Hold by eauto. done.
    + done.
    + done.
    + done.
    + intros ->. congruence.
Qed.

(** * What a call of [_update_change] does *)

(** The tables, [changed_keys] and [conflict] of [_update_change] before it
    notifies (lines 1247-1262). *)
Definition change_tables (key_of : option record → jskey) (c : change)
    (vl vs : table_map) : merge_state :=
  let '(vl1, vs1, ck1, cf) :=
    match new_val c with
    | Some val =>
        let k := key_of (Some val) in
        let m := handled val (vl !! k) (vs !! k) in
        (<[k:=m]> vl, <[k:=val]> vs,
         if decide (vl !! k = Some m) then [] else [k],
         bool_decide (m ≠ val))
    | None => (vl, vs, [], false)
    end in
  if decide (is_Some (old_val c) ∧ key_of (old_val c) ≠ key_of (new_val c))
  then (delete (key_of (old_val c)) vl1, delete (key_of (old_val c)) vs1,
        ck1 ++ [key_of (old_val c)], cf)
  else (vl1, vs1, ck1, cf).

(** The conflict that [_update_change] reports. *)
Definition change_conflicts (key_of : option record → jskey) (c : change)
    (vl vs : table_map) : list effect :=
  match new_val c with
  | Some val =>
      let k := key_of (Some val) in
      let m := handled val (vl !! k) (vs !! k) in
      if decide (m = val) then [] else [Emit (Ev_conflict val m)]
  | None => []
  end.

Lemma _update_change_delete_run S c ck vl vs :
  _update_change_delete c ck (with_tables vl vs S) =
    if decide (is_Some (old_val c) ∧ _key S (old_val c) ≠ _key S (new_val c))
    then (with_tables (delete (_key S (old_val c)) vl)
            (delete (_key S (old_val c)) vs) S,
          [], Ret (ck ++ [_key S (old_val c)]))
    else (with_tables vl vs S, [], Ret ck).
Proof.
  unfold _update_change_delete. rewrite bind_get.
  change (_key (with_tables vl vs S)) with (_key S).
  case_decide; reflexivity.
Qed.

Lemma _update_change_notify_run S ck (cf : bool) :
  ∃ (S2 : SyncTable) (ee : list effect) (S' : SyncTable) (es : list effect),
    (if decide (ck ≠ []) then
       emit_change ck S = (S2, ee, Ret tt)
       ∧ (if cf then save None S2 = (S', es, Ret tt) else S' = S2 ∧ es = [])
     else S' = S ∧ ee = [] ∧ es = [])
    ∧ _update_change_notify ck cf S = (S', ee ++ es, Ret tt).
Proof.
  unfold _update_change_notify. case_decide.
  - destruct (emit_change_same_tables ck S) as (S2 & ee & Hem & _).
    rewrite (bind_run _ _ _ _ _ _ Hem). destruct cf.
    + destruct (save_None_same_tables S2) as (S3 & es & Hsave & _).
      rewrite Hsave. by eexists S2, ee, S3, es.
    + eexists S2, ee, S2, (@nil effect). done.
  - eexists S, (@nil effect), S, (@nil effect). done.
Qed.

Lemma _update_change_tables S c vl vs :
  state S ≠ "closed" →
  ∃ vl' vs' ck cf S2 ee S' es,
    change_tables (_key S) c vl vs = (vl', vs', ck, cf)
    ∧ (if decide (ck ≠ []) then
         emit_change ck (with_tables vl' vs' S) = (S2, ee, Ret tt)
         ∧ (if cf then save None S2 = (S', es, Ret tt) else S' = S2 ∧ es = [])
       else S' = with_tables vl' vs' S ∧ ee = [] ∧ es = [])
    ∧ _update_change c (with_tables vl vs S) =
        (S', Emit Ev_before_change :: change_conflicts (_key S) c vl vs ++ ee ++ es,
         Ret tt).
Proof.
  intros Hst. unfold _update_change.
  rewrite bind_get, decide_False by done.
  rewrite !bind_get. cbn [value_local value_server with_tables
    set_value_local set_value_server].
  unfold emit at 1. rewrite bind_perform.
  unfold change_tables, change_conflicts.
  destruct (new_val c) as [val|] eqn:Hnv.
  - rewrite (bind_run _ _ _ _ _ _ (_handle_new_val_tables S val [] vl vs)).
    cbn beta iota zeta.
    unfold bind at 1. rewrite _update_change_delete_run, Hnv.
    set (vl1 := <[_ := _]> vl). set (vs1 := <[_ := _]> vs).
    set (ck1 := if decide (vl !! _ = _) then _ else _).
    set (cf := bool_decide _).
    case_decide.
    + destruct (_update_change_notify_run
        (with_tables (delete (_key S (old_val c)) vl1)
           (delete (_key S (old_val c)) vs1) S)
        (ck1 ++ [_key S (old_val c)]) cf) as (S2 & ee & S' & es & Hcase & Hrun).
      rewrite Hrun. eexists _, _, _, _, S2, ee, S', es.
      split; [reflexivity|]. split; [exact Hcase|]. by rewrite app_nil_l.
    + destruct (_update_change_notify_run (with_tables vl1 vs1 S) ck1 cf)
        as (S2 & ee & S' & es & Hcase & Hrun).
      rewrite Hrun. eexists _, _, _, _, S2, ee, S', es.
      split; [reflexivity|]. split; [exact Hcase|]. by rewrite app_nil_l.
  - rewrite bind_ret.
    unfold bind at 1. rewrite _update_change_delete_run, Hnv.
    case_decide.
    + destruct (_update_change_notify_run
        (with_tables (delete (_key S (old_val c)) vl)
           (delete (_key S (old_val c)) vs) S)
        ([] ++ [_key S (old_val c)]) false) as (S2 & ee & S' & es & Hcase & Hrun).
      rewrite Hrun. eexists _, _, _, _, S2, ee, S', es.
      split; [reflexivity|]. split; [exact Hcase|]. reflexivity.
    + destruct (_update_change_notify_run (with_tables vl vs S) [] false)
        as (S2 & ee & S' & es & Hcase & Hrun).
      rewrite Hrun. eexists _, _, _, _, S2, ee, S', es.
      split; [reflexivity|]. split; [exact Hcase|]. reflexivity.
Qed.

(** * Deletion through the changefeed *)

Lemma mark_changed_keeps acc ks s :
  s ∈ acc → s ∈ foldl mark_changed acc ks.
Proof.
  revert acc. induction ks as [|k ks IH]; intros acc Hs; [done|].
  simpl. apply IH. unfold mark_changed. case_decide; [done|].
  apply elem_of_app. by left.
Qed.

Lemma mark_changed_adds acc ks k :
  k ∈ ks → prop_name k ∈ foldl mark_changed acc ks.
Proof.
  revert acc. induction ks as [|k' ks IH]; intros acc Hk.
  - by apply not_elem_of_nil in Hk.
  - apply elem_of_cons in Hk as [->|Hk]; [|by apply IH].
    simpl. apply mark_changed_keeps. unfold mark_changed.
    case_decide; [done|]. apply elem_of_app. right. by left.
Qed.

(** A key handed to [emit_change] is in the change notification emitted
    at once, or, with throttling, is held for the flush of the armed
    timer. *)
Lemma emit_change_notifies ks S S2 ee key :
  key ∈ ks →
  emit_change ks S = (S2, ee, Ret tt) →
  (immediate S → ∃ ks', Emit (Ev_change ks') ∈ ee ∧ key ∈ ks')
  ∧ (¬ immediate S →
       (∃ ks', Emit (Ev_change ks') ∈ ee ∧ KString (prop_name key) ∈ ks')
       ∨ throttle_timeout S2 = true ∧ prop_name key ∈ all_changed_keys S2).
Proof.
  intros Hkey Hem. split.
  - intros Hi. rewrite emit_change_immediate in Hem by done.
    injection Hem as <- <-. exists ks. split; [by left|done].
  - intros Hi. destruct (throttle_changes S) as [wait|] eqn:Htc;
      [|by destruct Hi; left].
    assert (wait ≠ 0) as Hw by (intros ->; by destruct Hi; right).
    rewrite (emit_change_throttled _ _ wait) in Hem by done.
    rewrite throttled_do_emit_changes_run in Hem. simpl in Hem.
    pose proof (mark_changed_adds (all_changed_keys S) ks key Hkey) as Hin.
    case_decide.
    + injection Hem as <- <-. left. eexists. split.
      * apply elem_of_app. right. by left.
      * apply list_elem_of_fmap. by eexists.
    + destruct (throttle_timeout S) eqn:Ht; injection Hem as <- <-;
        right; simpl; by rewrite ?Ht.
Qed.

Lemma save_None_emitter S S' es :
  save None S = (S', es, Ret tt) →
  throttle_timeout S' = throttle_timeout S
  ∧ all_changed_keys S' = all_changed_keys S.
Proof.
  unfold save. rewrite bind_get.
  case_decide; [by intros [= <- <-]|].
  case_decide; [by intros [= <- <-]|].
  rewrite bind_put, !bind_get. simpl.
  destruct (value_server S), (value_local S); rewrite bind_get;
    by intros [= <- <-].
Qed.

(** C9.  A record of the changefeed whose [old_val] has another key than
    its [new_val] (a delete of the old record): [_update_change] removes the
    old key from [value_local] and from [value_server], whatever the local
    record was, pending edits included, and the old key is in the change
    notification: in the one emitted at once, or, when the throttle defers
    the flush, among the keys held for the armed timer. *)
Theorem key_change_deletes_old_record (S : SyncTable) (c : change)
    (o : record) (vl vs : table_map) :
  state S ≠ "closed" →
  value_local S = Some vl →
  value_server S = Some vs →
  old_val c = Some o →
  _key S (Some o) ≠ _key S (new_val c) →
  ∃ S' effs vl' vs',
    _update_change c S = (S', effs, Ret tt)
    ∧ value_local S' = Some vl' ∧ value_server S' = Some vs'
    ∧ vl' !! _key S (Some o) = None
    ∧ vs' !! _key S (Some o) = None
    ∧ (immediate S →
         ∃ ks, Emit (Ev_change ks) ∈ effs ∧ _key S (Some o) ∈ ks)
    ∧ (¬ immediate S →
         (∃ ks, Emit (Ev_change ks) ∈ effs
                ∧ KString (prop_name (_key S (Some o))) ∈ ks)
         ∨ throttle_timeout S' = true
           ∧ prop_name (_key S (Some o)) ∈ all_changed_keys S').
Proof.
  intros Hst Hl Hs Ho Hne.
  destruct (_update_change_tables S c vl vs Hst)
    as (vl' & vs' & ck & cf & S2 & ee & S' & es & Htab & Hcase & Hrun).
  rewrite (with_tables_id S vl vs Hl Hs) in Hrun.
  unfold change_tables in Htab.
  destruct (match new_val c with Some _ => _ | None => _ end)
    as [[[vl1 vs1] ck1] cf1].
  rewrite Ho in Htab. rewrite decide_True in Htab by eauto.
  injection Htab as <- <- <- <-.
  rewrite decide_True in Hcase by (by destruct ck1).
  destruct Hcase as [Hem Hsave].
  destruct (emit_change_same_tables (ck1 ++ [_key S (Some o)])
    (with_tables (delete (_key S (Some o)) vl1) (delete (_key S (Some o)) vs1) S))
    as (S2' & ee' & Hem' & (Hl2 & Hs2 & _)).
  rewrite Hem in Hem'. injection Hem' as <- <-.
  simpl in Hl2, Hs2.
  destruct (emit_change_notifies _ _ _ _ (_key S (Some o))
    ltac:(apply elem_of_app; right; by left) Hem) as [Himm Hthr].
  assert (value_local S' = value_local S2 ∧ value_server S' = value_server S2
          ∧ throttle_timeout S' = throttle_timeout S2
          ∧ all_changed_keys S' = all_changed_keys S2) as (Hl' & Hs' & Ht' & Ha').
  { destruct cf1.
    - destruct (save_None_same_tables S2) as (S3 & es3 & Hsave3 & (? & ? & _) & _).
      rewrite Hsave in Hsave3. injection Hsave3 as <- <-.
      destruct (save_None_emitter _ _ _ Hsave). done.
    - by destruct Hsave as [-> _]. }
  eexists S', _, (delete (_key S (Some o)) vl1), (delete (_key S (Some o)) vs1).
  split; [exact Hrun|].
  split_and!; [congruence|congruence|apply lookup_delete_eq|apply lookup_delete_eq| |].
  - intros Hi. destruct (Himm Hi) as (ks & Hin & Hk). exists ks.
    split; [|done]. apply list_elem_of_further, elem_of_app. right.
    apply elem_of_app. by left.
  - intros Hi. destruct (Hthr Hi) as [(ks & Hin & Hk)|[Ht Ha]].
    + left. exists ks. split; [|done].
      apply list_elem_of_further, elem_of_app. right.
      apply elem_of_app. by left.
    + right. by rewrite Ht', Ha'.
Qed.

(** * An incremental update against a local edit *)

Definition save_effect (e : effect) : Prop := ∃ i cb, e = AsyncDebounce i cb.

Definition emitter_effect (e : effect) : Prop :=
  change_effect e ∨ e = ClearTimeout ∨ ∃ d, e = SetTimeout d.

Lemma emit_change_effects ks S S2 ee :
  emit_change ks S = (S2, ee, Ret tt) → Forall emitter_effect ee.
Proof.
  destruct (throttle_changes S) as [wait|] eqn:Htc.
  - destruct (decide (wait = 0)) as [->|Hw].
    + rewrite emit_change_immediate by (by right). intros [= <- <-].
      constructor; [|constructor]. left. by eexists.
    + rewrite (emit_change_throttled _ _ wait) by done.
      rewrite throttled_do_emit_changes_run. simpl.
      case_decide; [|destruct (throttle_timeout S)]; intros [= <- <-].
      * apply Forall_app. split.
        -- destruct (throttle_timeout S); [|constructor].
           constructor; [|constructor]. right. by left.
        -- constructor; [|constructor]. left. by eexists.
      * constructor.
      * constructor; [|constructor]. right. right. by eexists.
  - rewrite emit_change_immediate by (by left). intros [= <- <-].
    constructor; [|constructor]. left. by eexists.
Qed.

(** C2, as the code has it.  A record [val] arrives through the
    changefeed for a key whose local record [lv] has an unsaved edit of the
    field [f], and the server's value of [f] in [val] is not the last
    recorded one.  Then the merge takes the server's value: the local record
    becomes [merged val server lv], whose field [f] is the one of [val], and
    the key is reported as changed: the change notification emitted at once
    carries exactly this key, or, when the throttle defers the flush, the
    key is among those held for the armed timer.  A conflict is emitted only when the
    merged record still differs from [val], that is when the local record
    has an edit of a field that the server did not change; its payload is
    [val] and the merged record, never the local value of [f]; the save is
    requested with it.  When the local record agrees with [val] on every
    other field, no conflict is emitted and no save is requested. *)
Theorem changefeed_update_server_value_wins (S : SyncTable) (c : change)
    (val lv : record) (vl vs : table_map) (f : string) :
  state S ≠ "closed" →
  value_local S = Some vl →
  value_server S = Some vs →
  new_val c = Some val →
  ¬ (is_Some (old_val c) ∧ _key S (old_val c) ≠ _key S (Some val)) →
  vl !! _key S (Some val) = Some lv →
  val !! f ≠ field (vs !! _key S (Some val)) f →
  lv !! f ≠ val !! f →
  ∃ S' effs vl' m,
    _update_change c S = (S', effs, Ret tt)
    ∧ m = merged val (vs !! _key S (Some val)) lv
    ∧ value_local S' = Some vl'
    ∧ vl' !! _key S (Some val) = Some m
    ∧ m !! f = val !! f
    ∧ (immediate S → Emit (Ev_change [_key S (Some val)]) ∈ effs)
    ∧ (¬ immediate S →
         (∃ ks, Emit (Ev_change ks) ∈ effs
                ∧ KString (prop_name (_key S (Some val))) ∈ ks)
         ∨ throttle_timeout S' = true
           ∧ prop_name (_key S (Some val)) ∈ all_changed_keys S')
    ∧ (∀ nv ov, Emit (Ev_conflict nv ov) ∈ effs → nv = val ∧ ov = m ∧ m ≠ val)
    ∧ (m ≠ val →
         Emit (Ev_conflict val m) ∈ effs
         ∧ (state S = "connected" →
              AsyncDebounce (_debounce_interval S) None ∈ effs))
    ∧ (m = val → Forall (λ e, ¬ conflict_effect e ∧ ¬ save_effect e) effs)
    ∧ ((∀ j, j ≠ f → lv !! j = val !! j) → m = val).
Proof.
  intros Hst Hl Hs Hnv Hold Hlv Hsf Hlf.
  set (key := _key S (Some val)) in *.
  set (m := merged val (vs !! key) lv).
  assert (m !! f = val !! f) as Hmf.
  { unfold m. rewrite lookup_merged. by rewrite decide_False. }
  destruct (_update_change_tables S c vl vs Hst)
    as (vl' & vs' & ck & cf & S2 & ee & S' & es & Htab & Hcase & Hrun).
  rewrite (with_tables_id S vl vs Hl Hs) in Hrun.
  unfold change_tables in Htab. unfold change_conflicts in Hrun.
  rewrite Hnv in Htab, Hrun. fold key in Htab, Hrun.
  rewrite Hlv in Htab, Hrun. simpl in Htab, Hrun. fold m in Htab, Hrun.
  rewrite decide_False in Htab by done.
  rewrite (decide_False (P := Some lv = Some m)) in Htab
    by (intros [= Heq]; rewrite Heq in Hlf; done).
  injection Htab as <- <- <- <-.
  rewrite decide_True in Hcase by done. destruct Hcase as [Hem Hsave].
  pose proof (emit_change_effects _ _ _ _ Hem) as Hee.
  destruct (emit_change_same_tables [key] (with_tables (<[key:=m]> vl) (<[key:=val]> vs) S))
    as (S2' & ee' & Hem' & (Hl2 & Hs2 & _ & Hst2 & Hd2)).
  rewrite Hem in Hem'. injection Hem' as <- <-. simpl in Hl2, Hs2, Hst2, Hd2.
  assert (Forall (λ e, ¬ conflict_effect e) (ee ++ es)
          ∧ (m = val → Forall (λ e, ¬ save_effect e) (ee ++ es))
          ∧ value_local S' = Some (<[key:=m]> vl)
          ∧ (m ≠ val → state S = "connected" →
               AsyncDebounce (_debounce_interval S) None ∈ es)
          ∧ throttle_timeout S' = throttle_timeout S2
          ∧ all_changed_keys S' = all_changed_keys S2)
    as (Hnoconf & Hnosave & Hl' & Hreq & Ht' & Ha').
  { assert (Forall (λ e, ¬ conflict_effect e) ee) as Hc1.
    { eapply Forall_impl; [exact Hee|].
      intros e [[ks ->]|[->|[d ->]]] (a & b & Heq); discriminate. }
    assert (Forall (λ e, ¬ save_effect e) ee) as Hc2.
    { eapply Forall_impl; [exact Hee|].
      intros e [[ks ->]|[->|[d ->]]] (a & b & Heq); discriminate. }
    destruct (decide (m = val)) as [Heq|Hneq].
    - rewrite bool_decide_eq_false_2 in Hsave by (intros Hx; by apply Hx).
      destruct Hsave as [-> ->]. rewrite app_nil_r. done.
    - rewrite bool_decide_eq_true_2 in Hsave by done.
      destruct (save_None_same_tables S2) as (S3 & es3 & Hsave3 & (Hl3 & _) & _).
      rewrite Hsave in Hsave3. injection Hsave3 as <- <-.
      destruct (save_None_emitter _ _ _ Hsave) as [Ht3 Ha3].
      split_and!; [|done|congruence| |done|done].
      + apply Forall_app. split; [done|].
        unfold save in Hsave. rewrite bind_get in Hsave.
        revert Hsave. unfold save.
        case_decide; [intros [= <- <-]; constructor|].
        case_decide; [intros [= <- <-]; constructor|].
        rewrite bind_put, !bind_get. simpl.
        destruct (value_server S2), (value_local S2); rewrite bind_get;
          intros [= <- <-]; repeat constructor; intros (a & b & Heq);
          discriminate.
      + intros _ Hconn. rewrite <- Hst2 in Hconn.
        rewrite (save_connected None S2 _ _ Hconn Hl2 Hs2) in Hsave.
        injection Hsave as <- <-. rewrite Hd2. by left. }
  eexists S', _, (<[key:=m]> vl), m.
  split; [exact Hrun|].
  destruct (emit_change_notifies [key] _ _ _ key
    ltac:(by apply list_elem_of_singleton) Hem) as [_ Hthr].
  split_and!; [done|done|apply lookup_insert_eq|done| | | | | |].
  - intros Hi. right. apply elem_of_app. right. apply elem_of_app. left.
    rewrite emit_change_immediate in Hem by exact Hi.
    injection Hem as _ <-. by left.
  - intros Hi. destruct (Hthr Hi) as [(ks & Hin & Hk)|[Ht Ha]].
    + left. exists ks. split; [|done].
      right. apply elem_of_app. right. apply elem_of_app. by left.
    + right. by rewrite Ht', Ha'.
  - intros nv ov [Hin|Hin]%elem_of_cons; [discriminate|].
    apply elem_of_app in Hin as [Hin|Hin].
    + case_decide; [by apply not_elem_of_nil in Hin|].
      apply list_elem_of_singleton in Hin. injection Hin as -> ->. done.
    + rewrite Forall_forall in Hnoconf. exfalso.
      apply (Hnoconf _ Hin). by eexists _, _.
  - intros Hneq. rewrite decide_False by done. split.
    + right. by left.
    + intros Hconn. right. right. apply elem_of_app. right. by apply Hreq.
  - intros Heq. rewrite decide_True by done. constructor.
    + split; [intros (a & b & Hx)|intros (a & b & Hx)]; discriminate.
    + simpl. rewrite Forall_forall. intros e He. split.
      * rewrite Forall_forall in Hnoconf. by apply Hnoconf.
      * specialize (Hnosave Heq). rewrite Forall_forall in Hnosave.
        by apply Hnosave.
  - intros Hsame. apply map_eq. intros j.
    destruct (decide (j = f)) as [->|Hj]; [done|].
    unfold m. rewrite lookup_merged.
    destruct (decide (val !! j = field (vs !! key) j)); [by apply Hsame|done].
Qed.

(** * The record written for a changed key *)

(** The condition of lines 973-977 on a field [k] of a changed record. *)
Definition written (set_fields : list string) (required : gset string)
    (c : changed_entry) (k : string) : Prop :=
  k ∈ set_fields
  ∧ is_null (ce_new_val c !! k) = false
  ∧ (k ∈ required ∨ ce_new_val c !! k ≠ field (ce_old_val c) k).

#[global] Instance written_dec set_fields required c k :
  Decision (written set_fields required c k).
Proof. unfold written. apply _. Defined.

Lemma lookup_write_field required c obj k j :
  write_field required c obj k !! j =
    if decide (j = k ∧ is_null (ce_new_val c !! k) = false
               ∧ (k ∈ required ∨ ce_new_val c !! k ≠ field (ce_old_val c) k))
    then ce_new_val c !! k else obj !! j.
Proof.
  unfold write_field.
  destruct (is_null (ce_new_val c !! k)) eqn:Hn.
  - rewrite decide_False; [done|]. intros (_ & ? & _). done.
  - destruct (decide (k ∈ required ∨ _)) as [Hc|Hc].
    + destruct (decide (j = k)) as [->|Hj].
      * rewrite decide_True by done. by rewrite lookup_partial_alter_eq.
      * rewrite decide_False by (intros (? & _); done).
        by rewrite lookup_partial_alter_ne.
    + rewrite decide_False; [done|]. intros (_ & _ & ?). done.
Qed.

Lemma lookup_write_fields required c set_fields : ∀ obj j,
  foldl (write_field required c) obj set_fields !! j =
    if decide (written set_fields required c j) then ce_new_val c !! j
    else obj !! j.
Proof.
  induction set_fields as [|k l IH] using rev_ind; intros obj j.
  - cbn [foldl]. rewrite decide_False; [done|]. intros (H & _).
    by apply not_elem_of_nil in H.
  - rewrite foldl_app. cbn [foldl]. rewrite lookup_write_field, IH.
    unfold written.
    destruct (decide (j = k ∧ _)) as [(-> & Hn & Hc)|Hk].
    + rewrite decide_True; [done|]. split; [|done].
      apply elem_of_app. right. by left.
    + destruct (decide (j ∈ l ∧ _)) as [(Hin & Hn & Hc)|Hl].
      * rewrite decide_True; [done|]. split; [|done].
        apply elem_of_app. by left.
      * rewrite decide_False; [done|].
        intros ([Hin|Hin%list_elem_of_singleton]%elem_of_app & Hn & Hc).
        -- apply Hl. done.
        -- subst j. apply Hk. done.
Qed.

(** The loop of lines 963-968 over the primary keys. *)
Lemma write_key_loop (v : list value) pks : ∀ (i : nat) (obj : record),
  ∃ obj',
    (fix go (pks : list string) (i : nat) (obj : record) :=
       match pks with
       | [] => Ret obj
       | pk :: pks' =>
           match js_index (VList v) i with
           | Throw e => Throw e
           | Ret w => go pks' (S i) (partial_alter (λ _, w) pk obj)
           end
       end) pks i obj = Ret obj'
    ∧ (NoDup pks → ∀ j pk, pks !! j = Some pk → obj' !! pk = v !! (i + j)%nat)
    ∧ (∀ k, k ∉ pks → obj' !! k = obj !! k).
Proof.
  induction pks as [|pk pks IH]; intros i obj.
  - exists obj. split_and!; [done| |done]. intros _ j pk Hj. done.
  - cbn. destruct (IH (S i) (partial_alter (λ _, v !! i) pk obj))
      as (obj' & Hrun & Hin & Hout).
    exists obj'. split_and!; [exact Hrun| |].
    + intros [Hpk Hnd]%NoDup_cons [|j] pk' Hj.
      * injection Hj as <-. rewrite Hout by done.
        rewrite lookup_partial_alter_eq. by rewrite Nat.add_0_r.
      * cbn in Hj. rewrite (Hin Hnd j pk' Hj). f_equal. lia.
    + intros k Hk. apply not_elem_of_cons in Hk as [Hne Hk].
      rewrite Hout by done. by rewrite lookup_partial_alter_ne.
Qed.

(** The loop writes no field but the primary keys, whatever [JSON.parse]
    returned. *)
Lemma write_key_loop_frame (v : value) pks : ∀ (i : nat) (obj obj' : record),
  (fix go (pks : list string) (i : nat) (obj : record) :=
     match pks with
     | [] => Ret obj
     | pk :: pks' =>
         match js_index v i with
         | Throw e => Throw e
         | Ret w => go pks' (S i) (partial_alter (λ _, w) pk obj)
         end
     end) pks i obj = Ret obj' →
  ∀ k, k ∉ pks → obj' !! k = obj !! k.
Proof.
  induction pks as [|pk pks IH]; intros i obj obj' Hrun k Hk.
  - by injection Hrun as <-.
  - cbn in Hrun. destruct (js_index v i) as [w|e]; [|done].
    apply not_elem_of_cons in Hk as [Hne Hk].
    rewrite (IH _ _ _ Hrun k Hk). by rewrite lookup_partial_alter_ne.
Qed.

(** The object with which the record to write starts has the primary-key
    fields and no other. *)
Lemma write_key_frame JSON_parse pks key obj0 :
  write_key JSON_parse pks key = Ret obj0 →
  ∀ k, k ∉ pks → obj0 !! k = None.
Proof.
  intros Hrun k Hk.
  assert (∀ v,
    (fix go (pks : list string) (i : nat) (obj : record) :=
       match pks with
       | [] => Ret obj
       | pk :: pks' =>
           match js_index v i with
           | Throw e => Throw e
           | Ret w => go pks' (S i) (partial_alter (λ _, w) pk obj)
           end
       end) pks 0%nat ∅ = Ret obj0 → obj0 !! k = None) as Hloop.
  { intros v Hv. by rewrite (write_key_loop_frame v pks _ _ _ Hv k Hk). }
  unfold write_key in Hrun. destruct pks as [|pk [|pk' pks]].
  - destruct (JSON_parse key) as [v|]; [|done]. by apply (Hloop v).
  - injection Hrun as <-. apply lookup_singleton_ne.
    intros ->. apply Hk. by left.
  - destruct (JSON_parse key) as [v|]; [|done]. by apply (Hloop v).
Qed.

(** C7, as the code has it.  The record written for a changed key [key]
    starts from the primary key: for a table with one primary-key field,
    that field with the key as its value; for a compound key, the
    primary-key fields with the components of the array that [JSON.parse]
    makes of the key.  It has no other field at that point.  Then every
    field that may be set, whose local value is not null, and that is
    required or whose local value is not the last known server value, is
    written with its local value, replacing such an entry; no other field
    is touched.  So a field is in the record exactly when it is written by
    this rule or is a primary-key field that the key provides.  When the
    key cannot be unwrapped, nothing is written. *)
Theorem write_record_fields (JSON_parse : string → option value)
    (pks set_fields : list string) (required : gset string)
    (key : string) (c : changed_entry) :
  (∀ pk, pks = [pk] →
     write_key JSON_parse pks key = Ret {[ pk := VStr key ]})
  ∧ (∀ v, length pks ≠ 1%nat → JSON_parse key = Some (VList v) →
       ∃ obj0, write_key JSON_parse pks key = Ret obj0
               ∧ (NoDup pks →
                    ∀ j pk, pks !! j = Some pk → obj0 !! pk = v !! j))
  ∧ (∀ obj0, write_key JSON_parse pks key = Ret obj0 →
       (∀ k, k ∉ pks → obj0 !! k = None)
       ∧ ∃ obj,
           write_record JSON_parse pks set_fields required key c = Ret obj
           ∧ (∀ pk, pks = [pk] → is_Some (obj !! pk))
           ∧ ∀ k, obj !! k =
               if decide (written set_fields required c k)
               then ce_new_val c !! k else obj0 !! k)
  ∧ (∀ e, write_key JSON_parse pks key = Throw e →
       write_record JSON_parse pks set_fields required key c = Throw e).
Proof.
  split_and!.
  - by intros pk ->.
  - intros v Hlen Hparse.
    destruct (write_key_loop v pks 0 ∅) as (obj0 & Hrun & Hin & _).
    exists obj0. split; [|exact Hin].
    unfold write_key. destruct pks as [|pk [|pk' pks]]; [|done|];
      by rewrite Hparse.
  - intros obj0 Hwk. split; [by apply (write_key_frame JSON_parse pks key)|].
    unfold write_record. rewrite Hwk. eexists. split; [reflexivity|].
    split; [|apply lookup_write_fields].
    intros pk ->. injection Hwk as <-. rewrite lookup_write_fields.
    destruct (decide (written _ _ _ _)) as [(_ & Hn & _)|].
    + destruct (ce_new_val c !! pk); [eauto|done].
    + rewrite lookup_singleton_eq. eauto.
  - intros e Hwk. unfold write_record. by rewrite Hwk.
Qed.

(** * Single-flight save *)

Definition is_write (e : effect) : bool :=
  match e with
  | ClientQuerySet _ _ => true
  | _ => false
  end.

(** The number of calls of the transport write among some effects. *)
Definition transport_writes (effs : list effect) : nat :=
  length (filter (λ e, is_write e = true) effs).

Lemma invoke_run err : ∀ c S,
  ∃ S' effs,
    invoke c err S = (S', effs, Ret tt)
    ∧ transport_writes effs = 0%nat
    ∧ state S' = state S.
Proof.
  fix IH 1. intros [n|[c'|]] S.
  - by eexists _, _.
  - simpl. rewrite bind_put.
    destruct (IH c' (set___is_saving false S)) as (S' & effs & -> & ? & ?).
    by eexists _, _.
  - simpl. rewrite bind_put. by eexists _, _.
Qed.

Lemma call_cb_run cb err S :
  ∃ S' effs,
    call_cb cb err S = (S', effs, Ret tt)
    ∧ transport_writes effs = 0%nat
    ∧ state S' = state S.
Proof.
  destruct cb as [c|]; [apply invoke_run|by eexists _, _].
Qed.

(** A call of [__save] writes to the transport at most once, and when it
    does it leaves the instance as it is. *)
Lemma __save_writes JSON_parse cb S S1 e1 o1 :
  __save JSON_parse cb S = (S1, e1, o1) →
  transport_writes e1 = 0%nat
  ∨ transport_writes e1 = 1%nat ∧ S1 = S.
Proof.
  unfold __save. rewrite bind_get.
  assert (∀ err, call_cb cb err S = (S1, e1, o1) → transport_writes e1 = 0%nat)
    as Hcb.
  { intros err Hc. destruct (call_cb_run cb err S) as (S' & effs & Hr & Hw & _).
    rewrite Hr in Hc. by injection Hc as <- <- <-. }
  case_decide; [intros H'; left; by eapply Hcb|].
  rewrite bind_get. destruct (value_server S); [|intros H'; left; by eapply Hcb].
  rewrite bind_get. destruct (value_local S); [|intros H'; left; by eapply Hcb].
  destruct (_client_query S) as [cq|] eqn:Hcq;
    [rewrite (bind_deref_Some _ _ _ _ Hcq)
    |rewrite (bind_deref_None _ _ _ Hcq); intros [= <- <- <-]; by left].
  destruct (cq_set cq); [|intros H'; left; by eapply Hcb].
  rewrite !bind_get.
  destruct (write_records _ _ _ _ _ _) as [objs|e]; [|intros [= <- <- <-]; by left].
  case_decide; [intros H'; left; by eapply Hcb|].
  destruct (_client S) as [u|] eqn:Hc;
    [rewrite (bind_deref_Some _ _ _ _ Hc)
    |rewrite (bind_deref_None _ _ _ Hc); intros [= <- <- <-]; by left].
  rewrite bind_get. intros [= <- <- <-]. by right.
Qed.

(** A call of [_save] that has written to the transport leaves the
    instance saving. *)
Lemma _save_in_flight JSON_parse cb S S1 e1 o1 :
  _save JSON_parse cb S = (S1, e1, o1) →
  (0 < transport_writes e1)%nat →
  __is_saving S1 = true ∧ state S1 ≠ "closed" ∧ transport_writes e1 = 1%nat.
Proof.
  unfold _save. rewrite bind_get.
  assert (∀ err, call_cb cb err S = (S1, e1, o1) → transport_writes e1 = 0%nat)
    as Hcb.
  { intros err Hc. destruct (call_cb_run cb err S) as (S' & effs & Hr & Hw & _).
    rewrite Hr in Hc. by injection Hc as <- <- <-. }
  case_decide as Hst; [intros H' Hw; apply Hcb in H'; lia|].
  rewrite bind_get. destruct (__is_saving S); [intros H' Hw; apply Hcb in H'; lia|].
  rewrite bind_put. intros Hrun Hw.
  destruct (__save_writes _ _ _ _ _ _ Hrun) as [H0|[H1 ->]]; [lia|].
  done.
Qed.

(** C4.  Single-flight save.  First part: on an instance that is saving
    and is not closed, [_save] does nothing but hand "already saving" to its
    callback; it does not call the transport.  Second part: when a call of
    [_save] has written to the transport, the instance is saving, and a
    second call before the write completes adds no write: the two calls
    together have written once. *)
Theorem save_is_single_flight (JSON_parse : string → option value) :
  (∀ (S : SyncTable) (cb : option callback),
     state S ≠ "closed" →
     __is_saving S = true →
     _save JSON_parse cb S = call_cb cb (Some "already saving") S
     ∧ transport_writes (_save JSON_parse cb S).1.2 = 0%nat
     ∧ (∀ n, cb = Some (UserCb n) →
          _save JSON_parse cb S = (S, [Invoke n (Some "already saving")], Ret tt))
     ∧ (cb = None → _save JSON_parse cb S = (S, [], Ret tt)))
  ∧ (∀ (S S1 : SyncTable) (cb1 cb2 : option callback) (e1 : list effect)
       (o1 : outcome unit),
       _save JSON_parse cb1 S = (S1, e1, o1) →
       (0 < transport_writes e1)%nat →
       __is_saving S1 = true
       ∧ _save JSON_parse cb2 S1 = call_cb cb2 (Some "already saving") S1
       ∧ transport_writes (e1 ++ (_save JSON_parse cb2 S1).1.2) = 1%nat).
Proof.
  assert (∀ S cb, state S ≠ "closed" → __is_saving S = true →
            _save JSON_parse cb S = call_cb cb (Some "already saving") S) as Hguard.
  { intros S cb Hst Hsaving. unfold _save.
    rewrite bind_get, decide_False by done. by rewrite bind_get, Hsaving. }
  assert (∀ S cb, state S ≠ "closed" → __is_saving S = true →
            transport_writes (_save JSON_parse cb S).1.2 = 0%nat) as Hnone.
  { intros S cb Hst Hsaving. rewrite Hguard by done.
    destruct (call_cb_run cb (Some "already saving") S) as (S' & effs & -> & Hw & _).
    done. }
  split.
  - intros S cb Hst Hsaving. split_and!; [by apply Hguard|by apply Hnone| |].
    + intros n ->. by rewrite Hguard.
    + intros ->. by rewrite Hguard.
  - intros S S1 cb1 cb2 e1 o1 Hrun Hw.
    destruct (_save_in_flight _ _ _ _ _ _ Hrun Hw) as (Hsaving & Hst & H1).
    split_and!; [done|by apply Hguard|].
    unfold transport_writes in *. rewrite filter_app, length_app.
    rewrite H1. specialize (Hnone S1 cb2 Hst Hsaving).
    unfold transport_writes in Hnone. rewrite Hnone. done.
Qed.

(** * A table of items *)

(** A schema with one table, [items], whose primary key is [id]; users
    may set [id], [f] and [g], and [g] is required. *)
Definition items_schema (tbl : string) : option TableSchema :=
  if decide (tbl = "items") then
    Some {| user_query_get :=
              Some {| get_fields := ["id"; "f"; "g"];
                      get_throttle_changes := None |};
            user_query :=
              Some {| cq_set :=
                        Some {| fields := {[ "id" := RuleValue; "f" := RuleValue;
                                             "g" := RuleValue ]};
                                required_fields := {[ "g" ]} |} |};
            project_query := None;
            anonymous := false;
            primary_keys := ["id"] |}
  else None.

Definition items_stringify (v : value) : string := "null".

Definition items_signature (q : query) (options : option value)
    (debounce_interval : Z) (throttle_changes : option Z) : string :=
  match q with
  | QueryName tbl => tbl +:+ "/" +:+ pretty debounce_interval
  | QueryObject _ => "?"
  end.

Definition items_parse (s : string) : option value := None.

Definition items_mergeDeep (cur changes : record) : record := changes ∪ cur.

(** The instance that the constructor returns for the query ["items"]. *)
Definition items : SyncTable :=
  {| client_is_project := false;
     debounce_interval := 2000;
     throttle_changes := None;
     cache_key := "items/2000";
     table := "items";
     _client_query :=
       Some {| cq_set :=
                 Some {| fields := {[ "id" := RuleValue; "f" := RuleValue;
                                      "g" := RuleValue ]};
                         required_fields := {[ "g" ]} |} |};
     _primary_keys := ["id"];
     _key := make_key items_stringify ["id"];
     _set_fields := ["g"; "id"; "f"];
     _required_set_fields := {[ "g" ]};
     plug := true;
     state := "disconnected";
     changefeed_id := None;
     value_local := None;
     value_server := None;
     __is_saving := false;
     _save_debounce := false;
     _connected_save_cbs := None;
     _reference_count := RcUndefined;
     all_changed_keys := [];
     throttle_previous := 0;
     throttle_timeout := false;
     _state := None;
     _value_local := None;
     _value_server := None;
     _client := None;
     client_query := None;
     _debounce_interval := None;
     _cache_key := None;
     _plug := None;
     now := 0 |}.

Lemma items_constructed :
  new_SyncTable items_stringify items_schema (QueryName "items") false 2000 None
    "items/2000" 0 = Ret items.
Proof. vm_compute. reflexivity. Qed.

(** The record [k] with the value [x] of its field [f]. *)
Definition item (x : string) : record :=
  {[ "id" := VStr "k"; "f" := VStr x ]}.

(** The instance, connected, with the tables given. *)
Definition items_with (vl vs : table_map) : SyncTable :=
  set_value_server (Some vs) (set_value_local (Some vl)
    (set_state "connected" items)).

(** The local record has the unsaved edit [f = "A"]; the last recorded
    server value of [f] is ["C"]. *)
Definition items_edited : SyncTable :=
  items_with {[ KString "k" := item "A" ]} {[ KString "k" := item "C" ]}.

(** Both tables have the record with [f = "C"]. *)
Definition items_synced : SyncTable :=
  items_with {[ KString "k" := item "C" ]} {[ KString "k" := item "C" ]}.

(** * The scenarios on the table of items *)

(** C2, counterexample.  The local record has [f = "A"], unsaved; the last
    recorded server value is ["C"]; the changefeed delivers [f = "B"].
    [_update_change] emits the change of [k] and nothing else: no conflict
    event with [{new_val: B, old_val: A}], no save; the local record now
    has [f = "B"]. *)
Lemma changefeed_update_no_conflict :
  ((_update_change (Change (Some (item "B")) None) items_edited).1.2
     = [Emit Ev_before_change; Emit (Ev_change [KString "k"])])
  ∧ ¬ (Emit (Ev_conflict (item "B") (item "A"))
         ∈ (_update_change (Change (Some (item "B")) None) items_edited).1.2)
  ∧ (value_local (_update_change (Change (Some (item "B")) None) items_edited).1.1
       = Some {[ KString "k" := item "B" ]}).
Proof.
  split; [by vm_compute|]. split; [|by vm_compute].
  assert ((_update_change (Change (Some (item "B")) None) items_edited).1.2
    = [Emit Ev_before_change; Emit (Ev_change [KString "k"])]) as ->
    by (by vm_compute).
  intros [H|[H|H%not_elem_of_nil]%elem_of_cons]%elem_of_cons; done.
Qed.

Lemma changefeed_update_server_value_wins_witness :
  ∃ S' effs vl' m,
    _update_change (Change (Some (item "B")) None) items_edited = (S', effs, Ret tt)
    ∧ m = merged (item "B")
            (({[ KString "k" := item "C" ]} : table_map)
               !! _key items_edited (Some (item "B")))
            (item "A")
    ∧ value_local S' = Some vl'
    ∧ vl' !! _key items_edited (Some (item "B")) = Some m
    ∧ m !! "f" = item "B" !! "f"
    ∧ (immediate items_edited →
         Emit (Ev_change [_key items_edited (Some (item "B"))]) ∈ effs)
    ∧ (¬ immediate items_edited →
         (∃ ks, Emit (Ev_change ks) ∈ effs
                ∧ KString (prop_name (_key items_edited (Some (item "B")))) ∈ ks)
         ∨ throttle_timeout S' = true
           ∧ prop_name (_key items_edited (Some (item "B")))
               ∈ all_changed_keys S')
    ∧ (∀ nv ov, Emit (Ev_conflict nv ov) ∈ effs →
         nv = item "B" ∧ ov = m ∧ m ≠ item "B")
    ∧ (m ≠ item "B" →
         Emit (Ev_conflict (item "B") m) ∈ effs
         ∧ (state items_edited = "connected" →
              AsyncDebounce (_debounce_interval items_edited) None ∈ effs))
    ∧ (m = item "B" → Forall (λ e, ¬ conflict_effect e ∧ ¬ save_effect e) effs)
    ∧ ((∀ j, j ≠ "f" → item "A" !! j = item "B" !! j) → m = item "B").
Proof.
  apply (changefeed_update_server_value_wins items_edited
    (Change (Some (item "B")) None) (item "B") (item "A")
    {[ KString "k" := item "A" ]} {[ KString "k" := item "C" ]} "f").
  - by vm_compute.
  - reflexivity.
  - reflexivity.
  - reflexivity.
  - intros [[? ?] _]. done.
  - by vm_compute.
  - by vm_compute.
  - by vm_compute.
Defined.

Lemma three_way_merge_keeps_local_edits_witness :
  (∃ S' effs changed_keys' c vl' m,
     _handle_new_val (item "C") [] items_edited = (S', effs, Ret (changed_keys', c))
     ∧ value_local S' = Some vl'
     ∧ value_server S' = Some (<[KString "k":=item "C"]> {[ KString "k" := item "C" ]})
     ∧ vl' !! KString "k" = Some m
     ∧ (∀ j, m !! j =
          if decide (item "C" !! j
                     = field (({[ KString "k" := item "C" ]} : table_map)
                                !! KString "k") j)
          then item "A" !! j else item "C" !! j)
     ∧ (∀ k, k ≠ KString "k" →
          vl' !! k = ({[ KString "k" := item "A" ]} : table_map) !! k))
  ∧ (∃ S' effs vl' vs' lv' sv',
       _update_all (Some [item "C"]) items_edited = (S', effs, Ret tt)
       ∧ value_local S' = Some vl' ∧ value_server S' = Some vs'
       ∧ vl' !! KString "k" = Some lv' ∧ lv' !! "f" = item "A" !! "f"
       ∧ vs' !! KString "k" = Some sv' ∧ sv' !! "f" = item "C" !! "f"
       ∧ lv' ≠ sv'
       ∧ AsyncDebounce (_debounce_interval items_edited) None ∈ effs).
Proof.
  split.
  - apply (proj1 three_way_merge_keeps_local_edits items_edited (item "C") []
      {[ KString "k" := item "A" ]} {[ KString "k" := item "C" ]} (item "A"));
      by vm_compute.
  - apply (proj2 three_way_merge_keeps_local_edits items_edited [item "C"]
      "k" "f" (item "C") (item "A") (item "C")
      {[ KString "k" := item "A" ]} {[ KString "k" := item "C" ]});
      by vm_compute.
Defined.

Lemma resync_is_idempotent_witness :
  ∃ S1 e1 S2 e2 c,
    _update_all (Some [item "C"]) items_edited = (S1, e1, Ret tt)
    ∧ _update_all (Some [item "C"]) S1 = (S2, e2, Ret tt)
    ∧ (_update_all_merge (snapshot_object (_key S1) [item "C"]) S1).2
        = Ret ([], false, c)
    ∧ Forall (λ e, ¬ change_effect e) e2
    ∧ value_local S2 = value_local S1
    ∧ value_server S2 = value_server S1.
Proof.
  apply (resync_is_idempotent items_edited [item "C"]).
  - by vm_compute.
  - repeat constructor.
Defined.

Lemma first_connection_notifies_empty_witness :
  ∃ S' effs,
    _update_all (Some []) items = (S', effs, Ret tt)
    ∧ value_local S' = Some ∅ ∧ value_server S' = Some ∅
    ∧ (immediate items → change_lists effs = [[]])
    ∧ (change_lists effs = [[]] ∧ throttle_timeout S' = false
       ∨ change_lists effs = [] ∧ throttle_timeout S' = true
         ∧ ∀ t, change_lists (later (set_now t S')).1.2 = [[]]).
Proof.
  apply (first_connection_notifies_empty items).
  - by vm_compute.
  - by left.
  - reflexivity.
  - reflexivity.
Defined.

Lemma key_change_deletes_old_record_witness :
  ∃ S' effs vl' vs',
    _update_change (Change None (Some (item "C"))) items_edited = (S', effs, Ret tt)
    ∧ value_local S' = Some vl' ∧ value_server S' = Some vs'
    ∧ vl' !! _key items_edited (Some (item "C")) = None
    ∧ vs' !! _key items_edited (Some (item "C")) = None
    ∧ (immediate items_edited →
         ∃ ks, Emit (Ev_change ks) ∈ effs
               ∧ _key items_edited (Some (item "C")) ∈ ks)
    ∧ (¬ immediate items_edited →
         (∃ ks, Emit (Ev_change ks) ∈ effs
                ∧ KString (prop_name (_key items_edited (Some (item "C")))) ∈ ks)
         ∨ throttle_timeout S' = true
           ∧ prop_name (_key items_edited (Some (item "C"))) ∈ all_changed_keys S').
Proof.
  apply (key_change_deletes_old_record items_edited
    (Change None (Some (item "C"))) (item "C")
    {[ KString "k" := item "A" ]} {[ KString "k" := item "C" ]}).
  - by vm_compute.
  - reflexivity.
  - reflexivity.
  - reflexivity.
  - by vm_compute.
Defined.

(** The instance in which the properties that the source reads under a
    second name have the value of the property that the source assigns:
    [_value_local] of [value_local], [_state] of [state], and so on. *)
Definition renamed (S : SyncTable) : SyncTable :=
  {| client_is_project := client_is_project S;
     debounce_interval := debounce_interval S;
     throttle_changes := throttle_changes S;
     cache_key := cache_key S;
     table := table S;
     _client_query := _client_query S;
     _primary_keys := _primary_keys S;
     _key := _key S;
     _set_fields := _set_fields S;
     _required_set_fields := _required_set_fields S;
     plug := plug S;
     state := state S;
     changefeed_id := changefeed_id S;
     value_local := value_local S;
     value_server := value_server S;
     __is_saving := __is_saving S;
     _save_debounce := _save_debounce S;
     _connected_save_cbs := _connected_save_cbs S;
     _reference_count := _reference_count S;
     all_changed_keys := all_changed_keys S;
     throttle_previous := throttle_previous S;
     throttle_timeout := throttle_timeout S;
     _state := Some (state S);
     _value_local := value_local S;
     _value_server := value_server S;
     _client := Some tt;
     client_query := _client_query S;
     _debounce_interval := Some (debounce_interval S);
     _cache_key := Some (cache_key S);
     _plug := if plug S then Some tt else None;
     now := now S |}.

(** The save that is in flight after [_save] has run on the table of items
    with the edit, were the names bound: what the transport write holds for
    its callback. *)
Definition items_closure : save_closure :=
  SaveClosure
    (Some {[ "k" := ChangedEntry (item "A") (Some (item "C")) ]})
    {[ KString "k" := item "A" ]}
    [item "A"]
    (Some (SaveDone (Some (UserCb 0)))).

(** The table of items while that save is in flight. *)
Definition items_in_flight : SyncTable :=
  (_save items_parse (Some (UserCb 0)) (renamed items_edited)).1.1.

(** A further local edit, [f = "A2"], arrives while the save is in flight. *)
Definition items_edited_in_flight : SyncTable :=
  set_value_local (Some {[ KString "k" := item "A2" ]}) items_in_flight.

(** The registry after a first request for the table of items, once the
    instance is connected. *)
Definition items_registry : Registry :=
  {| synctables := {[ "items/2000" := 0%nat ]};
     instances := {[ 0%nat := set__reference_count (RcNum 1) items_synced ]} |}.

(** A first request on the empty registry creates the instance at address
    [0] under the signature of the request, with reference count 1. *)
Lemma sync_table_first_request :
  sync_table items_stringify items_signature items_schema (QueryName "items")
    None false None None None 0 {| synctables := ∅; instances := ∅ |}
  = ({| synctables := {[ "items/2000" := 0%nat ]};
        instances := {[ 0%nat := set__reference_count (RcNum 1) items ]} |},
     [], Ret 0%nat).
Proof. by vm_compute. Qed.

(** With the names bound, [_save] on the table with the edit issues one
    transport write, which holds [items_closure]. *)
Lemma _save_renamed_writes :
  ∃ q, _save items_parse (Some (UserCb 0)) (renamed items_edited)
       = (items_in_flight, [ClientQuerySet q items_closure], Ret tt)
       ∧ __is_saving items_in_flight = true.
Proof. eexists. split; by vm_compute. Qed.

(** With the names bound, a [set] whose merged value is the current local
    value changes nothing, calls back without an error and returns the
    value. *)
Lemma set_unchanged_renamed :
  set items_stringify items_mergeDeep (item "C") MergeUndefined
    (Some (UserCb 0)) (renamed items_synced)
  = (renamed items_synced, [Invoke 0 None], Ret (Some (item "C"))).
Proof. by vm_compute. Qed.

(** C3.  The success of a save does not imply that no unsaved change
    remains.  On the table of items with the unsaved edit, [_save] calls
    back with no error and writes nothing, while the local and the server
    table differ, because [_changes] reads [_value_server] and
    [_value_local], which nothing assigns.  And when a local edit arrives
    while a save is in flight, the callback of the transport write calls
    [_save] again while [__is_saving] is still set: the caller is told
    ["already saving"], no second write is issued, and the local table
    still differs from the snapshot taken at the start of the save. *)
Theorem save_success_with_unsaved_changes :
  _save items_parse (Some (UserCb 0)) items_edited
    = (items_edited, [Invoke 0 None], Ret tt)
  ∧ value_local items_edited ≠ value_server items_edited
  ∧ __save_query_cb items_parse items_closure None items_edited_in_flight
    = (set_value_server (Some {[ KString "k" := item "A" ]})
         (set___is_saving false items_edited_in_flight),
       [Emit (Ev_saved [item "A"]); Invoke 0 (Some "already saving")], Ret tt)
  ∧ value_local items_edited_in_flight ≠ Some (sc_at_start items_closure)
  ∧ transport_writes
      (__save_query_cb items_parse items_closure None items_edited_in_flight).1.2
    = 0%nat.
Proof. split_and!; by vm_compute. Qed.

Lemma save_is_single_flight_witness :
  _save items_parse (Some (UserCb 1)) (set___is_saving true items_edited)
    = (set___is_saving true items_edited,
       [Invoke 1 (Some "already saving")], Ret tt)
  ∧ __is_saving items_in_flight = true
  ∧ _save items_parse (Some (UserCb 1)) items_in_flight
    = call_cb (Some (UserCb 1)) (Some "already saving") items_in_flight
  ∧ transport_writes
      ((_save items_parse (Some (UserCb 0)) (renamed items_edited)).1.2
       ++ (_save items_parse (Some (UserCb 1)) items_in_flight).1.2) = 1%nat.
Proof.
  split.
  - apply (proj1 (save_is_single_flight items_parse)
             (set___is_saving true items_edited) (Some (UserCb 1)));
      [done|reflexivity|reflexivity].
  - apply (proj2 (save_is_single_flight items_parse)
             (renamed items_edited) items_in_flight
             (Some (UserCb 0)) (Some (UserCb 1))
             (_save items_parse (Some (UserCb 0)) (renamed items_edited)).1.2
             (_save items_parse (Some (UserCb 0)) (renamed items_edited)).2).
    + by vm_compute.
    + vm_compute. lia.
Defined.

(** The write record of key ["k"] of the table of items, whose set query
    has the fields [g], [id] and [f] and requires [g]: the primary key [id]
    is written although it is not required and has the value the server has, and
    the required field [g] is not written, since the local record has
    none. *)
Lemma write_record_primary_key_and_required :
  (write_record items_parse (_primary_keys items) (_set_fields items)
     (_required_set_fields items) "k"
     (ChangedEntry (item "A") (Some (<["g" := VStr "G"]> (item "C"))))
   = Ret (item "A"))
  ∧ ("id" ∉ _required_set_fields items)
  ∧ (item "A" !! "id" = <["g" := VStr "G"]> (item "C") !! "id")
  ∧ ("g" ∈ _required_set_fields items)
  ∧ (item "A" !! "g" ≠ <["g" := VStr "G"]> (item "C") !! "g").
Proof. split_and!; by vm_compute. Qed.

(** C8.  A second request with the signature of the cached instance returns
    the same instance with its reference count incremented, but schedules
    no ["connected"] notification although the instance is connected:
    [sync_table] tests [S._state], and the class keeps its state in
    [state]. *)
Theorem sync_table_cached_connected_not_notified :
  sync_table items_stringify items_signature items_schema (QueryName "items")
    None false None None None 0 items_registry
  = ({| synctables := {[ "items/2000" := 0%nat ]};
        instances := {[ 0%nat := set__reference_count (RcNum 2) items_synced ]} |},
     [], Ret 0%nat)
  ∧ state items_synced = "connected"
  ∧ sync_table_tick (set__reference_count (RcNum 2) items_synced) = [].
Proof. split_and!; by vm_compute. Qed.

(** C10.  A [set] whose merged value is the current local value does not
    return: it throws a [TypeError] at [this.client_query.set], before
    the callback is called, since nothing assigns [client_query] (the
    constructor assigns [_client_query]). *)
Theorem set_unchanged_throws :
  set items_stringify items_mergeDeep (item "C") MergeUndefined
    (Some (UserCb 0)) items_synced
  = (items_synced, [], Throw TypeError)
  ∧ value_local items_synced = Some {[ KString "k" := item "C" ]}
  ∧ items_mergeDeep (item "C") (item "C") = item "C".
Proof. split_and!; by vm_compute. Qed.

(** * Running a callback *)

(** Whether running the callback clears [__is_saving]. *)
Definition cb_clears (c : callback) : bool :=
  match c with
  | UserCb _ => false
  | SaveDone _ => true
  end.

(** The caller's callback that the callback ends in. *)
Fixpoint cb_user (c : callback) : option nat :=
  match c with
  | UserCb n => Some n
  | SaveDone (Some c') => cb_user c'
  | SaveDone None => None
  end.

Definition cb_effects (c : option callback) (err : option string)
    : list effect :=
  match c ≫= cb_user with
  | Some n => [Invoke n err]
  | None => []
  end.

Lemma invoke_exact err : ∀ c S,
  invoke c err S =
    (if cb_clears c then set___is_saving false S else S,
     cb_effects (Some c) err, Ret tt).
Proof.
  fix IH 1. intros [n|[c'|]] S; cbn.
  - reflexivity.
  - unfold bind, put. cbn. rewrite IH. cbn.
    by destruct (cb_clears c').
  - reflexivity.
Qed.

Lemma call_cb_exact cb err S :
  call_cb cb err S =
    (if default false (cb_clears <$> cb) then set___is_saving false S else S,
     cb_effects cb err, Ret tt).
Proof. destruct cb as [c|]; [apply invoke_exact|reflexivity]. Qed.

Lemma cb_effects_no_write cb err : transport_writes (cb_effects cb err) = 0%nat.
Proof. unfold cb_effects. by destruct (cb ≫= cb_user). Qed.

(** * Which projects may run *)

(** X1.  [allow_project_to_run] refuses a project exactly when the page is
    on cocalc.com, a positive limit of free projects is reached, and the
    project is known, is neither running nor starting, belongs to no
    course, and has no upgrade that is not zero, no member hosting and no
    license.  So it never refuses a project that is running or starting, of
    a course, upgraded, hosted for members, licensed or unknown. *)
Theorem allow_project_to_run_refused (p : Page) (project_id : string) :
  allow_project_to_run p project_id = Ret false ↔
  ∃ store project,
    projects p = Some store
    ∧ host p = "cocalc.com"
    ∧ 0 < default 0 (max_trial_projects p)
        ≤ default 0 (running_projects_free p)
    ∧ get_state store project_id ≠ Some "running"
    ∧ get_state store project_id ≠ Some "starting"
    ∧ project_map store !! project_id = Some project
    ∧ is_null (project !! "course") = true
    ∧ (∀ u name n, get_total_project_upgrades store project_id = Some u →
         u !! name = Some n → n = 0)
    ∧ truthy_value (member_host project) = false
    ∧ get_site_license_ids store project_id = [].
Proof.
  unfold allow_project_to_run, too_many_free_projects, not_on_cocalc_com.
  split.
  - destruct (bool_decide (host p ≠ "cocalc.com")) eqn:Hh; [done|].
    apply bool_decide_eq_false in Hh. apply dec_stable in Hh.
    destruct (projects p) as [store|]; [|done].
    destruct (decide _) as [|Hst]; [done|].
    destruct (bool_decide (0 < _)) eqn:H0; [|done].
    destruct (bool_decide (_ ≤ _)) eqn:H1; [|done].
    apply bool_decide_eq_true in H0, H1. cbn.
    destruct (project_map store !! project_id) as [project|] eqn:Hp; [|done].
    destruct (is_null (project !! "course")) eqn:Hc; [|done]. cbn.
    destruct (some_upgrade _) eqn:Hu; [done|].
    destruct (truthy_value _) eqn:Hm; [done|].
    destruct (decide _) as [|Hl]; [done|]. intros _.
    exists store, project. split_and!; try done.
    + intros Hs. apply Hst. by left.
    + intros Hs. apply Hst. by right.
    + intros u name n Hu' Hn. rewrite Hu' in Hu. cbn in Hu.
      apply bool_decide_eq_false in Hu.
      destruct (decide (n = 0)) as [|Hne]; [done|]. exfalso. apply Hu.
      apply Exists_exists. exists (name, n). split; [|done].
      by apply elem_of_map_to_list.
    + destruct (get_site_license_ids store project_id); [done|].
      exfalso. apply Hl. cbn. lia.
  - intros (store & project & Hs & Hh & [H0 H1] & Hr & Hst & Hp & Hc & Hu & Hm & Hl).
    rewrite bool_decide_eq_false_2 by (intros ?; done).
    rewrite Hs. rewrite decide_False by (intros [|]; done).
    rewrite !bool_decide_eq_true_2 by done. cbn.
    rewrite Hp, Hc. cbn.
    assert (some_upgrade (get_total_project_upgrades store project_id) = false) as ->.
    { unfold some_upgrade.
      destruct (get_total_project_upgrades _ _) as [u|] eqn:Hg; [|done].
      apply bool_decide_eq_false. intros (kv & Hin & Hne)%Exists_exists.
      destruct kv as [name n]. apply elem_of_map_to_list in Hin.
      apply Hne. cbn. by eapply Hu. }
    rewrite Hm, Hl. by rewrite decide_False by (cbn; lia).
Qed.

(** X2.  A limit of free projects that is unset, zero or negative, or that
    the number of running free projects has not reached, stops no project:
    [too_many_free_projects] is false and, the store of projects being
    there, [allow_project_to_run] is true for every project. *)
Theorem allow_project_to_run_below_limit (p : Page) (project_id : string) :
  is_Some (projects p) →
  default 0 (max_trial_projects p) ≤ 0 ∨
  default 0 (running_projects_free p) < default 0 (max_trial_projects p) →
  too_many_free_projects p = false
  ∧ allow_project_to_run p project_id = Ret true.
Proof.
  intros [store Hs] Hlim.
  assert (too_many_free_projects p = false) as Ht.
  { unfold too_many_free_projects. destruct (not_on_cocalc_com p); [done|].
    destruct Hlim.
    - rewrite bool_decide_eq_false_2 by lia. done.
    - rewrite (bool_decide_eq_false_2 (_ ≤ _)) by lia. by rewrite andb_false_r. }
  split; [done|]. unfold allow_project_to_run.
  destruct (not_on_cocalc_com p); [done|]. rewrite Hs.
  destruct (decide _); [done|]. by rewrite Ht.
Qed.

(** A page of cocalc.com on which [free] free projects run under the limit
    [limit], with one project ["p"], stopped, that has nothing applied. *)
Definition trial_page (free : Z) (limit : option Z) : Page :=
  {| host := "cocalc.com";
     running_projects_free := Some free;
     max_trial_projects := limit;
     projects :=
       Some {| get_state := λ _, Some "opened";
               project_map := {[ "p" := ∅ ]};
               get_total_project_upgrades := λ _, Some {[ "cores" := 0 ]};
               get_site_license_ids := λ _, [] |} |}.

Lemma allow_project_to_run_at_limit :
  allow_project_to_run (trial_page 10 (Some 10)) "p" = Ret false.
Proof. reflexivity. Qed.

Lemma allow_project_to_run_below_limit_witness :
  too_many_free_projects (trial_page 10 None) = false
  ∧ allow_project_to_run (trial_page 10 None) "p" = Ret true.
Proof.
  apply allow_project_to_run_below_limit; [by eexists|left; cbn; lia].
Defined.

(** * The save pipeline: what is dirty and what a write settles *)

Lemma _changes_fold_clean (vs : table_map) l : ∀ acc : gmap string changed_entry,
  (∀ kv, kv ∈ l → vs !! kv.1 = Some kv.2) →
  foldl (λ changed (kv : jskey * record),
           let old_val := vs !! kv.1 in
           if decide (Some kv.2 ≠ old_val)
           then <[prop_name kv.1 := ChangedEntry kv.2 old_val]> changed
           else changed) acc l = acc.
Proof.
  induction l as [|kv l IH]; intros acc Hl; [done|]. cbn.
  rewrite decide_False.
  - apply IH. intros kv' Hin. apply Hl. by right.
  - intros Hne. apply Hne. symmetry. apply Hl. by left.
Qed.

(** X3.  [has_uncommitted_changes] answers false exactly when the two
    tables that it reads are there and equal, and then [_changes] finds no
    changed record: there is nothing for a save to write. *)
Theorem no_uncommitted_changes_nothing_to_save (S : SyncTable) :
  has_uncommitted_changes S = Some false →
  is_Some (_value_server S)
  ∧ _value_local S = _value_server S
  ∧ _changes S = Some ∅.
Proof.
  unfold has_uncommitted_changes, _changes.
  destruct (_value_server S) as [vs|], (_value_local S) as [vl|]; try done.
  intros [= Hb]. apply bool_decide_eq_false in Hb. apply dec_stable in Hb.
  injection Hb as ->. split_and!; [by eexists|done|].
  f_equal. apply _changes_fold_clean.
  intros [k r] Hin. by apply elem_of_map_to_list in Hin.
Qed.

(** The server's table after the loop of lines 1050-1057 over the changed
    records of a save. *)
Definition advanced (changed : list (string * changed_entry))
    (vs : table_map) : table_map :=
  foldl (λ vs kc,
    if decide (vs !! KString kc.1 = ce_old_val kc.2)
    then <[KString kc.1 := ce_new_val kc.2]> vs else vs) vs changed.

Lemma advance_server_step kc vs S :
  advance_server kc tt (set_value_server (Some vs) S) =
    (set_value_server (Some (advanced [kc] vs)) S, [], Ret tt).
Proof.
  unfold advance_server, advanced. cbn [foldl].
  rewrite bind_deref_Some with (a := vs) by done.
  by destruct (decide (vs !! KString kc.1 = ce_old_val kc.2)).
Qed.

Lemma advance_server_run changed : ∀ vs S,
  for_of changed advance_server tt (set_value_server (Some vs) S) =
    (set_value_server (Some (advanced changed vs)) S, [], Ret tt).
Proof.
  induction changed as [|kc l IH]; intros vs S; [done|].
  cbn [for_of]. erewrite bind_run by apply advance_server_step.
  rewrite IH. reflexivity.
Qed.

Lemma lookup_advanced changed : ∀ vs j,
  NoDup changed.*1 →
  advanced changed vs !! j =
    match j with
    | KString k =>
        match (list_to_map changed : gmap string changed_entry) !! k with
        | Some c =>
            if decide (vs !! j = ce_old_val c) then Some (ce_new_val c)
            else vs !! j
        | None => vs !! j
        end
    | _ => vs !! j
    end.
Proof.
  induction changed as [|[k0 c0] l IH]; intros vs j Hnd.
  { cbn. by destruct j. }
  apply NoDup_cons in Hnd as [Hk0 Hnd].
  change (advanced ((k0, c0) :: l) vs) with
    (advanced l (if decide (vs !! KString k0 = ce_old_val c0)
                 then <[KString k0:=ce_new_val c0]> vs else vs)).
  rewrite IH by done. cbn [fst snd list_to_map foldr].
  destruct j as [|k| |]; cbn.
  - by destruct (decide _); [rewrite lookup_insert_ne|].
  - destruct (decide (k = k0)) as [->|Hne].
    + rewrite lookup_insert_eq.
      rewrite (not_elem_of_list_to_map_1 l k0) by done.
      destruct (decide _); [by rewrite lookup_insert_eq|done].
    + rewrite lookup_insert_ne by done.
      assert (∀ m : table_map,
                (if decide (vs !! KString k0 = ce_old_val c0)
                 then <[KString k0:=ce_new_val c0]> vs else vs) = m →
                m !! KString k = vs !! KString k) as Hm.
      { intros m <-. destruct (decide _); [|done].
        rewrite lookup_insert_ne; [done|]. intros [= ?]. done. }
      rewrite (Hm _ eq_refl). done.
  - by destruct (decide _); [rewrite lookup_insert_ne|].
  - by destruct (decide _); [rewrite lookup_insert_ne|].
Qed.

(** X4.  The transport confirms a write and no local edit has arrived
    since the save began.  Then the callback of the write emits [saved]
    with the objects written, makes each record written the server's record
    where the server's record is still the one that the save compared with,
    leaves every other record of the server and the whole local table as
    they are, and hands no error to the callback of the save. *)
Theorem save_confirmed_advances_server (JSON_parse : string → option value)
    (k : save_closure) (S : SyncTable) (vl vs : table_map) :
  state S ≠ "closed" →
  value_local S = Some vl →
  value_server S = Some vs →
  sc_at_start k = vl →
  ∃ S' vs',
    __save_query_cb JSON_parse k None S =
      (S', Emit (Ev_saved (sc_saved_objs k)) :: cb_effects (sc_cb k) None, Ret tt)
    ∧ value_local S' = Some vl
    ∧ value_server S' = Some vs'
    ∧ state S' = state S
    ∧ (∀ key c, default ∅ (sc_changed k) !! key = Some c →
         vs' !! KString key =
           if decide (vs !! KString key = ce_old_val c)
           then Some (ce_new_val c) else vs !! KString key)
    ∧ (∀ j, (∀ key, j = KString key → default ∅ (sc_changed k) !! key = None) →
         vs' !! j = vs !! j).
Proof.
  intros Hst Hl Hs Hat.
  set (l := map_to_list (default ∅ (sc_changed k))).
  assert (set_value_server (Some vs) S = S) as HS.
  { destruct S. cbn in *. by subst. }
  eexists _, (advanced l vs).
  split.
  { unfold __save_query_cb. cbn [truthy].
    rewrite bind_get, decide_False by done.
    rewrite bind_get, bind_get, Hl, Hs.
    unfold emit. rewrite bind_perform.
    rewrite <- HS at 1.
    erewrite bind_run by apply advance_server_run. cbn beta iota.
    rewrite bind_get. cbn [value_local set_value_server].
    rewrite Hl, Hat, decide_False by (intros Hne; done).
    rewrite call_cb_exact. reflexivity. }
  assert (∀ j, advanced l vs !! j =
    match j with
    | KString key =>
        match default ∅ (sc_changed k) !! key with
        | Some c => if decide (vs !! j = ce_old_val c) then Some (ce_new_val c)
                    else vs !! j
        | None => vs !! j
        end
    | _ => vs !! j
    end) as Hlook.
  { intros j. unfold l. rewrite lookup_advanced by apply NoDup_fst_map_to_list.
    by rewrite list_to_map_to_list. }
  split_and!.
  - by destruct (default false _).
  - by destruct (default false _).
  - by destruct (default false _).
  - intros key c Hc. by rewrite Hlook, Hc.
  - intros j Hj. rewrite Hlook. destruct j as [|key| |]; try done.
    by rewrite (Hj key eq_refl).
Qed.

(** * The flag of the save in flight *)

(** A call of [__save] with the closure of [_save] as its callback, when
    it returns: it has written once to the transport and left the instance
    as it was, or it has not written and has cleared the flag. *)
Lemma __save_flag JSON_parse cb S S' effs :
  __save JSON_parse (Some (SaveDone cb)) S = (S', effs, Ret tt) →
  transport_writes effs = 0%nat ∧ S' = set___is_saving false S
  ∨ transport_writes effs = 1%nat ∧ S' = S.
Proof.
  unfold __save.
  assert (∀ err, call_cb (Some (SaveDone cb)) err S = (S', effs, Ret tt) →
            transport_writes effs = 0%nat ∧ S' = set___is_saving false S) as Hcb.
  { intros err. rewrite call_cb_exact. cbn. intros [= <- <-].
    split; [apply cb_effects_no_write|done]. }
  rewrite bind_get. destruct (decide _); [left; eauto|].
  rewrite bind_get. destruct (value_server S); [|left; eauto].
  rewrite bind_get. destruct (value_local S) as [at_start|]; [|left; eauto].
  destruct (_client_query S) as [cq|] eqn:Hcq.
  2:{ rewrite bind_deref_None by done. done. }
  rewrite bind_deref_Some with (a := cq) by done.
  destruct (cq_set cq); [|left; eauto].
  rewrite !bind_get.
  destruct (write_records _ _ _ _ _) as [saved_objs|e]; [|done].
  destruct (decide _); [left; eauto|].
  destruct (_client S) eqn:Hc.
  2:{ rewrite bind_deref_None by done. done. }
  erewrite bind_deref_Some by done. rewrite bind_get.
  intros [= <- <-]. right. done.
Qed.

(** X5.  A call of [_save] on an instance that is not saving leaves
    [__is_saving] set exactly when it has handed a write to the transport,
    and it hands over at most one: whenever the call returns without a
    write (closed, a table missing, nothing to set or nothing changed) the
    flag is clear again, so that a later save is not turned away.  The
    tables and the state are as they were. *)
Theorem _save_sets_flag_iff_written (JSON_parse : string → option value)
    (cb : option callback) (S S' : SyncTable) (effs : list effect) :
  __is_saving S = false →
  _save JSON_parse cb S = (S', effs, Ret tt) →
  (transport_writes effs ≤ 1)%nat
  ∧ (__is_saving S' = true ↔ transport_writes effs = 1%nat)
  ∧ value_local S' = value_local S
  ∧ value_server S' = value_server S
  ∧ state S' = state S.
Proof.
  intros Hf. unfold _save. rewrite bind_get.
  destruct (decide _).
  { rewrite call_cb_exact. intros [= <- <-].
    rewrite cb_effects_no_write.
    destruct (default false _); cbn; rewrite ?Hf;
      (split_and!; [lia|split; (done || lia)|done..]). }
  rewrite bind_get, Hf.
  erewrite bind_run by reflexivity.
  destruct (__save _ _ _) as [[S1 e1] o1] eqn:Hrun. cbn.
  intros [= -> <- ->].
  destruct (__save_flag _ _ _ _ _ Hrun) as [[-> ->]|[-> ->]]; cbn.
  - split_and!; [lia|split; (done || lia)|done..].
  - split_and!; [lia|done..].
Qed.

Lemma _save_sets_flag_iff_written_witness :
  (transport_writes
     (_save items_parse (Some (UserCb 0)) (renamed items_edited)).1.2 ≤ 1)%nat
  ∧ (__is_saving items_in_flight = true ↔
     transport_writes
       (_save items_parse (Some (UserCb 0)) (renamed items_edited)).1.2 = 1%nat)
  ∧ value_local items_in_flight = value_local (renamed items_edited)
  ∧ value_server items_in_flight = value_server (renamed items_edited)
  ∧ state items_in_flight = state (renamed items_edited).
Proof.
  apply (_save_sets_flag_iff_written items_parse (Some (UserCb 0))).
  - reflexivity.
  - vm_compute. reflexivity.
Defined.

(** * The key of a record, there and back *)

Lemma make_key_values (r : record) pks : ∀ v acc,
  Forall2 (λ pk a, r !! pk = Some a ∧ a ≠ VNull) pks v →
  foldl (λ acc pk,
           match acc with
           | None => None
           | Some v => if is_null (r !! pk) then None
                       else (λ a, v ++ [a]) <$> r !! pk
           end) (Some acc) pks = Some (acc ++ v).
Proof.
  induction pks as [|pk pks IH]; intros v acc Hv.
  - apply Forall2_nil_inv_l in Hv as ->. by rewrite app_nil_r.
  - apply Forall2_cons_inv_l in Hv as (a & v' & [Ha Hn] & Hv' & ->).
    cbn [foldl]. rewrite Ha.
    replace (is_null (Some a)) with false by by destruct a.
    change ((λ a0, acc ++ [a0]) <$> Some a) with (Some (acc ++ [a])).
    rewrite IH with (v := v') by done. by rewrite <- app_assoc.
Qed.

Lemma make_key_compound stringify pks (r : record) v :
  length pks ≠ 1%nat →
  Forall2 (λ pk a, r !! pk = Some a ∧ a ≠ VNull) pks v →
  make_key stringify pks (Some r) = KString (stringify (VList v)).
Proof.
  intros Hlen Hv. unfold make_key.
  destruct pks as [|pk [|pk' pks]]; [|done|].
  - apply Forall2_nil_inv_l in Hv as ->. reflexivity.
  - by rewrite (make_key_values r _ v []).
Qed.

(** X6.  Single primary key.  The key under which a record with the
    string [s] as its primary key is kept is [s], and the record that a
    save writes for that key has [s] as its primary key: written and local
    record have the same key. *)
Theorem written_record_has_key_of_local
    (json_stable_stringify : value → string)
    (JSON_parse : string → option value) (pk : string)
    (set_fields : list string) (required : gset string)
    (r : record) (old : option record) (s : string) :
  r !! pk = Some (VStr s) →
  ∃ obj,
    make_key json_stable_stringify [pk] (Some r) = KString s
    ∧ write_record JSON_parse [pk] set_fields required
        (prop_name (make_key json_stable_stringify [pk] (Some r)))
        (ChangedEntry r old) = Ret obj
    ∧ obj !! pk = Some (VStr s)
    ∧ make_key json_stable_stringify [pk] (Some obj)
      = make_key json_stable_stringify [pk] (Some r).
Proof.
  intros Hr. unfold write_record, make_key. cbn [write_key].
  rewrite Hr. cbn [to_key prop_name]. eexists. split; [done|].
  split; [reflexivity|].
  assert (foldl (write_field required (ChangedEntry r old))
            {[pk := VStr s]} set_fields !! pk = Some (VStr s)) as Hpk.
  { rewrite lookup_write_fields. destruct (decide _); [done|].
    by rewrite lookup_singleton_eq. }
  split; [done|]. by rewrite Hpk.
Qed.

(** X7.  Compound primary key.  When [JSON.parse] gives back the array of
    key values from the string that [json_stable_stringify] makes of it,
    the record that a save writes for the key of a local record has the
    values of that record at every primary-key field, and so the same
    key. *)
Theorem written_record_unwraps_compound_key
    (json_stable_stringify : value → string)
    (JSON_parse : string → option value) (pks : list string)
    (set_fields : list string) (required : gset string)
    (r : record) (old : option record) (v : list value) :
  length pks ≠ 1%nat →
  NoDup pks →
  Forall2 (λ pk a, r !! pk = Some a ∧ a ≠ VNull) pks v →
  JSON_parse (json_stable_stringify (VList v)) = Some (VList v) →
  ∃ obj,
    write_record JSON_parse pks set_fields required
      (prop_name (make_key json_stable_stringify pks (Some r)))
      (ChangedEntry r old) = Ret obj
    ∧ (∀ pk, pk ∈ pks → obj !! pk = r !! pk)
    ∧ make_key json_stable_stringify pks (Some obj)
      = make_key json_stable_stringify pks (Some r).
Proof.
  intros Hlen Hnd Hv Hparse.
  rewrite (make_key_compound _ _ _ _ Hlen Hv). cbn [prop_name].
  destruct (write_key_loop v pks 0 ∅) as (obj0 & Hrun & Hin & _).
  assert (write_key JSON_parse pks (json_stable_stringify (VList v)) = Ret obj0)
    as Hwk.
  { unfold write_key. destruct pks as [|pk [|pk' pks]]; [|done|].
    - by rewrite Hparse.
    - by rewrite Hparse. }
  unfold write_record. rewrite Hwk. eexists. split; [reflexivity|].
  assert (∀ pk, pk ∈ pks →
            foldl (write_field required (ChangedEntry r old)) obj0 set_fields !! pk
            = r !! pk) as Hpk.
  { intros pk (j & Hj)%list_elem_of_lookup.
    rewrite lookup_write_fields. destruct (decide _); [done|].
    rewrite (Hin Hnd j pk Hj). cbn.
    destruct (Forall2_lookup_l _ _ _ _ _ Hv Hj) as (a & Ha & Hra & _).
    by rewrite Ha, Hra. }
  split; [exact Hpk|].
  rewrite (make_key_compound json_stable_stringify pks _ v Hlen); [done|].
  apply Forall2_same_length_lookup. split; [by eapply Forall2_length|].
  intros i pk a Hi Ha.
  destruct (Forall2_lookup_lr _ _ _ _ _ _ Hv Hi Ha) as [Hra Hn].
  split; [|done]. rewrite Hpk; [done|].
  apply list_elem_of_lookup. by exists i.
Qed.

(** * The registry counts its users *)

Lemma new_SyncTable_reference_count stringify SCHEMA q is_project di tc ck t T :
  new_SyncTable stringify SCHEMA q is_project di tc ck t = Ret T →
  _reference_count T = RcUndefined ∧ _state T = None ∧ state T = "disconnected".
Proof.
  unfold new_SyncTable.
  destruct (parse_query SCHEMA q) as [[tbl templates]|]; [|done].
  destruct (SCHEMA tbl) as [sch|]; [|done].
  destruct (head templates), (primary_keys sch); try done.
  all: by intros [= <-].
Qed.

Lemma set__reference_count_same S c :
  _reference_count S = c → set__reference_count c S = S.
Proof. destruct S. cbn. by intros ->. Qed.

(** The registry after [n] requests with the same arguments. *)
Fixpoint requests (stringify : value → string)
    (signature : query → option value → Z → option Z → string)
    (SCHEMA : string → option TableSchema) (q : query)
    (options : option value) (is_project : bool) (di tc : option Z)
    (use_cache : option bool) (t : Z) (n : nat) (R : Registry) : Registry :=
  match n with
  | O => R
  | S n =>
      (sync_table stringify signature SCHEMA q options is_project di tc
         use_cache t
         (requests stringify signature SCHEMA q options is_project di tc
            use_cache t n R)).1.1
  end.

(** X8.  Requests with one signature share one instance and are counted.
    When the registry has no instance for the signature of a request and
    the constructor returns, the first request registers a new instance at
    an address that was free, and after [n + 1] such requests the registry
    holds that instance with the reference count [n + 1], every other
    instance as it was, and a further request returns the same instance
    again. *)
Theorem requests_share_and_count (stringify : value → string)
    (signature : query → option value → Z → option Z → string)
    (SCHEMA : string → option TableSchema) (q : query)
    (options : option value) (is_project : bool) (di tc : option Z)
    (use_cache : option bool) (t : Z) (R : Registry) (T : SyncTable) :
  let sig := signature q options (default 2000 di) tc in
  default true use_cache = true →
  synctables R !! sig = None →
  new_SyncTable stringify SCHEMA q is_project (default 2000 di) tc sig t = Ret T →
  ∃ a,
    instances R !! a = None
    ∧ ∀ n,
        let Rn := requests stringify signature SCHEMA q options is_project
                    di tc use_cache t (S n) R in
        synctables Rn = <[sig := a]> (synctables R)
        ∧ instances Rn
          = <[a := set__reference_count (RcNum (Z.of_nat (S n))) T]> (instances R)
        ∧ (sync_table stringify signature SCHEMA q options is_project
             di tc use_cache t Rn).2 = Ret a.
Proof.
  intros sig Hc Hnone Hnew.
  set (a := fresh (dom (instances R))).
  assert (instances R !! a = None) as Ha.
  { apply not_elem_of_dom. apply is_fresh. }
  exists a. split; [exact Ha|].
  assert (∀ R' c,
    synctables R' = <[sig := a]> (synctables R) →
    instances R' = <[a := set__reference_count (RcNum c) T]> (instances R) →
    sync_table stringify signature SCHEMA q options is_project di tc use_cache t R'
    = ({| synctables := synctables R';
          instances := <[a := set__reference_count (RcNum (c + 1)) T]> (instances R) |},
       [], Ret a)) as Hhit.
  { intros R' c Hs Hi. unfold sync_table. cbv zeta. rewrite Hc. cbn [negb].
    fold sig. rewrite Hs, lookup_insert_eq, Hi, lookup_insert_eq.
    rewrite insert_insert_eq. cbn [_reference_count set__reference_count incr_refcount].
    destruct (new_SyncTable_reference_count _ _ _ _ _ _ _ _ _ Hnew) as (_ & -> & _).
    rewrite decide_False by done. reflexivity. }
  assert (∀ n,
    let Rn := requests stringify signature SCHEMA q options is_project
                di tc use_cache t (S n) R in
    synctables Rn = <[sig := a]> (synctables R)
    ∧ instances Rn
      = <[a := set__reference_count (RcNum (Z.of_nat (S n))) T]> (instances R))
    as Hn.
  { induction n as [|n [IHs IHi]].
    - cbn [requests]. unfold sync_table. cbv zeta. rewrite Hc.
      cbn [negb]. fold sig. rewrite Hnone, Hnew. done.
    - cbv zeta in IHs, IHi. cbv zeta.
      change (requests stringify signature SCHEMA q options is_project di tc
                use_cache t (S (S n)) R)
        with ((sync_table stringify signature SCHEMA q options is_project di tc
                 use_cache t
                 (requests stringify signature SCHEMA q options is_project di tc
                    use_cache t (S n) R)).1.1).
      rewrite (Hhit _ _ IHs IHi). cbn [fst synctables instances].
      split; [done|].
      replace (Z.of_nat (S n) + 1) with (Z.of_nat (S (S n))) by lia. done. }
  intros n. destruct (Hn n) as [Hs Hi]. split_and!; [done..|].
  by rewrite (Hhit _ _ Hs Hi).
Qed.

(** X9.  A request that bypasses the cache gets an instance of its own:
    it is stored at an address that was free, the cache of signatures is
    as it was, and the instance is not reference counted, so that
    [global_cache_decref] reports it as not in use by others. *)
Theorem uncached_request_is_private (stringify : value → string)
    (signature : query → option value → Z → option Z → string)
    (SCHEMA : string → option TableSchema) (q : query)
    (options : option value) (is_project : bool) (di tc : option Z)
    (t : Z) (R : Registry) (T : SyncTable) :
  new_SyncTable stringify SCHEMA q is_project (default 2000 di) tc
    (signature q options (default 2000 di) tc) t = Ret T →
  ∃ a,
    sync_table stringify signature SCHEMA q options is_project di tc
      (Some false) t R
    = ({| synctables := synctables R; instances := <[a := T]> (instances R) |},
       [], Ret a)
    ∧ instances R !! a = None
    ∧ global_cache_decref T = (T, [], Ret false).
Proof.
  intros Hnew. exists (fresh (dom (instances R))). split_and!.
  - unfold sync_table. cbn. by rewrite Hnew.
  - apply not_elem_of_dom. apply is_fresh.
  - unfold global_cache_decref. rewrite bind_get.
    by destruct (new_SyncTable_reference_count _ _ _ _ _ _ _ _ _ Hnew) as (-> & _).
Qed.

(** X10.  [close] is reference counted.  On an instance that is not
    closed and has the reference count [c], [n] calls of [close] with
    [n < c] do nothing but lower the count to [c - n]: no listener is
    removed, nothing is saved or cancelled, and the state and the tables
    are as they were. *)
Theorem close_of_shared_instance_only_counts (JSON_parse : string → option value)
    (fatal : bool) (n : nat) (c : Z) (S : SyncTable) :
  state S ≠ "closed" →
  _reference_count S = RcNum c →
  Z.of_nat n < c →
  for_of (replicate n tt) (λ _ _, close JSON_parse fatal) tt S
  = (set__reference_count (RcNum (c - Z.of_nat n)) S, [], Ret tt).
Proof.
  revert c S. induction n as [|n IH]; intros c S Hst Hc Hn.
  - change (Z.of_nat 0) with 0.
    rewrite Z.sub_0_r, set__reference_count_same by done. reflexivity.
  - cbn [replicate for_of].
    assert (global_cache_decref S
            = (set__reference_count (RcNum (c - 1)) S, [], Ret true)) as Hdec.
    { unfold global_cache_decref. rewrite bind_get, Hc, bind_put.
      rewrite decide_False by lia. reflexivity. }
    assert (close JSON_parse fatal S
            = (set__reference_count (RcNum (c - 1)) S, [], Ret tt)) as Hclose.
    { unfold close. rewrite bind_get, decide_False by done.
      erewrite bind_run by exact Hdec. reflexivity. }
    erewrite bind_run by exact Hclose.
    assert (Z.of_nat n < c - 1) as Hn' by lia.
    rewrite (IH (c - 1) (set__reference_count (RcNum (c - 1)) S) Hst eq_refl Hn').
    replace (c - 1 - Z.of_nat n) with (c - Z.of_nat (Datatypes.S n)) by lia.
    reflexivity.
Qed.

(** * An incremental update, record by record *)

(** The outcome of [_update_change] on an instance that has both tables:
    the tables of [change_tables], and the effects of the emitter [ee] and
    of the save [es] after the conflict. *)
Lemma _update_change_result S c vl vs :
  state S ≠ "closed" →
  value_local S = Some vl →
  value_server S = Some vs →
  ∃ vl' vs' ck cf S' ee es,
    change_tables (_key S) c vl vs = (vl', vs', ck, cf)
    ∧ _update_change c S =
        (S', Emit Ev_before_change :: change_conflicts (_key S) c vl vs ++ ee ++ es,
         Ret tt)
    ∧ value_local S' = Some vl' ∧ value_server S' = Some vs'
    ∧ state S' = state S
    ∧ (ck = [] → ee = [])
    ∧ Forall emitter_effect ee
    ∧ (ck ≠ [] → immediate S → ee = [Emit (Ev_change ck)])
    ∧ (cf = false ∨ ck = [] → es = []).
Proof.
  intros Hst Hl Hs.
  destruct (_update_change_tables S c vl vs Hst)
    as (vl' & vs' & ck & cf & S2 & ee & S' & es & Htab & Hcase & Hrun).
  rewrite (with_tables_id S vl vs Hl Hs) in Hrun.
  exists vl', vs', ck, cf, S', ee, es.
  split; [exact Htab|]. split; [exact Hrun|].
  destruct (decide (ck ≠ [])) as [Hck|Hck].
  - destruct Hcase as [Hem Hsave].
    destruct (emit_change_same_tables ck (with_tables vl' vs' S))
      as (S2' & ee' & Hem' & (Hl2 & Hs2 & _ & Hst2 & _)).
    rewrite Hem in Hem'. injection Hem' as <- <-. cbn in Hl2, Hs2, Hst2.
    assert (value_local S' = value_local S2 ∧ value_server S' = value_server S2
            ∧ state S' = state S2 ∧ (cf = false → es = []))
      as (Hl' & Hs' & Hst' & Hes).
    { destruct cf.
      - destruct (save_None_same_tables S2)
          as (S3 & es3 & Hsave3 & (? & ? & _ & ? & _) & _).
        rewrite Hsave in Hsave3. injection Hsave3 as <- <-. done.
      - by destruct Hsave as [-> ->]. }
    split_and!; [congruence|congruence|congruence|done| | |].
    + by eapply emit_change_effects.
    + intros _ Hi.
      assert (immediate (with_tables vl' vs' S)) as Hi' by exact Hi.
      rewrite (emit_change_immediate _ _ Hi') in Hem. by injection Hem as _ <-.
    + intros [?|?]; [by apply Hes|done].
  - apply dec_stable in Hck. destruct Hcase as (-> & -> & ->).
    split_and!; done.
Qed.

Lemma merged_clean val lv : merged val (Some lv) lv = val.
Proof.
  apply map_eq. intros j. rewrite lookup_merged. cbn.
  by destruct (decide (val !! j = lv !! j)).
Qed.

(** X11.  A record without unsaved edits follows the server.  When the
    local record of the key of an incoming record is the server's last
    recorded one (or there is none in either table), [_update_change]
    makes the incoming record the local and the server's record, reports
    no conflict and requests no save; it announces the key when the record
    has changed and nothing when it has not. *)
Theorem clean_record_follows_server (S : SyncTable) (c : change)
    (val : record) (vl vs : table_map) :
  state S ≠ "closed" →
  value_local S = Some vl →
  value_server S = Some vs →
  new_val c = Some val →
  ¬ (is_Some (old_val c) ∧ _key S (old_val c) ≠ _key S (Some val)) →
  vl !! _key S (Some val) = vs !! _key S (Some val) →
  ∃ S' effs,
    _update_change c S = (S', effs, Ret tt)
    ∧ value_local S' = Some (<[_key S (Some val) := val]> vl)
    ∧ value_server S' = Some (<[_key S (Some val) := val]> vs)
    ∧ Forall (λ e, ¬ conflict_effect e ∧ ¬ save_effect e) effs
    ∧ (vl !! _key S (Some val) = Some val → effs = [Emit Ev_before_change])
    ∧ (vl !! _key S (Some val) ≠ Some val → immediate S →
         effs = [Emit Ev_before_change; Emit (Ev_change [_key S (Some val)])]).
Proof.
  intros Hst Hl Hs Hnv Hold Hclean.
  destruct (_update_change_result S c vl vs Hst Hl Hs)
    as (vl' & vs' & ck & cf & S' & ee & es & Htab & Hrun & Hl' & Hs' & _
        & Hee0 & Hee & Himm & Hes).
  unfold change_tables in Htab. unfold change_conflicts in Hrun.
  rewrite Hnv in Htab, Hrun.
  set (key := _key S (Some val)) in *.
  assert (handled val (vl !! key) (vs !! key) = val) as Hm.
  { rewrite <- Hclean. destruct (vl !! key) as [lv|] eqn:Hlv; [|done].
    cbn. apply merged_clean. }
  rewrite Hm in Htab, Hrun. rewrite decide_True in Hrun by done.
  rewrite bool_decide_eq_false_2 in Htab by (intros Hne; by apply Hne).
  rewrite decide_False in Htab by done.
  injection Htab as <- <- <- <-.
  rewrite (Hes (or_introl eq_refl)) in Hrun. rewrite app_nil_r in Hrun.
  cbn [app] in Hrun.
  exists S', (Emit Ev_before_change :: ee).
  split_and!; [done..| | |].
  - constructor.
    + split; [by intros (? & ? & ?)|by intros (? & ? & ?)].
    + eapply Forall_impl; [exact Hee|]. intros e He. split.
      * intros (a & b & ->). destruct He as [[? ?]|[?|[? ?]]]; done.
      * intros (a & b & ->). destruct He as [[? ?]|[?|[? ?]]]; done.
  - intros Heq. rewrite Hee0; [done|]. by rewrite decide_True.
  - intros Hne Hi. rewrite decide_False in Himm by done.
    rewrite Himm; [done|done|done].
Qed.

(** X12.  An incremental update touches only its own records.
    [_update_change] leaves every record of both tables as it is, except
    the record at the key of [new_val] and, when [old_val] has another
    key, the record at that key; and whatever the local record was, the
    server's record at the key of [new_val] is [new_val] afterwards and a
    local record exists there. *)
Theorem update_change_touches_only_its_keys (S : SyncTable) (c : change)
    (vl vs : table_map) :
  state S ≠ "closed" →
  value_local S = Some vl →
  value_server S = Some vs →
  ∃ S' effs vl' vs',
    _update_change c S = (S', effs, Ret tt)
    ∧ value_local S' = Some vl' ∧ value_server S' = Some vs'
    ∧ (∀ k, (∀ val, new_val c = Some val → k ≠ _key S (Some val)) →
            (∀ o, old_val c = Some o → k ≠ _key S (Some o)) →
            vl' !! k = vl !! k ∧ vs' !! k = vs !! k)
    ∧ (∀ val, new_val c = Some val →
         vs' !! _key S (Some val) = Some val
         ∧ is_Some (vl' !! _key S (Some val))).
Proof.
  intros Hst Hl Hs.
  destruct (_update_change_result S c vl vs Hst Hl Hs)
    as (vl' & vs' & ck & cf & S' & ee & es & Htab & Hrun & Hl' & Hs' & _).
  eexists S', _, vl', vs'. split_and!; [exact Hrun|done|done| |].
  - intros k Hnew Hold. unfold change_tables in Htab.
    destruct (new_val c) as [val|] eqn:Hnv.
    + specialize (Hnew val eq_refl).
      destruct (decide _) as [[[o Ho] Hne]|_] in Htab;
        injection Htab as <- <- <- <-.
      * rewrite Ho in *. specialize (Hold o eq_refl).
        by rewrite !lookup_delete_ne, !lookup_insert_ne.
      * by rewrite !lookup_insert_ne.
    + destruct (decide _) as [[[o Ho] Hne]|_] in Htab;
        injection Htab as <- <- <- <-; [|done].
      rewrite Ho in *. specialize (Hold o eq_refl).
      by rewrite !lookup_delete_ne.
  - intros val Hnv. unfold change_tables in Htab. rewrite Hnv in Htab.
    destruct (decide _) as [[[o Ho] Hne]|_] in Htab;
      injection Htab as <- <- <- <-.
    + rewrite !lookup_delete_ne, !lookup_insert_eq by done. eauto.
    + rewrite !lookup_insert_eq. eauto.
Qed.

(** * A full resync, record by record *)

(** The outcome of [_update_all] on an instance that has both tables: the
    tables of [merge_tables], the conflicts [e1] of the loop, the effects
    [ee] of the emitter and [es] of the save. *)
Lemma _update_all_result S v vl vs :
  state S ≠ "closed" → value_local S = Some vl → value_server S = Some vs →
  ∃ S' vl' vs' ck c e1 ee es,
    merge_tables (_key S) (snapshot_object (_key S) v) vl vs = (vl', vs', ck, c)
    ∧ _update_all (Some v) S
      = (S', Emit Ev_before_change :: e1 ++ ee ++ es, Ret tt)
    ∧ value_local S' = Some vl'
    ∧ value_server S'
      = Some (if decide (ck ≠ []) then fromJS (snapshot_object (_key S) v)
              else vs')
    ∧ (ck ≠ [] → immediate S → ee = [Emit (Ev_change ck)])
    ∧ (c = true → state S = "connected" →
         es = [AsyncDebounce (_debounce_interval S) None]).
Proof.
  intros Hst Hl Hs. set (x := snapshot_object (_key S) v).
  destruct (_update_all_merge_run S x vl vs) as (e1 & Hrun & He1).
  rewrite (with_tables_id S vl vs) in Hrun by done.
  destruct (merge_tables (_key S) x vl vs) as [[[vl' vs'] ck] c] eqn:Hm.
  unfold _update_all. rewrite bind_get, decide_False by done.
  unfold emit at 1. rewrite bind_perform, bind_get. fold x.
  rewrite (bind_run _ _ _ _ _ _ Hrun). cbn beta iota.
  destruct (decide (ck ≠ [])) as [Hck|Hck].
  - destruct (emit_change_same_tables ck
      (set_value_server (Some (fromJS x)) (with_tables vl' vs' S)))
      as (S2 & e2 & Hem & (Hl2 & Hs2 & Hk2 & Hst2 & Hd2)).
    assert (immediate S → e2 = [Emit (Ev_change ck)]) as Himm.
    { intros Hi.
      assert (immediate (set_value_server (Some (fromJS x)) (with_tables vl' vs' S)))
        as Hi' by exact Hi.
      rewrite (emit_change_immediate _ _ Hi') in Hem. by injection Hem as _ <-. }
    rewrite <- (bind_put _ (λ _, emit_change ck)) in Hem.
    rewrite (bind_run _ _ _ _ _ _ Hem). cbn in Hl2, Hs2, Hk2, Hst2, Hd2.
    destruct c.
    + destruct (save_None_same_tables S2)
        as (S3 & e3 & Hsave & (Hl3 & Hs3 & Hk3 & Hst3 & Hd3) & _).
      rewrite Hsave. eexists S3, vl', vs', ck, true, e1, e2, e3.
      split; [done|]. split; [done|]. rewrite decide_True by done.
      split_and!; [congruence|congruence|by intros _| ].
      intros _ Hconn. rewrite <- Hst2 in Hconn.
      rewrite (save_connected None S2 vl' (fromJS x)) in Hsave by done.
      injection Hsave as <- <-. by rewrite Hd2.
    + eexists S2, vl', vs', ck, false, e1, e2, [].
      split; [done|]. split; [reflexivity|].
      rewrite decide_True by done.
      split_and!; [congruence|congruence|by intros _|done].
  - pose proof Hck as Hck'. apply dec_stable in Hck'. subst ck.
    destruct c.
    + destruct (save_None_same_tables (with_tables vl' vs' S))
        as (S3 & e3 & Hsave & (Hl3 & Hs3 & Hk3 & Hst3 & Hd3) & Hne3).
      rewrite bind_ret, Hsave. cbn in Hl3, Hs3, Hk3, Hst3, Hd3.
      eexists S3, vl', vs', [], true, e1, [], e3.
      split; [done|]. split; [done|]. rewrite decide_False by done.
      split_and!; [congruence|congruence|done|].
      intros _ Hconn.
      rewrite (save_connected None _ vl' vs') in Hsave by done.
      by injection Hsave as <- <-.
    + rewrite !bind_ret. eexists _, vl', vs', [], false, e1, [], [].
      split; [done|]. split; [reflexivity|].
      rewrite decide_False by done. split_and!; done.
Qed.

(** The loop over [value_local], seen from a key [K] for which the
    snapshot has no record: once [K] is done its record is deleted and
    reported, if it was the server's, or kept with the conflict flag up. *)
Definition absent_inv (K : jskey) (vl0 vs0 : table_map)
    (done : list jskey) (t : merge_state) : Prop :=
  let '(vl, vs, ck, c) := t in
  vs !! K = vs0 !! K
  ∧ (K ∉ done → vl !! K = vl0 !! K)
  ∧ (K ∈ done →
       if decide (vl0 !! K = vs0 !! K) then vl !! K = None ∧ K ∈ ck
       else vl !! K = vl0 !! K ∧ c = true).

Lemma absent_inv_step key_of x K vl0 vs0 done a t :
  keyed key_of x → x !! prop_name K = None → a ∉ done →
  absent_inv K vl0 vs0 done t →
  absent_inv K vl0 vs0 (done ++ [a]) (local_step key_of x t a).
Proof.
  intros Hkeyed HK Ha. destruct t as [[[vl vs] ck] c].
  intros (Hvs & Hout & Hin). unfold local_step.
  destruct (x !! prop_name a) as [y|] eqn:Hxa.
  - rewrite (Hkeyed _ _ Hxa).
    assert (KString (prop_name a) ≠ K) as Hne.
    { intros <-. cbn in HK. congruence. }
    assert (a ≠ K) as HaK by (intros ->; congruence).
    cbn. rewrite !lookup_insert_ne by done. split_and!; [done| |].
    + intros Hn. apply Hout. intros Hd. apply Hn, elem_of_app. by left.
    + intros [Hd|Hd%list_elem_of_singleton]%elem_of_app; [|done].
      specialize (Hin Hd). destruct (decide (vl0 !! K = vs0 !! K)).
      * destruct Hin as [? Hck]. split; [done|].
        destruct (decide _); [done|]. apply elem_of_app. by left.
      * destruct Hin as [? ->]. split; [done|]. by destruct (bool_decide _).
  - destruct (decide (a = K)) as [->|HaK].
    + rewrite (Hout Ha), Hvs.
      destruct (decide (vl0 !! K = vs0 !! K)) as [Heq|Hneq]; cbn.
      * split_and!; [done| |].
        -- intros Hn. exfalso. apply Hn, elem_of_app. right. by left.
        -- intros _. rewrite decide_True by done.
           rewrite lookup_delete_eq. split; [done|].
           apply elem_of_app. right. by left.
      * split_and!; [done| |].
        -- intros Hn. exfalso. apply Hn, elem_of_app. right. by left.
        -- intros _. rewrite decide_False by done. split; [|done].
           by apply Hout.
    + destruct (decide (vl !! a = vs !! a)); cbn.
      * rewrite lookup_delete_ne by done. split_and!; [done| |].
        -- intros Hn. apply Hout. intros Hd. apply Hn, elem_of_app. by left.
        -- intros [Hd|Hd%list_elem_of_singleton]%elem_of_app; [|done].
           specialize (Hin Hd). destruct (decide (vl0 !! K = vs0 !! K)); [|done].
           destruct Hin as [? Hck]. split; [done|]. apply elem_of_app. by left.
      * split_and!; [done| |].
        -- intros Hn. apply Hout. intros Hd. apply Hn, elem_of_app. by left.
        -- intros [Hd|Hd%list_elem_of_singleton]%elem_of_app; [|done].
           specialize (Hin Hd). destruct (decide (vl0 !! K = vs0 !! K)); [done|].
           by destruct Hin as [? _].
Qed.

Lemma loop_absent_inv key_of x K vl0 vs0 l :
  keyed key_of x → x !! prop_name K = None → NoDup l →
  absent_inv K vl0 vs0 l (foldl (local_step key_of x) (vl0, vs0, [], false) l).
Proof.
  intros Hkeyed HK Hnd.
  apply (foldl_prefix_ind (local_step key_of x) (absent_inv K vl0 vs0)).
  - split_and!; [done|done|]. by intros ?%elem_of_nil.
  - intros done a rest t -> Hinv. apply absent_inv_step; [done..| |done].
    apply NoDup_app in Hnd as (_ & Hdis & _). intros Hd.
    apply (Hdis a Hd). by left.
Qed.

(** The loop over the snapshot adds no record at a key that the snapshot
    does not have, and forgets no changed key. *)
Lemma loop_added_absent (x : js_object) K l : ∀ vl ck,
  x !! prop_name K = None →
  (∀ kv, kv ∈ l → x !! kv.1 = Some kv.2) →
  (foldl added_step (vl, ck) l).1 !! K = vl !! K
  ∧ (∀ k, k ∈ ck → k ∈ (foldl added_step (vl, ck) l).2).
Proof.
  induction l as [|[s y] l IH]; intros vl ck HK Hl; [done|].
  cbn [foldl]. unfold added_step at 2 4. cbn [fst snd].
  assert (KString s ≠ K) as Hne.
  { intros <-. cbn in HK. pose proof (Hl (s, y) ltac:(by left)) as Hsy.
    cbn in Hsy. congruence. }
  assert (∀ kv, kv ∈ l → x !! kv.1 = Some kv.2) as Hl'.
  { intros kv Hin. apply Hl. by right. }
  destruct (vl !! KString s).
  - by apply IH.
  - destruct (IH (<[KString s:=y]> vl) (ck ++ [KString s]) HK Hl') as [H1 H2].
    split.
    + by rewrite H1, lookup_insert_ne.
    + intros k Hk. apply H2, elem_of_app. by left.
Qed.

(** X13.  A local record for which the snapshot of a resync has no record.
    When the local record is the server's last recorded one it is deleted
    from both tables and, without throttling, its key is announced; when it
    differs (created or edited locally and not yet saved) it is kept as it
    is and, the instance being connected, the save is requested. *)
Theorem resync_record_absent_from_snapshot (S : SyncTable) (v : list record)
    (K : jskey) (r : record) (vl vs : table_map) :
  state S ≠ "closed" →
  value_local S = Some vl →
  value_server S = Some vs →
  snapshot_keyed S v →
  snapshot_object (_key S) v !! prop_name K = None →
  vl !! K = Some r →
  ∃ S' effs vl' vs',
    _update_all (Some v) S = (S', effs, Ret tt)
    ∧ value_local S' = Some vl' ∧ value_server S' = Some vs'
    ∧ (vs !! K = Some r →
         vl' !! K = None ∧ vs' !! K = None
         ∧ (immediate S → ∃ ks, Emit (Ev_change ks) ∈ effs ∧ K ∈ ks))
    ∧ (vs !! K ≠ Some r →
         vl' !! K = Some r
         ∧ (state S = "connected" →
              AsyncDebounce (_debounce_interval S) None ∈ effs)).
Proof.
  intros Hst Hl Hs Hkeyed HK Hr.
  set (x := snapshot_object (_key S) v) in *.
  apply snapshot_keyed_object in Hkeyed. fold x in Hkeyed.
  destruct (_update_all_result S v vl vs Hst Hl Hs)
    as (S' & vl' & vs' & ck & c & e1 & ee & es & Hm & Hrun & Hl' & Hs' & Hee & Hes).
  fold x in Hm, Hs'.
  unfold merge_tables in Hm.
  pose proof (loop_absent_inv (_key S) x K vl vs (map_to_list vl).*1 Hkeyed HK
                (NoDup_fst_map_to_list vl)) as Hinv.
  destruct (foldl (local_step _ _) _ _) as [[[vl1 vs1] ck1] c1].
  destruct Hinv as (Hvs1 & _ & Hin).
  assert (K ∈ (map_to_list vl).*1) as HKin.
  { apply list_elem_of_fmap. exists (K, r). split; [done|].
    by apply elem_of_map_to_list. }
  specialize (Hin HKin).
  destruct (loop_added_absent x K (map_to_list x) vl1 ck1 HK) as [Hadd Hmono].
  { intros [s y] Hsy. by apply elem_of_map_to_list in Hsy. }
  destruct (foldl added_step _ _) as [vl2 ck2]. cbn in Hadd, Hmono.
  injection Hm as <- <- <- <-.
  eexists S', _, vl2, _. split; [exact Hrun|]. split; [done|]. split; [done|].
  split.
  - intros Hclean. rewrite decide_True in Hin by congruence.
    destruct Hin as [Hnone Hck]. apply Hmono in Hck.
    assert (ck2 ≠ []) as Hne by (intros ->; by apply elem_of_nil in Hck).
    rewrite decide_True by done.
    split_and!.
    + congruence.
    + by apply lookup_fromJS_None.
    + intros Hi. exists ck2. split; [|done]. rewrite (Hee Hne Hi).
      apply list_elem_of_further, elem_of_app. right. by left.
  - intros Hdirty. rewrite decide_False in Hin by congruence.
    destruct Hin as [Hkeep ->]. split; [congruence|].
    intros Hconn. rewrite (Hes eq_refl Hconn).
    apply list_elem_of_further, elem_of_app. right.
    apply elem_of_app. right. by left.
Qed.

(** The two loops of [_update_all], seen from the key of a record [y] of
    the snapshot for which there was no local record: as soon as a local
    record exists there it is [y], the server's record is [y], and the key
    is among the changed keys. *)
Definition fresh_inv (K : jskey) (y : record) (t : merge_state) : Prop :=
  let '(vl, vs, ck, _) := t in
  vl !! K = None ∨ (vl !! K = Some y ∧ vs !! K = Some y ∧ K ∈ ck).

Lemma fresh_inv_step key_of x s y t a :
  keyed key_of x → x !! s = Some y →
  fresh_inv (KString s) y t →
  fresh_inv (KString s) y (local_step key_of x t a).
Proof.
  intros Hkeyed Hx. destruct t as [[[vl vs] ck] c]. intros Hinv.
  unfold local_step. destruct (x !! prop_name a) as [y'|] eqn:Hxa.
  - rewrite (Hkeyed _ _ Hxa).
    destruct (decide (prop_name a = s)) as [Hs|Hs].
    + rewrite Hs in *. assert (y' = y) as -> by congruence.
      cbn. right. rewrite !lookup_insert_eq.
      destruct Hinv as [Hn|(Hl & Hv & Hck)].
      * rewrite Hn. cbn. split_and!; [done..|].
        rewrite decide_False by done. apply elem_of_app. right. by left.
      * rewrite Hl, Hv. cbn. rewrite merged_clean. split_and!; [done..|].
        by rewrite decide_True.
    + cbn. rewrite !lookup_insert_ne by (intros [= ?]; done).
      destruct Hinv as [Hn|(Hl & Hv & Hck)]; [by left|right].
      split_and!; [done..|]. destruct (decide _); [done|].
      apply elem_of_app. by left.
  - assert (a ≠ KString s) as Hne by (intros ->; cbn in Hxa; congruence).
    destruct (decide (vl !! a = vs !! a)); cbn.
    + rewrite lookup_delete_ne by done.
      destruct Hinv as [Hn|(Hl & Hv & Hck)]; [by left|right].
      split_and!; [done..|]. apply elem_of_app. by left.
    + done.
Qed.

Lemma loop_fresh_inv key_of x s y l : ∀ t,
  keyed key_of x → x !! s = Some y →
  fresh_inv (KString s) y t →
  fresh_inv (KString s) y (foldl (local_step key_of x) t l).
Proof.
  induction l as [|a l IH]; intros t Hkeyed Hx Hinv; [done|].
  cbn [foldl]. apply IH; [done..|]. by apply fresh_inv_step.
Qed.

Lemma added_step_present (vl : table_map) ck s y r :
  vl !! KString s = Some r → added_step (vl, ck) (s, y) = (vl, ck).
Proof. intros H. unfold added_step. cbn. by rewrite H. Qed.

Lemma added_step_absent (vl : table_map) ck s y :
  vl !! KString s = None →
  added_step (vl, ck) (s, y) = (<[KString s:=y]> vl, ck ++ [KString s]).
Proof. intros H. unfold added_step. cbn. by rewrite H. Qed.

Lemma loop_added_keeps s l : ∀ (vl : table_map) ck,
  is_Some (vl !! KString s) →
  is_Some ((foldl added_step (vl, ck) l).1 !! KString s).
Proof.
  induction l as [|[s2 y2] l IH]; intros vl ck Hsome; [done|].
  cbn [foldl]. destruct (vl !! KString s2) eqn:H2.
  - rewrite (added_step_present _ _ _ _ _ H2). by apply IH.
  - rewrite (added_step_absent _ _ _ _ H2). apply IH.
    rewrite lookup_insert_ne; [done|]. intros [= ->].
    rewrite H2 in Hsome. by destruct Hsome.
Qed.

Lemma loop_added_fresh (x : js_object) s y l : ∀ vl ck,
  x !! s = Some y →
  (∀ kv, kv ∈ l → x !! kv.1 = Some kv.2) →
  vl !! KString s = None ∨ (vl !! KString s = Some y ∧ KString s ∈ ck) →
  ((foldl added_step (vl, ck) l).1 !! KString s = None
   ∨ ((foldl added_step (vl, ck) l).1 !! KString s = Some y
      ∧ KString s ∈ (foldl added_step (vl, ck) l).2))
  ∧ ((s, y) ∈ l → is_Some ((foldl added_step (vl, ck) l).1 !! KString s)).
Proof.
  induction l as [|[s' y'] l IH]; intros vl ck Hx Hl Hinv.
  { split; [done|]. by intros ?%elem_of_nil. }
  cbn [foldl].
  assert (∀ kv, kv ∈ l → x !! kv.1 = Some kv.2) as Hl'.
  { intros kv Hin. apply Hl. by right. }
  destruct (vl !! KString s') eqn:Hs'.
  - rewrite (added_step_present _ _ _ _ _ Hs').
    destruct (IH vl ck Hx Hl' Hinv) as [H1 H2]. split; [done|].
    intros [[= -> ->]|Hin]%elem_of_cons; [|by apply H2].
    apply loop_added_keeps. by rewrite Hs'.
  - rewrite (added_step_absent _ _ _ _ Hs').
    destruct (decide (s' = s)) as [->|Hne].
    + pose proof (Hl (s, y') ltac:(by left)) as Hy. cbn in Hy.
      assert (y' = y) as -> by congruence.
      destruct (IH (<[KString s:=y]> vl) (ck ++ [KString s]) Hx Hl') as [H1 H2].
      { right. rewrite lookup_insert_eq. split; [done|].
        apply elem_of_app. right. by left. }
      split; [done|]. intros _. apply loop_added_keeps.
      rewrite lookup_insert_eq. eauto.
    + destruct (IH (<[KString s':=y']> vl) (ck ++ [KString s']) Hx Hl') as [H1 H2].
      { rewrite lookup_insert_ne by (intros [= ?]; done).
        destruct Hinv as [?|[? ?]]; [by left|right]. split; [done|].
        apply elem_of_app. by left. }
      split; [done|].
      intros [[= -> ->]|Hin]%elem_of_cons; [done|by apply H2].
Qed.

(** X14.  A full resync takes in every record of the snapshot.  After
    [_update_all] the server's record at the key of a record [y] of the
    snapshot is [y] and a local record exists at that key; where there was
    no local record before, the local record is [y] as well and, without
    throttling, the key is announced. *)
Theorem resync_adopts_snapshot_records (S : SyncTable) (v : list record)
    (s : string) (y : record) :
  state S ≠ "closed" →
  snapshot_keyed S v →
  snapshot_object (_key S) v !! s = Some y →
  ∃ S' effs vl' vs',
    _update_all (Some v) S = (S', effs, Ret tt)
    ∧ value_local S' = Some vl' ∧ value_server S' = Some vs'
    ∧ vs' !! KString s = Some y
    ∧ is_Some (vl' !! KString s)
    ∧ ((∀ vl, value_local S = Some vl → vl !! KString s = None) →
         vl' !! KString s = Some y
         ∧ (immediate S → ∃ ks, Emit (Ev_change ks) ∈ effs ∧ KString s ∈ ks)).
Proof.
  intros Hst Hv Hx.
  set (x := snapshot_object (_key S) v) in *.
  pose proof (snapshot_keyed_object S v Hv) as Hkeyed. fold x in Hkeyed.
  assert (∀ S' effs,
    _update_all (Some v) S = (S', effs, Ret tt) →
    emit_change (KString <$> keys x) (with_tables (fromJS x) (fromJS x) S)
      = (S', drop 1 effs, Ret tt) →
    effs = Emit Ev_before_change :: drop 1 effs →
    value_local S' = Some (fromJS x) → value_server S' = Some (fromJS x) →
    ∃ S' effs vl' vs',
      _update_all (Some v) S = (S', effs, Ret tt)
      ∧ value_local S' = Some vl' ∧ value_server S' = Some vs'
      ∧ vs' !! KString s = Some y
      ∧ is_Some (vl' !! KString s)
      ∧ ((∀ vl, value_local S = Some vl → vl !! KString s = None) →
           vl' !! KString s = Some y
           ∧ (immediate S → ∃ ks, Emit (Ev_change ks) ∈ effs ∧ KString s ∈ ks)))
    as Hfirst.
  { intros S' effs Hrun Hem Heff Hl' Hs'.
    exists S', effs, (fromJS x), (fromJS x).
    rewrite lookup_fromJS_string, Hx.
    split_and!; [done|done|done|done|eauto|].
    intros _. split; [done|]. intros Hi.
    assert (immediate (with_tables (fromJS x) (fromJS x) S)) as Hi' by exact Hi.
    rewrite (emit_change_immediate _ _ Hi') in Hem.
    exists (KString <$> keys x). split.
    - rewrite Heff. right. injection Hem as _ <-. by left.
    - apply list_elem_of_fmap. exists s. split; [done|].
      apply list_elem_of_fmap. exists (s, y). split; [done|].
      by apply elem_of_map_to_list. }
  destruct (value_local S) as [vl|] eqn:Hl;
    [destruct (value_server S) as [vs|] eqn:Hs|].
  - destruct (_update_all_result S v vl vs Hst Hl Hs)
      as (S' & vl' & vs' & ck & c & e1 & ee & es & Hm & Hrun & Hl' & Hs' & Hee & _).
    fold x in Hm, Hs'.
    pose proof (merge_tables_makes_synced (_key S) x vl vs Hkeyed) as Hsync.
    rewrite Hm in Hsync. destruct Hsync as [Hsync _].
    destruct (Hsync s y Hx) as [Hsome Hsrv].
    eexists S', _, vl', _. split; [exact Hrun|].
    split_and!; [done|done|done|done|].
    intros Hnone. specialize (Hnone vl eq_refl).
    unfold merge_tables in Hm.
    pose proof (loop_fresh_inv (_key S) x s y (map_to_list vl).*1
                  (vl, vs, [], false) Hkeyed Hx (or_introl Hnone)) as Hinv.
    destruct (foldl (local_step _ _) _ _) as [[[vl1 vs1] ck1] c1].
    destruct (loop_added_fresh x s y (map_to_list x) vl1 ck1 Hx) as [Hadd Hin].
    { intros [s' y'] Hsy. by apply elem_of_map_to_list in Hsy. }
    { destruct Hinv as [?|(? & _ & ?)]; [by left|by right]. }
    destruct (foldl added_step _ _) as [vl2 ck2]. cbn in Hadd, Hin.
    injection Hm as <- <- <- <-.
    destruct Hadd as [Hn|[Hy Hck]].
    { rewrite Hn in Hsome. by destruct Hsome. }
    split; [done|]. intros Hi. exists ck2. split; [|done].
    assert (ck2 ≠ []) as Hne by (intros ->; by apply elem_of_nil in Hck).
    rewrite (Hee Hne Hi). apply list_elem_of_further, elem_of_app. right. by left.
  - destruct (_update_all_first S v Hst)
      as (S' & effs & Hrun & Hem & Heff & Hl' & Hs' & _); [by right|].
    by apply (Hfirst S' effs).
  - destruct (_update_all_first S v Hst)
      as (S' & effs & Hrun & Hem & Heff & Hl' & Hs' & _); [by left|].
    by apply (Hfirst S' effs).
Qed.

(** * A closed instance *)

(** X15.  [closed] is final.  On a closed instance a snapshot, a record of
    the changefeed, a message to the callback of the changefeed query and a
    further [close] change nothing and have no effect, and [save], [_save]
    and [set] do nothing but hand ["closed"] to their callback; [set]
    returns undefined. *)
Theorem closed_instance_is_inert (JSON_parse : string → option value)
    (json_stable_stringify : value → string)
    (mergeDeep : record → record → record) (S : SyncTable) :
  state S = "closed" →
  (∀ v, _update_all v S = (S, [], Ret tt))
  ∧ (∀ c, _update_change c S = (S, [], Ret tt))
  ∧ (∀ k err resp,
       _do_the_query_cb JSON_parse k err resp S = (S, [], Ret (k, Returns)))
  ∧ (∀ fatal, close JSON_parse fatal S = (S, [], Ret tt))
  ∧ (∀ cb, save cb S = call_cb cb (Some "closed") S)
  ∧ (∀ cb, _save JSON_parse cb S = call_cb cb (Some "closed") S)
  ∧ (∀ changes merge cb,
       set json_stable_stringify mergeDeep changes merge cb S
       = ((call_cb cb (Some "closed") S).1.1,
          (call_cb cb (Some "closed") S).1.2, Ret None))
  ∧ (∀ cb err,
       state (call_cb cb err S).1.1 = "closed"
       ∧ value_local (call_cb cb err S).1.1 = value_local S
       ∧ value_server (call_cb cb err S).1.1 = value_server S
       ∧ Forall (λ e, ∃ n, e = Invoke n err) (call_cb cb err S).1.2).
Proof.
  intros Hst. split_and!.
  - intros v. unfold _update_all. by rewrite bind_get, decide_True.
  - intros c. unfold _update_change. by rewrite bind_get, decide_True.
  - intros k err resp. unfold _do_the_query_cb.
    by rewrite bind_get, decide_True.
  - intros fatal. unfold close. by rewrite bind_get, decide_True.
  - intros cb. unfold save. by rewrite bind_get, decide_True.
  - intros cb. unfold _save. by rewrite bind_get, decide_True.
  - intros changes merge cb. unfold set. rewrite bind_get, decide_True by done.
    rewrite (bind_run _ _ _ _ _ _ (call_cb_exact cb (Some "closed") S)).
    rewrite call_cb_exact. cbn [fst snd]. unfold ret. by rewrite app_nil_r.
  - intros cb err. rewrite call_cb_exact. cbn [fst snd].
    split_and!; [by destruct (default false _)..|].
    unfold cb_effects. destruct (cb ≫= cb_user); repeat constructor. by eexists.
Qed.

Lemma closed_instance_is_inert_witness :
  _update_change (Change (Some (item "B")) None) (set_state "closed" items_edited)
    = (set_state "closed" items_edited, [], Ret tt)
  ∧ save (Some (UserCb 0)) (set_state "closed" items_edited)
    = (set_state "closed" items_edited, [Invoke 0 (Some "closed")], Ret tt).
Proof.
  destruct (closed_instance_is_inert items_parse items_stringify items_mergeDeep
              (set_state "closed" items_edited) eq_refl)
    as (_ & Hc & _ & _ & Hs & _).
  split; [apply Hc|]. rewrite Hs. reflexivity.
Defined.

(** * The throttle of the emitter *)

Lemma elem_of_mark_changed ks : ∀ acc s,
  s ∈ foldl mark_changed acc ks ↔ s ∈ acc ∨ ∃ k, k ∈ ks ∧ prop_name k = s.
Proof.
  induction ks as [|k ks IH]; intros acc s; cbn [foldl].
  - split; [by left|]. intros [?|(k & Hk & _)]; [done|by apply elem_of_nil in Hk].
  - rewrite IH. unfold mark_changed at 1.
    destruct (decide (prop_name k ∈ acc)) as [Hin|Hin].
    + split.
      * intros [?|(k' & Hk' & <-)]; [by left|right]. exists k'. split; [by right|done].
      * intros [?|(k' & [->|Hk']%elem_of_cons & <-)]; [by left|by left|right].
        by exists k'.
    + rewrite elem_of_app, list_elem_of_singleton. split.
      * intros [[?| ->]|(k' & Hk' & <-)]; [by left|right|right].
        -- exists k. split; [by left|done].
        -- exists k'. split; [by right|done].
      * intros [?|(k' & [->|Hk']%elem_of_cons & <-)];
          [by left; left|by left; right|right]. by exists k'.
Qed.

Lemma NoDup_mark_changed ks : ∀ acc,
  NoDup acc → NoDup (foldl mark_changed acc ks).
Proof.
  induction ks as [|k ks IH]; intros acc Hnd; [done|].
  cbn [foldl]. apply IH. unfold mark_changed.
  destruct (decide (prop_name k ∈ acc)); [done|].
  apply NoDup_app. split_and!; [done| |apply NoDup_singleton].
  intros s Hs ->%list_elem_of_singleton. done.
Qed.

(** X16.  The throttle batches the change notifications.  With a throttle
    of [wait] milliseconds that has been quiet for [wait] or longer,
    [emit_change] announces the names of its keys at once, each once.  A
    second call before [wait]
    has gone by announces nothing and arms one timer for the rest of the
    wait; a third call in that time announces nothing and arms no timer.
    When the timer fires, one notification carries the names of the keys
    of the second and third call, each once, and the throttle is as
    new. *)
Theorem throttled_changes_are_batched (S : SyncTable) (wait t1 t2 t3 : Z)
    (ks0 ks1 ks2 : list jskey) :
  throttle_changes S = Some wait →
  0 < wait →
  all_changed_keys S = [] →
  throttle_timeout S = false →
  throttle_previous S + wait ≤ now S →
  now S ≤ t1 < now S + wait →
  t1 ≤ t2 < now S + wait →
  ∃ S0 S1 S2 S3 names0 names,
    emit_change ks0 S = (S0, [Emit (Ev_change (KString <$> names0))], Ret tt)
    ∧ NoDup names0
    ∧ (∀ s, s ∈ names0 ↔ ∃ k, k ∈ ks0 ∧ prop_name k = s)
    ∧ emit_change ks1 (set_now t1 S0)
      = (S1, [SetTimeout (wait - (t1 - now S))], Ret tt)
    ∧ emit_change ks2 (set_now t2 S1) = (S2, [], Ret tt)
    ∧ later (set_now t3 S2) = (S3, [Emit (Ev_change (KString <$> names))], Ret tt)
    ∧ NoDup names
    ∧ (∀ s, s ∈ names ↔ ∃ k, k ∈ ks1 ++ ks2 ∧ prop_name k = s)
    ∧ all_changed_keys S3 = []
    ∧ throttle_timeout S3 = false
    ∧ throttle_previous S3 = t3.
Proof.
  intros Htc Hw Hacc Hto Hquiet Ht1 Ht2.
  assert (wait ≠ 0) as Hw0 by lia.
  eexists _, _, _, _, (foldl mark_changed [] ks0),
    (foldl mark_changed (foldl mark_changed [] ks1) ks2).
  split_and!.
  - rewrite (emit_change_throttled ks0 S wait Htc Hw0).
    rewrite throttled_do_emit_changes_run. cbn.
    rewrite decide_True by lia. rewrite Hto, Hacc. reflexivity.
  - apply NoDup_mark_changed, NoDup_nil_2.
  - intros s. rewrite elem_of_mark_changed. split.
    + intros [Hn|?]; [by apply elem_of_nil in Hn|done].
    + by right.
  - erewrite emit_change_throttled; [|exact Htc|exact Hw0].
    rewrite throttled_do_emit_changes_run. cbn.
    rewrite decide_False by lia. reflexivity.
  - erewrite emit_change_throttled; [|exact Htc|exact Hw0].
    rewrite throttled_do_emit_changes_run. cbn.
    rewrite decide_False by lia. reflexivity.
  - rewrite later_run. reflexivity.
  - apply NoDup_mark_changed, NoDup_mark_changed, NoDup_nil_2.
  - intros s. rewrite !elem_of_mark_changed. split.
    + intros [[Hn|(k & Hk & <-)]|(k & Hk & <-)].
      * by apply elem_of_nil in Hn.
      * exists k. split; [|done]. apply elem_of_app. by left.
      * exists k. split; [|done]. apply elem_of_app. by right.
    + intros (k & [Hk|Hk]%elem_of_app & <-); [left; right|right]; by exists k.
  - reflexivity.
  - reflexivity.
  - reflexivity.
Qed.

(** * The first response of the changefeed query *)

Lemma truthy_not_fatal err : truthy err = false → is_fatal err = false.
Proof.
  destruct err as [e|]; [|done]. cbn. intros He.
  apply bool_decide_eq_false in He. apply dec_stable in He. by subst e.
Qed.

(** A full resync returns, on an instance that is not closed, with both
    tables defined and the state as it was. *)
Lemma _update_all_returns S v :
  state S ≠ "closed" →
  ∃ S1 e1,
    _update_all (Some v) S = (S1, e1, Ret tt)
    ∧ is_Some (value_local S1) ∧ is_Some (value_server S1)
    ∧ state S1 = state S.
Proof.
  intros Hst.
  destruct (value_local S) as [vl|] eqn:Hl;
    [destruct (value_server S) as [vs|] eqn:Hs|].
  - destruct (_update_all_tables S v vl vs Hst Hl Hs)
      as (S1 & e1 & vl' & vs' & ck & c & _ & Hrun & Hl1 & Hs1 & _ & Hst1 & _).
    exists S1, e1. rewrite Hl1, Hs1. eauto.
  - destruct (_update_all_first S v Hst)
      as (S1 & e1 & Hrun & _ & _ & Hl1 & Hs1 & _ & Hst1); [by right|].
    exists S1, e1. rewrite Hl1, Hs1. eauto.
  - destruct (_update_all_first S v Hst)
      as (S1 & e1 & Hrun & _ & _ & Hl1 & Hs1 & _ & Hst1); [by left|].
    exists S1, e1. rewrite Hl1, Hs1. eauto.
Qed.

(** The loop of lines 513-517 over the pending save callbacks, on a
    connected instance that has both tables. *)
Lemma pending_saves_run cbs : ∀ (acc : option callback) S,
  state S = "connected" →
  is_Some (value_local S) → is_Some (value_server S) →
  for_of cbs (λ (c _ : option callback), save c;; ret c) acc S =
    (if cbs is [] then S else set__save_debounce true S,
     AsyncDebounce (_debounce_interval S) <$> cbs,
     Ret (default acc (last cbs))).
Proof.
  induction cbs as [|c cbs IH]; intros acc S Hst [vl Hl] [vs Hs]; [done|].
  cbn [for_of].
  assert ((save c;; ret c) S
          = (set__save_debounce true S, [AsyncDebounce (_debounce_interval S) c],
             Ret c)) as Hstep.
  { rewrite (bind_run _ _ _ _ _ _ (save_connected c S vl vs Hst Hl Hs)).
    reflexivity. }
  rewrite (bind_run _ _ _ _ _ _ Hstep).
  rewrite IH by (cbn; eauto). cbn [fmap list_fmap app].
  replace (default acc (last (c :: cbs))) with (default c (last cbs))
    by (rewrite last_cons; by destruct (last cbs)).
  by destruct cbs.
Qed.

(** X17.  The first response of the changefeed query, when it carries the
    rows of the table and no error.  The instance records the id of the
    changefeed and becomes connected, the rows go through [_update_all],
    [connected] is emitted with the rows after the effects of that resync,
    then the callback of the query is called without an error, and the save
    callbacks that wait for a connection are each handed to [save] and
    forgotten.  Afterwards both tables are defined. *)
Theorem first_response_connects (JSON_parse : string → option value)
    (k : query_closure) (err : option string) (r : response)
    (rows : list record) (S : SyncTable) :
  state S ≠ "closed" →
  first_resp k = true →
  truthy err = false →
  resp_event r ≠ Some "query_cancel" →
  resp_query r = Some (Some rows) →
  ∃ S1 e1 S',
    _update_all (Some rows) (set_state "connected" (set_changefeed_id (resp_id r) S))
      = (S1, e1, Ret tt)
    ∧ _do_the_query_cb JSON_parse k err (Some r) S
      = (S',
         e1 ++ Emit (Ev_connected (Some rows)) :: cb_effects (qc_cb k) None
            ++ (AsyncDebounce (_debounce_interval S1)
                  <$> default [] (_connected_save_cbs S1)),
         Ret (QueryClosure false (resp_id r)
                (default (qc_cb k) (last (default [] (_connected_save_cbs S1)))),
              Returns))
    ∧ state S' = "connected"
    ∧ value_local S' = value_local S1 ∧ is_Some (value_local S')
    ∧ value_server S' = value_server S1 ∧ is_Some (value_server S')
    ∧ _connected_save_cbs S' = None.
Proof.
  intros Hst Hfirst Herr Hev Hq.
  destruct (_update_all_returns
              (set_state "connected" (set_changefeed_id (resp_id r) S)) rows)
    as (S1 & e1 & Hrun & Hl1 & Hs1 & Hst1); [done|].
  cbn [state set_state] in Hst1.
  set (S2 := if default false (cb_clears <$> qc_cb k)
             then set___is_saving false S1 else S1).
  assert (state S2 = "connected" ∧ value_local S2 = value_local S1
          ∧ value_server S2 = value_server S1
          ∧ _connected_save_cbs S2 = _connected_save_cbs S1
          ∧ _debounce_interval S2 = _debounce_interval S1)
    as (Hst2 & Hl2 & Hs2 & Hcbs2 & Hd2).
  { unfold S2. by destruct (default false _). }
  set (cbs := default [] (_connected_save_cbs S1)).
  exists S1, e1,
    (set__connected_save_cbs None
       (if cbs is [] then S2 else set__save_debounce true S2)).
  split; [exact Hrun|]. split.
  - unfold _do_the_query_cb.
    rewrite bind_get, decide_False by done.
    rewrite (truthy_not_fatal _ Herr), Hfirst.
    rewrite bind_get, decide_False by done.
    cbn [mbind option_bind]. rewrite decide_False by done.
    rewrite Herr. unfold resp_rows. rewrite Hq.
    cbn [default from_option id qc_cb].
    rewrite bind_put, bind_put.
    rewrite (bind_run _ _ _ _ _ _ Hrun).
    unfold emit. rewrite bind_perform.
    rewrite (bind_run _ _ _ _ _ _ (call_cb_exact (qc_cb k) None S1)).
    fold S2. rewrite bind_get, Hcbs2. fold cbs.
    rewrite (bind_run _ _ _ _ _ _
               (pending_saves_run cbs (qc_cb k) S2 Hst2
                  ltac:(by rewrite Hl2) ltac:(by rewrite Hs2))).
    rewrite bind_put. unfold ret. rewrite Hd2.
    by rewrite !app_nil_r.
  - destruct cbs; cbn; rewrite ?Hl2, ?Hs2; split_and!; done.
Qed.

(** X18.  A first response that brings no rows.  When the transport has
    cancelled the query, reports an error that is not fatal, or sends no
    data for the table, the callback of the query receives ["query-cancel"],
    the error, or ["got no data"], in this order of precedence; nothing is
    emitted and the state and the tables are left as they are. *)
Theorem first_response_without_rows (JSON_parse : string → option value)
    (k : query_closure) (err : option string) (resp : option response)
    (S : SyncTable) :
  state S ≠ "closed" →
  first_resp k = true →
  is_fatal err = false →
  resp ≫= resp_event = Some "query_cancel" ∨ truthy err = true
    ∨ resp_rows resp = None →
  let e :=
    if decide (resp ≫= resp_event = Some "query_cancel") then Some "query-cancel"
    else if truthy err then err else Some "got no data" in
  _do_the_query_cb JSON_parse k err resp S
    = ((call_cb (qc_cb k) e S).1.1, cb_effects (qc_cb k) e,
       Ret (QueryClosure false (this_query_id k) (qc_cb k), Returns))
  ∧ state (call_cb (qc_cb k) e S).1.1 = state S
  ∧ value_local (call_cb (qc_cb k) e S).1.1 = value_local S
  ∧ value_server (call_cb (qc_cb k) e S).1.1 = value_server S.
Proof.
  intros Hst Hfirst Hfatal Hcase e.
  split.
  - unfold _do_the_query_cb.
    rewrite bind_get, decide_False by done.
    rewrite Hfatal, Hfirst. rewrite bind_get, decide_False by done.
    subst e. cbn [qc_cb this_query_id].
    destruct (decide (resp ≫= resp_event = Some "query_cancel")).
    { rewrite (bind_run _ _ _ _ _ _ (call_cb_exact _ _ S)).
      rewrite call_cb_exact. cbn [fst snd]. unfold ret. by rewrite app_nil_r. }
    destruct (truthy err) eqn:Herr.
    { rewrite (bind_run _ _ _ _ _ _ (call_cb_exact _ _ S)).
      rewrite call_cb_exact. cbn [fst snd]. unfold ret. by rewrite app_nil_r. }
    destruct Hcase as [?|[?|Hrows]]; [done..|].
    destruct resp as [r|]; [rewrite Hrows|];
      rewrite (bind_run _ _ _ _ _ _ (call_cb_exact _ _ S));
      rewrite call_cb_exact; cbn [fst snd]; unfold ret; by rewrite app_nil_r.
  - rewrite call_cb_exact. cbn [fst snd]. by destruct (default false _).
Qed.

(** * A local write *)

Lemma filter_none {A} (P : A → Prop) `{!∀ x, Decision (P x)} (l : list A) :
  (∀ x, x ∈ l → ¬ P x) → filter P l = [].
Proof.
  induction l as [|a l IH]; intros Hl; [done|].
  rewrite filter_cons_False by (apply Hl; by left).
  apply IH. intros x Hx. apply Hl. by right.
Qed.

Lemma save_exact cb S :
  save cb S =
    if decide (state S = "closed") then call_cb cb (Some "closed") S
    else if decide (state S ≠ "connected")
    then call_cb cb (Some "not connected") S
    else
      match value_server S, value_local S with
      | Some _, Some _ =>
          (set__save_debounce true S,
           [AsyncDebounce (_debounce_interval S) cb], Ret tt)
      | _, _ =>
          (set__connected_save_cbs
             (Some (default [] (_connected_save_cbs S) ++ [cb]))
             (set__save_debounce true S), [], Ret tt)
      end.
Proof.
  unfold save. rewrite bind_get. destruct (decide _); [done|].
  destruct (decide _); [done|].
  rewrite bind_put, !bind_get. cbn [value_server value_local set__save_debounce].
  destruct (value_server S), (value_local S); by rewrite bind_get.
Qed.

(** The callback that [set] uses and the name of its merge (lines
    1379-1384). *)
Definition set_cb (merge : merge_arg) (cb : option callback)
    : option callback :=
  match merge with
  | MergeCallback f => Some f
  | _ => cb
  end.

Definition set_merge (merge : merge_arg) : string :=
  match merge with
  | MergeName s => s
  | _ => "deep"
  end.

(** The value that [set] gives a record (lines 1453-1484). *)
Definition next_value (mergeDeep : record → record → record)
    (merge : string) (cur : option record) (changes : record) : record :=
  match cur with
  | None => changes
  | Some c =>
      if decide (merge = "deep") then mergeDeep c changes
      else if decide (merge = "shallow") then changes ∪ c
      else changes
  end.

Lemma finish_set_run id cur new_val cb S vl :
  state S ≠ "closed" →
  value_local S = Some vl →
  vl !! id = cur →
  ∃ S' effs,
    finish_set id cur new_val cb S = (S', effs, Ret (Some new_val))
    ∧ value_local S' = Some (<[id:=new_val]> vl)
    ∧ value_server S' = value_server S
    ∧ state S' = state S
    ∧ (Some new_val = cur → effs = cb_effects cb None)
    ∧ (Some new_val ≠ cur → immediate S → state S = "connected" →
       is_Some (value_server S) →
         effs = [AsyncDebounce (_debounce_interval S) cb;
                 Emit (Ev_change [id])])
    ∧ (Some new_val ≠ cur → immediate S → state S ≠ "connected" →
         effs = cb_effects cb (Some "not connected") ++ [Emit (Ev_change [id])]).
Proof.
  intros Hst Hl Hcur. unfold finish_set.
  destruct (decide (Some new_val ≠ cur)) as [Hne|Heq].
  - set (S1 := set_value_local (Some (<[id:=new_val]> vl)) S).
    assert (∃ S2 es, save cb S1 = (S2, es, Ret tt)
              ∧ value_local S2 = Some (<[id:=new_val]> vl)
              ∧ value_server S2 = value_server S ∧ state S2 = state S
              ∧ throttle_changes S2 = throttle_changes S
              ∧ (state S = "connected" → is_Some (value_server S) →
                   es = [AsyncDebounce (_debounce_interval S) cb])
              ∧ (state S ≠ "connected" →
                   es = cb_effects cb (Some "not connected")))
      as (S2 & es & Hsave & Hl2 & Hs2 & Hst2 & Htc2 & Hconn & Hdis).
    { rewrite save_exact. cbn [state S1 set_value_local].
      rewrite decide_False by done.
      destruct (decide (state S ≠ "connected")) as [Hn|Hc].
      - rewrite call_cb_exact. eexists _, _. split; [reflexivity|].
        destruct (default false _); cbn; split_and!; done.
      - apply dec_stable in Hc.
        change (value_server S1) with (value_server S).
        change (value_local S1) with (Some (<[id:=new_val]> vl)).
        destruct (value_server S) eqn:Hs.
        + eexists _, _. split; [reflexivity|]. cbn. rewrite Hs.
          split_and!; done.
        + eexists _, _. split; [reflexivity|]. cbn. rewrite Hs.
          split_and!; done. }
    destruct (emit_change_same_tables [id] S2)
      as (S3 & ee & Hem & (Hl3 & Hs3 & _ & Hst3 & _)).
    assert ((vl0 ← deref value_local;
             put (set_value_local (Some (<[id:=new_val]> vl0)));;
             save cb;; emit_change [id]) S = (S3, es ++ ee, Ret tt)) as Hinner.
    { rewrite bind_deref_Some with (a := vl) by done. rewrite bind_put.
      fold S1. rewrite (bind_run _ _ _ _ _ _ Hsave). by rewrite Hem. }
    rewrite (bind_run _ _ _ _ _ _ Hinner). unfold ret. rewrite app_nil_r.
    eexists _, _. split; [reflexivity|].
    split_and!; [congruence|congruence|congruence|done| |].
    + intros _ Hi Hc Hsv. rewrite (Hconn Hc Hsv).
      assert (immediate S2) as Hi2 by (unfold immediate; by rewrite Htc2).
      rewrite (emit_change_immediate _ _ Hi2) in Hem. by injection Hem as _ <-.
    + intros _ Hi Hn. rewrite (Hdis Hn).
      assert (immediate S2) as Hi2 by (unfold immediate; by rewrite Htc2).
      rewrite (emit_change_immediate _ _ Hi2) in Hem. by injection Hem as _ <-.
  - apply dec_stable in Heq.
    rewrite (bind_run _ _ _ _ _ _ (call_cb_exact cb None S)).
    unfold ret. rewrite app_nil_r. eexists _, _. split; [reflexivity|].
    assert (<[id:=new_val]> vl = vl) as ->.
    { apply insert_id. by rewrite Hcur. }
    destruct (default false _); cbn; split_and!; done.
Qed.

(** X19.  What [set] stores, [value_local] gives back.  On an instance
    that is not closed, whose [client_query] allows to set every field of
    [changes], for [changes] with a primary key: [set] returns the next
    value of the record (the changes themselves for a new record that has
    the required fields, else the current record merged with them by the
    strategy named), and afterwards the local table has that value at the
    key and every other record as before; the server's table is as it was.
    When the value is the current one, nothing happens but the call of the
    callback without an error.  When it is new, without throttling, a
    connected instance requests the save with the callback and announces
    the key; an instance that is not connected hands ["not connected"] to
    the callback and still announces the key. *)
Theorem set_stores_next_value (json_stable_stringify : value → string)
    (mergeDeep : record → record → record) (changes : record)
    (merge : merge_arg) (cb : option callback) (S : SyncTable)
    (cq : ClientQuery) (sq : SetQuery) (vl : table_map) :
  state S ≠ "closed" →
  value_local S = Some vl →
  client_query S = Some cq →
  cq_set cq = Some sq →
  (∀ k, k ∈ keys changes → is_Some (fields sq !! k)) →
  _key S (Some changes) ≠ KUndefined →
  (vl !! _key S (Some changes) = None →
     ∀ k, k ∈ _required_set_fields S → is_null (changes !! k) = false) →
  (is_Some (vl !! _key S (Some changes)) →
     set_merge merge ∈ ["deep"; "shallow"; "none"]) →
  let id := _key S (Some changes) in
  let new_val := next_value mergeDeep (set_merge merge) (vl !! id) changes in
  ∃ S' effs,
    set json_stable_stringify mergeDeep changes merge cb S
      = (S', effs, Ret (Some new_val))
    ∧ value_local S' = Some (<[id:=new_val]> vl)
    ∧ value_server S' = value_server S
    ∧ state S' = state S
    ∧ (Some new_val = vl !! id → effs = cb_effects (set_cb merge cb) None)
    ∧ (Some new_val ≠ vl !! id → immediate S → state S = "connected" →
       is_Some (value_server S) →
         effs = [AsyncDebounce (_debounce_interval S) (set_cb merge cb);
                 Emit (Ev_change [id])])
    ∧ (Some new_val ≠ vl !! id → immediate S → state S ≠ "connected" →
         effs = cb_effects (set_cb merge cb) (Some "not connected")
                  ++ [Emit (Ev_change [id])]).
Proof.
  intros Hst Hl Hcq Hsq Hfields Hid Hreq Hmerge id new_val.
  assert (set json_stable_stringify mergeDeep changes merge cb S
          = finish_set id (vl !! id) new_val (set_cb merge cb) S) as ->.
  { unfold set. rewrite bind_get, decide_False by done.
    rewrite bind_get, Hl, bind_ret.
    assert (∀ A (body : string → option callback → M A),
              (let '(merge0, cb0) :=
                 match merge with
                 | MergeUndefined => ("deep", cb)
                 | MergeName s => (s, cb)
                 | MergeCallback f => ("deep", Some f)
                 end in body merge0 cb0)
              = body (set_merge merge) (set_cb merge cb)) as Hlet.
    { intros A body. by destruct merge. }
    rewrite Hlet. clear Hlet.
    rewrite bind_deref_Some with (a := cq) by done.
    rewrite bind_get, Hsq.
    rewrite filter_none.
    2:{ intros k Hk Hnone. destruct (Hfields k Hk) as [? Hsome]. congruence. }
    rewrite bind_get.
    assert (resolve_key json_stable_stringify changes S
            = (S, [], Ret (Some (id, changes)))) as Hres.
    { unfold resolve_key. rewrite bind_get. by rewrite decide_True. }
    rewrite (bind_run _ _ _ _ _ _ Hres). cbn beta iota zeta.
    rewrite bind_deref_Some with (a := vl) by done. rewrite bind_get.
    unfold new_val, next_value.
    destruct (vl !! id) as [c|] eqn:Hcur.
    - specialize (Hmerge ltac:(eauto)).
      destruct (decide (set_merge merge = "deep")) as [Hd|Hd].
      { by destruct (finish_set _ _ _ _ _) as [[? ?] ?]. }
      destruct (decide (set_merge merge = "shallow")) as [Hs|Hs].
      { by destruct (finish_set _ _ _ _ _) as [[? ?] ?]. }
      rewrite decide_True.
      { by destruct (finish_set _ _ _ _ _) as [[? ?] ?]. }
      apply elem_of_cons in Hmerge as [?|Hmerge]; [done|].
      apply elem_of_cons in Hmerge as [?|Hmerge]; [done|].
      by apply list_elem_of_singleton in Hmerge.
    - rewrite filter_none.
      2:{ intros k Hk%elem_of_elements Hnull. rewrite (Hreq Hcur k Hk) in Hnull.
          done. }
      by destruct (finish_set _ _ _ _ _) as [[? ?] ?]. }
  by apply finish_set_run.
Qed.

(** X20.  A [set] that is turned away changes nothing.  When the table
    may not be set, when [changes] names a field that may not be set, when
    a new record lacks a required field, or when the merge named for an
    existing record is none of deep, shallow and none, [set] hands an
    error to its callback and returns undefined; nothing is stored,
    announced or saved. *)
Theorem set_rejected_changes_nothing (json_stable_stringify : value → string)
    (mergeDeep : record → record → record) (changes : record)
    (merge : merge_arg) (cb : option callback) (S : SyncTable)
    (cq : ClientQuery) (vl : table_map) :
  state S ≠ "closed" →
  value_local S = Some vl →
  client_query S = Some cq →
  cq_set cq = None
  ∨ (∃ sq k, cq_set cq = Some sq ∧ k ∈ keys changes ∧ fields sq !! k = None)
  ∨ (∃ sq, cq_set cq = Some sq
       ∧ (∀ k, k ∈ keys changes → is_Some (fields sq !! k))
       ∧ _key S (Some changes) ≠ KUndefined
       ∧ (vl !! _key S (Some changes) = None
            ∧ (∃ k, k ∈ _required_set_fields S ∧ is_null (changes !! k) = true)
          ∨ is_Some (vl !! _key S (Some changes))
            ∧ set_merge merge ∉ ["deep"; "shallow"; "none"])) →
  ∃ msg S',
    set json_stable_stringify mergeDeep changes merge cb S
      = (S', cb_effects (set_cb merge cb) (Some msg), Ret None)
    ∧ value_local S' = Some vl
    ∧ value_server S' = value_server S
    ∧ state S' = state S.
Proof.
  intros Hst Hl Hcq Hcase.
  assert (∀ msg,
    ∃ S', (call_cb (set_cb merge cb) (Some msg);; ret None) S
          = (S', cb_effects (set_cb merge cb) (Some msg), Ret (@None record))
          ∧ value_local S' = Some vl
          ∧ value_server S' = value_server S
          ∧ state S' = state S) as Hreject.
  { intros msg. rewrite (bind_run _ _ _ _ _ _ (call_cb_exact _ _ S)).
    unfold ret. rewrite app_nil_r. eexists. split; [reflexivity|].
    by destruct (default false _). }
  unfold set. rewrite bind_get, decide_False by done.
  rewrite bind_get, Hl, bind_ret.
  assert (∀ A (body : string → option callback → M A),
            (let '(merge0, cb0) :=
               match merge with
               | MergeUndefined => ("deep", cb)
               | MergeName s => (s, cb)
               | MergeCallback f => ("deep", Some f)
               end in body merge0 cb0)
            = body (set_merge merge) (set_cb merge cb)) as Hlet.
  { intros A body. by destruct merge. }
  rewrite Hlet. clear Hlet.
  rewrite bind_deref_Some with (a := cq) by done. rewrite bind_get.
  destruct Hcase as [Hnone|[(sq & k & Hsq & Hk & Hf)|(sq & Hsq & Hfields & Hid & Hcase)]].
  - rewrite Hnone. eexists. apply Hreject.
  - rewrite Hsq.
    destruct (filter (λ k, fields sq !! k = None) (keys changes)) as [|k' l] eqn:Hfil.
    { exfalso. by apply (filter_nil_not_elem_of _ _ k Hfil). }
    eexists. apply Hreject.
  - rewrite Hsq. rewrite filter_none.
    2:{ intros k Hk Hnone. destruct (Hfields k Hk) as [? Hsome]. congruence. }
    rewrite bind_get.
    assert (resolve_key json_stable_stringify changes S
            = (S, [], Ret (Some (_key S (Some changes), changes)))) as Hres.
    { unfold resolve_key. rewrite bind_get. by rewrite decide_True. }
    rewrite (bind_run _ _ _ _ _ _ Hres). cbn beta iota zeta.
    rewrite bind_deref_Some with (a := vl) by done. rewrite bind_get.
    destruct Hcase as [[Hcur (k & Hk & Hnull)]|[[c Hcur] Hmerge]].
    + rewrite Hcur.
      destruct (filter (λ k, is_null (changes !! k) = true)
                  (elements (_required_set_fields S))) as [|k' l] eqn:Hfil.
      { exfalso. apply (filter_nil_not_elem_of _ _ k Hfil Hnull).
        by apply elem_of_elements. }
      destruct (Hreject ("must specify field '" +:+ k' +:+ "' for new records"))
        as (S' & Hrun & ?). rewrite Hrun. eexists _, S'. split; [|done].
      reflexivity.
    + rewrite Hcur.
      rewrite !decide_False.
      * destruct (Hreject "merge must be one of 'deep', 'shallow', 'none'")
          as (S' & Hrun & ?). rewrite Hrun. eexists _, S'. split; [|done].
        reflexivity.
      * intros Hm. apply Hmerge. rewrite Hm. set_solver.
      * intros Hm. apply Hmerge. rewrite Hm. set_solver.
      * intros Hm. apply Hmerge. rewrite Hm. set_solver.
Qed.

(** * Reading the table *)

Lemma get_keys_lookup stringify (vl : table_map) ks :
  ∀ (acc : gmap string (option record)) k,
  foldl (λ x k0,
           <[prop_name (to_key stringify (Some k0))
             := vl !! to_key stringify (Some k0)]> x) acc (VStr <$> ks) !! k
  = if decide (k ∈ ks) then Some (vl !! KString k) else acc !! k.
Proof.
  induction ks as [|k0 ks IH]; intros acc k; cbn [fmap list_fmap foldl].
  - rewrite decide_False; [done|]. by intros ?%elem_of_nil.
  - rewrite IH. cbn [to_key prop_name].
    destruct (decide (k ∈ ks)) as [Hin|Hin].
    + rewrite decide_True; [done|]. by right.
    + destruct (decide (k = k0)) as [->|Hne].
      * rewrite lookup_insert_eq. rewrite decide_True; [done|]. by left.
      * rewrite lookup_insert_ne by done. rewrite decide_False; [done|].
        by intros [?|?]%elem_of_cons.
Qed.

(** X21.  The three ways of [get] agree.  With [_value_local] defined,
    [get()] is the table, [get(k)] for a string [k] is the record of the
    table at [k], undefined when there is none, and [get] of an array of
    strings is a map with an entry for each string of the array and no
    other, holding what [get(k)] returns, undefined included; [get_one()]
    returns a record of the table, and undefined exactly on the empty
    table. *)
Theorem get_reads_value_local (json_stable_stringify : value → string)
    (S : SyncTable) (vl : table_map) :
  _value_local S = Some vl →
  get_ json_stable_stringify None S = Some (GotTable vl)
  ∧ (∀ k, get_ json_stable_stringify (Some (VStr k)) S
          = GotRecord <$> vl !! KString k)
  ∧ (∀ ks, ∃ x,
       get_ json_stable_stringify (Some (VList (VStr <$> ks))) S
         = Some (GotRecords x)
       ∧ ∀ k, x !! k = if decide (k ∈ ks) then Some (vl !! KString k) else None)
  ∧ (get_one S = None ↔ vl = ∅)
  ∧ (∀ r, get_one S = Some r → ∃ k, vl !! k = Some r).
Proof.
  intros Hl. unfold get_, get_one. rewrite Hl. split_and!.
  - done.
  - done.
  - intros ks. eexists. split; [reflexivity|]. intros k.
    by rewrite get_keys_lookup.
  - cbn. destruct (map_to_list vl) as [|[k r] l] eqn:Hm.
    + apply map_to_list_empty_iff in Hm. by subst.
    + split; [done|]. intros ->. by rewrite map_to_list_empty in Hm.
  - intros r. cbn. destruct (map_to_list vl) as [|[k r'] l] eqn:Hm; [done|].
    cbn. intros [= ->]. exists k. apply elem_of_map_to_list. rewrite Hm. by left.
Qed.

(** * The properties above on the table of items *)

(** A comparison that is decided by evaluation. *)
Ltac by_evaluation :=
  lazymatch goal with
  | |- ?x ≠ ?y =>
      apply (proj1 (bool_decide_eq_false (x = y))); vm_compute; reflexivity
  | |- _ => vm_compute; reflexivity
  end.

Lemma no_uncommitted_changes_nothing_to_save_witness :
  is_Some (_value_server (renamed items_synced))
  ∧ _value_local (renamed items_synced) = _value_server (renamed items_synced)
  ∧ _changes (renamed items_synced) = Some ∅.
Proof.
  apply no_uncommitted_changes_nothing_to_save. by_evaluation.
Defined.

Lemma save_confirmed_advances_server_witness :
  ∃ S' vs',
    __save_query_cb items_parse items_closure None items_in_flight
      = (S', [Emit (Ev_saved [item "A"]); Invoke 0 None], Ret tt)
    ∧ value_server S' = Some vs'
    ∧ vs' !! KString "k" = Some (item "A").
Proof.
  destruct (save_confirmed_advances_server items_parse items_closure
              items_in_flight {[ KString "k" := item "A" ]}
              {[ KString "k" := item "C" ]})
    as (S' & vs' & Hrun & _ & Hs & _ & Hk & _).
  - by_evaluation.
  - by_evaluation.
  - by_evaluation.
  - reflexivity.
  - exists S', vs'. split; [exact Hrun|]. split; [exact Hs|].
    rewrite (Hk "k" (ChangedEntry (item "A") (Some (item "C")))) by by_evaluation.
    rewrite decide_True by by_evaluation. reflexivity.
Defined.

Lemma written_record_has_key_of_local_witness :
  ∃ obj,
    make_key items_stringify ["id"] (Some (item "A")) = KString "k"
    ∧ write_record items_parse ["id"] ["g"; "id"; "f"] {[ "g" ]}
        (prop_name (make_key items_stringify ["id"] (Some (item "A"))))
        (ChangedEntry (item "A") (Some (item "C"))) = Ret obj
    ∧ obj !! "id" = Some (VStr "k")
    ∧ make_key items_stringify ["id"] (Some obj)
      = make_key items_stringify ["id"] (Some (item "A")).
Proof.
  apply (written_record_has_key_of_local items_stringify items_parse "id"
           ["g"; "id"; "f"] {[ "g" ]} (item "A") (Some (item "C")) "k").
  by_evaluation.
Defined.

(** A stringify and a parse that agree on the compound key of the record
    below. *)
Definition pair_stringify (v : value) : string :=
  match v with
  | VList [VStr a; VStr b] => a +:+ "/" +:+ b
  | _ => "null"
  end.

Definition pair_parse (s : string) : option value :=
  if decide (s = "p/q") then Some (VList [VStr "p"; VStr "q"]) else None.

(** A record with the compound key [a], [b]. *)
Definition pair_record : record :=
  {[ "a" := VStr "p"; "b" := VStr "q"; "f" := VStr "x" ]}.

Lemma written_record_unwraps_compound_key_witness :
  ∃ obj,
    write_record pair_parse ["a"; "b"] ["f"] ∅
      (prop_name (make_key pair_stringify ["a"; "b"] (Some pair_record)))
      (ChangedEntry pair_record None) = Ret obj
    ∧ (∀ pk, pk ∈ ["a"; "b"] → obj !! pk = pair_record !! pk)
    ∧ make_key pair_stringify ["a"; "b"] (Some obj)
      = make_key pair_stringify ["a"; "b"] (Some pair_record).
Proof.
  apply (written_record_unwraps_compound_key pair_stringify pair_parse
           ["a"; "b"] ["f"] ∅ pair_record None [VStr "p"; VStr "q"]).
  - cbn. lia.
  - apply NoDup_cons. split; [by intros ?%list_elem_of_singleton|].
    apply NoDup_singleton.
  - repeat constructor; by_evaluation || done.
  - reflexivity.
Defined.

(** The registry before any request. *)
Definition no_instances : Registry := {| synctables := ∅; instances := ∅ |}.

Lemma requests_share_and_count_witness :
  ∃ a,
    (sync_table items_stringify items_signature items_schema (QueryName "items")
       None false None None None 0
       (requests items_stringify items_signature items_schema
          (QueryName "items") None false None None None 0 3 no_instances)).2
    = Ret a
    ∧ instances
        (requests items_stringify items_signature items_schema
           (QueryName "items") None false None None None 0 3 no_instances) !! a
      = Some (set__reference_count (RcNum 3) items).
Proof.
  destruct (requests_share_and_count items_stringify items_signature
              items_schema (QueryName "items") None false None None None 0
              no_instances items)
    as (a & _ & Hn).
  - reflexivity.
  - reflexivity.
  - by_evaluation.
  - destruct (Hn 2%nat) as (_ & Hi & Hr). exists a. split; [exact Hr|].
    rewrite Hi, lookup_insert_eq. reflexivity.
Defined.

Lemma uncached_request_is_private_witness :
  ∃ a,
    sync_table items_stringify items_signature items_schema (QueryName "items")
      None false None None (Some false) 0 items_registry
    = ({| synctables := synctables items_registry;
          instances := <[a := items]> (instances items_registry) |},
       [], Ret a)
    ∧ instances items_registry !! a = None
    ∧ global_cache_decref items = (items, [], Ret false).
Proof.
  apply (uncached_request_is_private items_stringify items_signature
           items_schema (QueryName "items") None false None None 0
           items_registry items).
  by_evaluation.
Defined.

Lemma close_of_shared_instance_only_counts_witness :
  for_of (replicate 2 tt) (λ _ _, close items_parse false) tt
    (set__reference_count (RcNum 3) items_synced)
  = (set__reference_count (RcNum (3 - Z.of_nat 2))
       (set__reference_count (RcNum 3) items_synced), [], Ret tt).
Proof.
  apply (close_of_shared_instance_only_counts items_parse false 2 3).
  - by_evaluation.
  - reflexivity.
  - cbn. lia.
Defined.

Lemma clean_record_follows_server_witness :
  ∃ S' effs,
    _update_change (Change (Some (item "B")) None) items_synced
      = (S', effs, Ret tt)
    ∧ value_local S' = Some (<[KString "k" := item "B"]> {[ KString "k" := item "C" ]})
    ∧ value_server S' = Some (<[KString "k" := item "B"]> {[ KString "k" := item "C" ]})
    ∧ effs = [Emit Ev_before_change; Emit (Ev_change [KString "k"])].
Proof.
  destruct (clean_record_follows_server items_synced
              (Change (Some (item "B")) None) (item "B")
              {[ KString "k" := item "C" ]} {[ KString "k" := item "C" ]})
    as (S' & effs & Hrun & Hl & Hs & _ & _ & Hch).
  - by_evaluation.
  - reflexivity.
  - reflexivity.
  - reflexivity.
  - by intros [[? ?] _].
  - reflexivity.
  - exists S', effs. split; [exact Hrun|]. split; [exact Hl|].
    split; [exact Hs|]. apply Hch; [by_evaluation|by left].
Defined.

Lemma update_change_touches_only_its_keys_witness :
  ∃ S' effs vl' vs',
    _update_change (Change (Some (item "B")) None) items_edited
      = (S', effs, Ret tt)
    ∧ value_local S' = Some vl' ∧ value_server S' = Some vs'
    ∧ vl' !! KString "other" = None
    ∧ vs' !! KString "k" = Some (item "B").
Proof.
  destruct (update_change_touches_only_its_keys items_edited
              (Change (Some (item "B")) None)
              {[ KString "k" := item "A" ]} {[ KString "k" := item "C" ]})
    as (S' & effs & vl' & vs' & Hrun & Hl & Hs & Hframe & Hnew).
  - by_evaluation.
  - reflexivity.
  - reflexivity.
  - exists S', effs, vl', vs'. split_and!; [exact Hrun|exact Hl|exact Hs| |].
    + destruct (Hframe (KString "other")) as [-> _]; [|done|reflexivity].
      intros val [= <-]. by_evaluation.
    + by destruct (Hnew (item "B") eq_refl).
Defined.

Lemma resync_record_absent_from_snapshot_witness :
  ∃ S' effs vl' vs',
    _update_all (Some []) items_edited = (S', effs, Ret tt)
    ∧ value_local S' = Some vl' ∧ value_server S' = Some vs'
    ∧ vl' !! KString "k" = Some (item "A")
    ∧ AsyncDebounce (_debounce_interval items_edited) None ∈ effs.
Proof.
  destruct (resync_record_absent_from_snapshot items_edited [] (KString "k")
              (item "A") {[ KString "k" := item "A" ]}
              {[ KString "k" := item "C" ]})
    as (S' & effs & vl' & vs' & Hrun & Hl & Hs & _ & Hdirty).
  - by_evaluation.
  - reflexivity.
  - reflexivity.
  - constructor.
  - reflexivity.
  - reflexivity.
  - exists S', effs, vl', vs'. split_and!; [exact Hrun|exact Hl|exact Hs| |].
    + apply Hdirty. by_evaluation.
    + apply Hdirty; [by_evaluation|reflexivity].
Defined.

Lemma resync_adopts_snapshot_records_witness :
  ∃ S' effs vl' vs',
    _update_all (Some [item "C"]) items = (S', effs, Ret tt)
    ∧ value_local S' = Some vl' ∧ value_server S' = Some vs'
    ∧ vs' !! KString "k" = Some (item "C")
    ∧ vl' !! KString "k" = Some (item "C").
Proof.
  destruct (resync_adopts_snapshot_records items [item "C"] "k" (item "C"))
    as (S' & effs & vl' & vs' & Hrun & Hl & Hs & Hsrv & _ & Hnew).
  - by_evaluation.
  - repeat constructor.
  - by_evaluation.
  - exists S', effs, vl', vs'.
    split_and!; [exact Hrun|exact Hl|exact Hs|exact Hsrv|].
    apply Hnew. intros vl [=].
Defined.

(** The table of items with a throttle of 500 milliseconds, at the time
    1000; the throttle has not fired yet. *)
Definition items_throttled : SyncTable :=
  match new_SyncTable items_stringify items_schema (QueryName "items") false
          2000 (Some 500) "items/2000" 1000 with
  | Ret T => T
  | Throw _ => items
  end.

Lemma throttled_changes_are_batched_witness :
  ∃ S0 S1 S2 S3 names0 names,
    emit_change [KString "b"; KNumber 10; KNumber 9] items_throttled
      = (S0, [Emit (Ev_change (KString <$> names0))], Ret tt)
    ∧ NoDup names0
    ∧ (∀ s, s ∈ names0 ↔
            ∃ k, k ∈ [KString "b"; KNumber 10; KNumber 9] ∧ prop_name k = s)
    ∧ emit_change [KString "b"] (set_now 1100 S0)
      = (S1, [SetTimeout (500 - (1100 - now items_throttled))], Ret tt)
    ∧ emit_change [KString "c"; KString "b"] (set_now 1200 S1) = (S2, [], Ret tt)
    ∧ later (set_now 1500 S2) = (S3, [Emit (Ev_change (KString <$> names))], Ret tt)
    ∧ NoDup names
    ∧ (∀ s, s ∈ names ↔
            ∃ k, k ∈ [KString "b"] ++ [KString "c"; KString "b"]
                 ∧ prop_name k = s)
    ∧ all_changed_keys S3 = []
    ∧ throttle_timeout S3 = false
    ∧ throttle_previous S3 = 1500.
Proof.
  apply (throttled_changes_are_batched items_throttled 500 1100 1200 1500).
  - reflexivity.
  - lia.
  - reflexivity.
  - reflexivity.
  - by vm_compute.
  - split; by vm_compute.
  - split; by vm_compute.
Defined.

(** The first message of the changefeed query for the table of items. *)
Definition items_response : response :=
  {| resp_event := None;
     resp_id := Some "feed";
     resp_query := Some (Some [item "C"]);
     resp_change := Change None None |}.

Lemma first_response_connects_witness :
  ∃ S1 e1 S',
    _update_all (Some [item "C"])
      (set_state "connected" (set_changefeed_id (Some "feed") items))
      = (S1, e1, Ret tt)
    ∧ (_do_the_query_cb items_parse (QueryClosure true None (Some (UserCb 0)))
         None (Some items_response) items).1.1 = S'
    ∧ state S' = "connected"
    ∧ is_Some (value_local S')
    ∧ _connected_save_cbs S' = None.
Proof.
  destruct (first_response_connects items_parse
              (QueryClosure true None (Some (UserCb 0))) None items_response
              [item "C"] items)
    as (S1 & e1 & S' & Hup & Hrun & Hst & _ & Hl & _ & _ & Hcbs).
  - by_evaluation.
  - reflexivity.
  - reflexivity.
  - done.
  - reflexivity.
  - exists S1, e1, S'. split; [exact Hup|]. rewrite Hrun. done.
Defined.

Lemma first_response_without_rows_witness :
  _do_the_query_cb items_parse (QueryClosure true None (Some (UserCb 0)))
    (Some "timeout") None items
  = (items, [Invoke 0 (Some "timeout")],
     Ret (QueryClosure false None (Some (UserCb 0)), Returns)).
Proof.
  destruct (first_response_without_rows items_parse
              (QueryClosure true None (Some (UserCb 0))) (Some "timeout") None
              items)
    as (Hrun & _).
  - by_evaluation.
  - reflexivity.
  - reflexivity.
  - right. left. reflexivity.
  - exact Hrun.
Defined.

Lemma set_stores_next_value_witness :
  ∃ S' effs,
    set items_stringify items_mergeDeep (item "D") MergeUndefined
      (Some (UserCb 0)) (renamed items_synced)
      = (S', effs, Ret (Some (item "D")))
    ∧ value_local S' = Some (<[KString "k" := item "D"]> {[ KString "k" := item "C" ]})
    ∧ effs = [AsyncDebounce (Some 2000) (Some (UserCb 0));
              Emit (Ev_change [KString "k"])].
Proof.
  destruct (set_stores_next_value items_stringify items_mergeDeep (item "D")
              MergeUndefined (Some (UserCb 0)) (renamed items_synced)
              {| cq_set := Some {| fields := {[ "id" := RuleValue;
                                                "f" := RuleValue;
                                                "g" := RuleValue ]};
                                   required_fields := {[ "g" ]} |} |}
              {| fields := {[ "id" := RuleValue; "f" := RuleValue;
                              "g" := RuleValue ]};
                 required_fields := {[ "g" ]} |}
              {[ KString "k" := item "C" ]})
    as (S' & effs & Hrun & Hl & _ & _ & _ & Hconn & _).
  - by_evaluation.
  - reflexivity.
  - reflexivity.
  - reflexivity.
  - intros k Hk.
    replace (keys (item "D")) with ["id"; "f"] in Hk by by_evaluation.
    apply elem_of_cons in Hk as [->|Hk]; [by eexists|].
    apply list_elem_of_singleton in Hk as ->. by eexists.
  - by_evaluation.
  - intros Hnone. exfalso. vm_compute in Hnone. discriminate Hnone.
  - intros _. by left.
  - exists S', effs. split; [exact Hrun|]. split; [exact Hl|].
    apply Hconn; [by_evaluation|by left|reflexivity|by eexists].
Defined.

Lemma set_rejected_changes_nothing_witness :
  ∃ msg S',
    set items_stringify items_mergeDeep {[ "id" := VStr "k"; "h" := VStr "x" ]}
      MergeUndefined (Some (UserCb 0)) (renamed items_synced)
      = (S', [Invoke 0 (Some msg)], Ret None)
    ∧ value_local S' = Some {[ KString "k" := item "C" ]}.
Proof.
  destruct (set_rejected_changes_nothing items_stringify items_mergeDeep
              {[ "id" := VStr "k"; "h" := VStr "x" ]}
              MergeUndefined (Some (UserCb 0)) (renamed items_synced)
              {| cq_set := Some {| fields := {[ "id" := RuleValue;
                                                "f" := RuleValue;
                                                "g" := RuleValue ]};
                                   required_fields := {[ "g" ]} |} |}
              {[ KString "k" := item "C" ]})
    as (msg & S' & Hrun & Hl & _).
  - by_evaluation.
  - reflexivity.
  - reflexivity.
  - right. left. eexists _, "h". split; [reflexivity|].
    split; [|by_evaluation].
    replace (keys ({[ "id" := VStr "k"; "h" := VStr "x" ]} : record))
      with ["id"; "h"] by by_evaluation.
    right. by left.
  - exists msg, S'. split; [exact Hrun|exact Hl].
Defined.

Lemma get_reads_value_local_witness :
  get_ items_stringify (Some (VStr "k")) (renamed items_synced)
  = Some (GotRecord (item "C")).
Proof.
  destruct (get_reads_value_local items_stringify (renamed items_synced)
              {[ KString "k" := item "C" ]} eq_refl) as (_ & Hk & _).
  rewrite Hk. reflexivity.
Defined.

(** * More on the save pipeline *)

(** X22.  A write that fails with an error that is not fatal (and is not
    the clock error) changes no table: the callback of the write hands the
    error to the callback of the save and clears [__is_saving], so that
    the next [_save] is not turned away but goes on to [__save]. *)
Theorem failed_write_releases_save (JSON_parse : string → option value)
    (changed : option (gmap string changed_entry)) (at_start : table_map)
    (saved_objs : list record) (cb : option callback) (err : option string)
    (S : SyncTable) :
  state S ≠ "closed" →
  truthy err = true →
  is_fatal err = false →
  err ≠ Some "clock" →
  __save_query_cb JSON_parse
    (SaveClosure changed at_start saved_objs (Some (SaveDone cb))) err S
  = (set___is_saving false S, cb_effects cb err, Ret tt)
  ∧ ∀ cb2,
      _save JSON_parse cb2 (set___is_saving false S)
      = __save JSON_parse (Some (SaveDone cb2)) (set___is_saving true S).
Proof.
  intros Hst Herr Hfatal Hclock. split.
  - unfold __save_query_cb. rewrite Herr, Hfatal.
    rewrite decide_False by done. rewrite bind_ret.
    rewrite call_cb_exact. cbn [sc_cb fmap option_fmap option_map cb_clears default
                                from_option id].
    unfold cb_effects. cbn. by destruct cb.
  - intros cb2. unfold _save.
    rewrite bind_get, decide_False by done.
    rewrite bind_get. cbn [__is_saving set___is_saving].
    by rewrite bind_put.
Qed.

Lemma failed_write_releases_save_witness :
  __save_query_cb items_parse
    (SaveClosure None ∅ [] (Some (SaveDone (Some (UserCb 0)))))
    (Some "timeout") items_in_flight
  = (set___is_saving false items_in_flight, [Invoke 0 (Some "timeout")], Ret tt).
Proof.
  destruct (failed_write_releases_save items_parse None ∅ []
              (Some (UserCb 0)) (Some "timeout") items_in_flight)
    as [Hrun _].
  - by_evaluation.
  - reflexivity.
  - reflexivity.
  - by_evaluation.
  - exact Hrun.
Defined.

#[global] Instance string_le_total : Total string_le.
Proof. intros a b. apply String.leb_total. Qed.

Lemma write_records_each JSON_parse pks set_fields required changed keys :
  ∀ objs,
  write_records JSON_parse pks set_fields required changed keys = Ret objs →
  Forall2 (λ key obj, ∃ c, changed !! key = Some c
             ∧ write_record JSON_parse pks set_fields required key c = Ret obj)
    keys objs.
Proof.
  induction keys as [|key keys IH]; intros objs; cbn [write_records].
  - intros [= <-]. constructor.
  - destruct (changed !! key) as [c|] eqn:Hc; [|done].
    destruct (write_record _ _ _ _ _ c) as [obj|] eqn:Hw; [|done].
    destruct (write_records _ _ _ _ _ keys) as [objs'|]; [|done].
    intros [= <-]. constructor; [eauto|]. by apply IH.
Qed.

(** X23.  What a save writes.  When [__save] hands a write to the
    transport, the query has one object for each key that [_changes]
    reports and for no other, in the ascending order of the keys; each
    object is the record written for its key and is addressed to the table
    of the instance.  The write is the only effect, the instance is left
    as it is, and the callback of the write holds the local table of that
    moment, the objects written and the callback of the save. *)
Theorem save_writes_changed_keys_in_order (JSON_parse : string → option value)
    (cb : option callback) (S S' : SyncTable) (effs : list effect)
    (q : list (string * record)) (k : save_closure) :
  __save JSON_parse cb S = (S', effs, Ret tt) →
  ClientQuerySet q k ∈ effs →
  ∃ sorted_keys,
    effs = [ClientQuerySet q k] ∧ S' = S
    ∧ sorted_keys ≡ₚ keys (default ∅ (_changes S))
    ∧ Sorted string_le sorted_keys
    ∧ Forall2 (λ key qe,
         qe.1 = table S
         ∧ ∃ c, default ∅ (_changes S) !! key = Some c
                ∧ write_record JSON_parse (_primary_keys S) (_set_fields S)
                    (_required_set_fields S) key c = Ret qe.2)
        sorted_keys q
    ∧ value_local S = Some (sc_at_start k)
    ∧ sc_saved_objs k = q.*2
    ∧ sc_cb k = cb.
Proof.
  unfold __save.
  assert (∀ err S1 e1, call_cb cb err S = (S1, e1, Ret tt) →
            ClientQuerySet q k ∉ e1) as Hcb.
  { intros err S1 e1. rewrite call_cb_exact. intros [= _ <-].
    unfold cb_effects. destruct (cb ≫= cb_user); [|by intros ?%elem_of_nil].
    by intros [=]%list_elem_of_singleton. }
  rewrite bind_get. destruct (decide _); [intros H1 H2; by destruct (Hcb _ _ _ H1)|].
  rewrite bind_get. destruct (value_server S);
    [|intros H1 H2; by destruct (Hcb _ _ _ H1)].
  rewrite bind_get. destruct (value_local S) as [at_start|] eqn:Hl;
    [|intros H1 H2; by destruct (Hcb _ _ _ H1)].
  destruct (_client_query S) as [cq|] eqn:Hcq.
  2:{ rewrite bind_deref_None by done. done. }
  rewrite bind_deref_Some with (a := cq) by done.
  destruct (cq_set cq); [|intros H1 H2; by destruct (Hcb _ _ _ H1)].
  rewrite !bind_get.
  set (sorted_keys := merge_sort string_le (default [] (keys <$> _changes S))).
  destruct (write_records _ _ _ _ _ sorted_keys) as [saved_objs|e] eqn:Hw; [|done].
  destruct (decide _); [intros H1 H2; by destruct (Hcb _ _ _ H1)|].
  destruct (_client S) eqn:Hc.
  2:{ rewrite bind_deref_None by done. done. }
  erewrite bind_deref_Some by done. rewrite bind_get.
  intros [= <- <-] [= -> ->]%list_elem_of_singleton.
  exists sorted_keys. cbn [sc_at_start sc_saved_objs sc_cb].
  assert (default [] (keys <$> _changes S) = keys (default ∅ (_changes S)))
    as Hkeys by (by destruct (_changes S)).
  split_and!; [done|done| | | |done| |done].
  - unfold sorted_keys. rewrite merge_sort_Permutation. by rewrite Hkeys.
  - apply Sorted_merge_sort. apply _.
  - apply write_records_each in Hw. apply Forall2_fmap_r.
    eapply Forall2_impl; [exact Hw|]. intros key obj (c & Hc' & Hrec).
    split; [done|]. eauto.
  - rewrite <- list_fmap_compose. symmetry. apply list_fmap_id.
Qed.

Lemma save_writes_changed_keys_in_order_witness :
  ∃ sorted_keys,
    sorted_keys ≡ₚ keys (default ∅ (_changes (renamed items_edited)))
    ∧ Forall2 (λ key qe,
         qe.1 = "items"
         ∧ ∃ c, default ∅ (_changes (renamed items_edited)) !! key = Some c
                ∧ write_record items_parse ["id"] ["g"; "id"; "f"] {[ "g" ]}
                    key c = Ret qe.2)
        sorted_keys [("items", item "A")].
Proof.
  destruct (save_writes_changed_keys_in_order items_parse (Some (UserCb 0))
              (renamed items_edited) (renamed items_edited)
              [ClientQuerySet [("items", item "A")]
                 (SaveClosure
                    (Some {[ "k" := ChangedEntry (item "A") (Some (item "C")) ]})
                    {[ KString "k" := item "A" ]} [item "A"] (Some (UserCb 0)))]
              [("items", item "A")]
              (SaveClosure
                 (Some {[ "k" := ChangedEntry (item "A") (Some (item "C")) ]})
                 {[ KString "k" := item "A" ]} [item "A"] (Some (UserCb 0))))
    as (sorted_keys & _ & _ & Hperm & _ & Hall & _).
  - by_evaluation.
  - by left.
  - exists sorted_keys. split; [exact Hperm|exact Hall].
Defined.

(** * When an incoming record conflicts *)

(** X24.  [_handle_new_val] reports no conflict exactly when the local
    record agrees with the incoming record on every field whose incoming
    value is the last recorded server value, that is on every field that
    the server has not changed; a conflict is reported, and emitted with
    the incoming and the merged record, exactly when it does not. *)
Theorem no_conflict_iff_agrees_on_unchanged_fields (S : SyncTable)
    (val lv : record) (changed_keys : list jskey) (vl vs : table_map) :
  value_local S = Some vl →
  value_server S = Some vs →
  vl !! _key S (Some val) = Some lv →
  ∃ S' effs changed_keys' c,
    _handle_new_val val changed_keys S = (S', effs, Ret (changed_keys', c))
    ∧ (c = false ↔
         ∀ j, val !! j = field (vs !! _key S (Some val)) j → lv !! j = val !! j)
    ∧ (c = false → effs = [])
    ∧ (c = true →
         effs = [Emit (Ev_conflict val
                         (merged val (vs !! _key S (Some val)) lv))]).
Proof.
  intros Hl Hs Hlv.
  set (m := merged val (vs !! _key S (Some val)) lv).
  assert (m = val ↔
            ∀ j, val !! j = field (vs !! _key S (Some val)) j → lv !! j = val !! j)
    as Hiff.
  { split.
    - intros Hm j Hj. assert (m !! j = val !! j) as Hmj by (by rewrite Hm).
      unfold m in Hmj. rewrite lookup_merged in Hmj.
      by rewrite decide_True in Hmj.
    - intros Hagree. apply map_eq. intros j. unfold m. rewrite lookup_merged.
      destruct (decide (val !! j = field (vs !! _key S (Some val)) j));
        [by apply Hagree|done]. }
  pose proof (_handle_new_val_run S val changed_keys vl vs Hl Hs) as Hrun.
  cbv zeta in Hrun. rewrite Hlv in Hrun. cbn [handled] in Hrun.
  fold m in Hrun.
  eexists _, _, _, _. split; [exact Hrun|].
  split_and!.
  - rewrite bool_decide_eq_false. rewrite <- Hiff. split.
    + intros Hnn. by apply dec_stable.
    + intros Heq Hne. by apply Hne.
  - intros Hc%bool_decide_eq_false. apply dec_stable in Hc.
    by rewrite decide_True.
  - intros Hc%bool_decide_eq_true. by rewrite decide_False.
Qed.

Lemma no_conflict_iff_agrees_on_unchanged_fields_witness :
  ∃ S' effs changed_keys',
    _handle_new_val (item "B") [] items_edited
      = (S', effs, Ret (changed_keys', false))
    ∧ effs = [].
Proof.
  destruct (no_conflict_iff_agrees_on_unchanged_fields items_edited (item "B")
              (item "A") [] {[ KString "k" := item "A" ]}
              {[ KString "k" := item "C" ]} eq_refl eq_refl)
    as (S' & effs & ck & c & Hrun & Hiff & Hno & _).
  - reflexivity.
  - assert (c = false) as ->.
    { apply Hiff. intros j.
      change (_key items_edited (Some (item "B"))) with (KString "k").
      change (field ({[ KString "k" := item "C" ]} !! KString "k") j)
        with (field (Some (item "C")) j).
      cbn [field mbind option_bind].
      destruct (decide (j = "id")) as [->|Hid]; [intros _; by_evaluation|].
      destruct (decide (j = "f")) as [->|Hf].
      - intros Hf. vm_compute in Hf. discriminate Hf.
      - intros _. unfold item.
        by rewrite !lookup_insert_ne, !lookup_singleton_ne by done. }
    exists S', effs, ck. split; [exact Hrun|by apply Hno].
Defined.

(** * What is dirty *)

Lemma _changes_fold (vs : table_map) l : ∀ (acc : gmap string changed_entry) s,
  NoDup l.*1 →
  (∀ kv, kv ∈ l → ∃ s', kv.1 = KString s') →
  foldl (λ changed (kv : jskey * record),
           let old_val := vs !! kv.1 in
           if decide (Some kv.2 ≠ old_val)
           then <[prop_name kv.1 := ChangedEntry kv.2 old_val]> changed
           else changed) acc l !! s
  = match (list_to_map l : table_map) !! KString s with
    | Some r =>
        if decide (Some r ≠ vs !! KString s)
        then Some (ChangedEntry r (vs !! KString s)) else acc !! s
    | None => acc !! s
    end.
Proof.
  induction l as [|[k0 r0] l IH]; intros acc s Hnd Hstr; [done|].
  apply NoDup_cons in Hnd as [Hk0 Hnd].
  destruct (Hstr (k0, r0) ltac:(by left)) as [s0 Hs0]. cbn in Hs0. subst k0.
  cbn [foldl fst snd list_to_map foldr prop_name].
  rewrite IH; [|done|intros kv Hin; apply Hstr; by right].
  destruct (decide (s = s0)) as [->|Hne].
  - rewrite lookup_insert_eq.
    rewrite (not_elem_of_list_to_map_1 l (KString s0)) by done.
    destruct (decide _); [by rewrite lookup_insert_eq|done].
  - rewrite (lookup_insert_ne (list_to_map l)) by (intros [= ?]; done).
    destruct (list_to_map l !! KString s) as [r|].
    + destruct (decide (Some r ≠ _)); [done|].
      destruct (decide (Some r0 ≠ _)); [by rewrite lookup_insert_ne|done].
    + destruct (decide (Some r0 ≠ _)); [by rewrite lookup_insert_ne|done].
Qed.

(** X25.  What [_changes] reports.  On tables whose keys are strings, the
    object that [_changes] returns has an entry under [s] exactly when the
    local table has a record at [s] that is not the server's record at
    [s]; the entry holds that local record and the server's record (none
    when the server has none).  A record that only the server has is not
    reported. *)
Theorem _changes_lists_differing_local_records (S : SyncTable)
    (vl vs : table_map) :
  _value_local S = Some vl →
  _value_server S = Some vs →
  (∀ k, is_Some (vl !! k) → ∃ s, k = KString s) →
  ∃ changed,
    _changes S = Some changed
    ∧ ∀ s, changed !! s =
        match vl !! KString s with
        | Some r =>
            if decide (Some r ≠ vs !! KString s)
            then Some (ChangedEntry r (vs !! KString s)) else None
        | None => None
        end.
Proof.
  intros Hl Hs Hstr. unfold _changes. rewrite Hl, Hs. eexists. split; [done|].
  intros s. rewrite _changes_fold.
  - by rewrite list_to_map_to_list.
  - apply NoDup_fst_map_to_list.
  - intros [k r] Hin%elem_of_map_to_list. apply Hstr. cbn. eauto.
Qed.

Lemma _changes_lists_differing_local_records_witness :
  ∃ changed,
    _changes (renamed items_edited) = Some changed
    ∧ changed !! "k" = Some (ChangedEntry (item "A") (Some (item "C"))).
Proof.
  destruct (_changes_lists_differing_local_records (renamed items_edited)
              {[ KString "k" := item "A" ]} {[ KString "k" := item "C" ]}
              eq_refl eq_refl)
    as (changed & Hrun & Hk).
  - intros k [r Hr]. destruct (decide (k = KString "k")) as [->|Hne]; [eauto|].
    by rewrite lookup_singleton_ne in Hr.
  - exists changed. split; [exact Hrun|]. rewrite Hk. by_evaluation.
Defined.

(** * A local write without a primary key *)

Lemma set_merge_finish mergeDeep m id c changes cb :
  m ∈ ["deep"; "shallow"; "none"] →
  (if decide (m = "deep") then finish_set id (Some c) (mergeDeep c changes) cb
   else if decide (m = "shallow") then finish_set id (Some c) (changes ∪ c) cb
   else if decide (m = "none") then finish_set id (Some c) changes cb
   else
     call_cb cb (Some "merge must be one of 'deep', 'shallow', 'none'");;
     ret None)
  = finish_set id (Some c) (next_value mergeDeep m (Some c) changes) cb.
Proof.
  intros Hm. unfold next_value.
  destruct (decide (m = "deep")); [done|].
  destruct (decide (m = "shallow")); [done|].
  rewrite decide_True; [done|].
  apply elem_of_cons in Hm as [?|Hm]; [done|].
  apply elem_of_cons in Hm as [?|Hm]; [done|].
  by apply list_elem_of_singleton in Hm.
Qed.

(** X26.  [set] on changes without a primary key, for a table with one
    primary-key field that the set query does not compute.  On an empty
    local table the call is turned away: an error goes to the callback,
    nothing is stored and undefined is returned.  On a table with records
    the changes are applied to one of the existing records: the primary key
    of that record is written into the changes, its next value is stored at
    its key and returned, and no other record changes. *)
Theorem set_without_primary_key (json_stable_stringify : value → string)
    (mergeDeep : record → record → record) (changes : record)
    (merge : merge_arg) (cb : option callback) (S : SyncTable)
    (cq cq' : ClientQuery) (sq sq' : SetQuery) (vl : table_map)
    (pk : string) :
  state S ≠ "closed" →
  value_local S = Some vl →
  client_query S = Some cq →
  cq_set cq = Some sq →
  (∀ k, k ∈ keys changes → is_Some (fields sq !! k)) →
  _key S (Some changes) = KUndefined →
  _client_query S = Some cq' →
  cq_set cq' = Some sq' →
  _primary_keys S = [pk] →
  (∀ f, fields sq' !! pk ≠ Some (RuleComputed f)) →
  set_merge merge ∈ ["deep"; "shallow"; "none"] →
  (vl = ∅ →
     ∃ msg S',
       set json_stable_stringify mergeDeep changes merge cb S
         = (S', cb_effects (set_cb merge cb) (Some msg), Ret None)
       ∧ value_local S' = Some vl)
  ∧ (vl ≠ ∅ →
     ∃ k c,
       vl !! k = Some c
       ∧ (k ≠ KUndefined →
          ∃ S' effs,
            let new_val :=
              next_value mergeDeep (set_merge merge) (Some c)
                (partial_alter (λ _, value_of_key k) pk changes) in
            set json_stable_stringify mergeDeep changes merge cb S
              = (S', effs, Ret (Some new_val))
            ∧ value_local S' = Some (<[k:=new_val]> vl)
            ∧ value_server S' = value_server S)).
Proof.
  intros Hst Hl Hcq Hsq Hfields Hid Hcq' Hsq' Hpks Hrule Hmerge.
  assert (_computed_primary_key changes S = (S, [], Ret None)) as Hcomp.
  { unfold _computed_primary_key.
    rewrite bind_deref_Some with (a := cq') by done.
    rewrite bind_get, Hsq', Hpks.
    destruct (fields sq' !! pk) as [[| |f]|] eqn:Hf; try done.
    by destruct (Hrule f). }
  assert (∀ A (body : string → option callback → M A),
            (let '(merge0, cb0) :=
               match merge with
               | MergeUndefined => ("deep", cb)
               | MergeName s => (s, cb)
               | MergeCallback f => ("deep", Some f)
               end in body merge0 cb0)
            = body (set_merge merge) (set_cb merge cb)) as Hlet.
  { intros A body. by destruct merge. }
  assert (∀ first,
    head (map_to_list vl).*1 = first →
    resolve_key json_stable_stringify changes S
    = (S, [],
       Ret (if decide (default KUndefined first = KUndefined) then None
            else Some (default KUndefined first,
                       with_primary_key [pk] (first ≫= value_of_key) changes))))
    as Hres.
  { intros first Hfirst. unfold resolve_key.
    rewrite bind_get, Hid, decide_False by (intros Hne; by apply Hne).
    rewrite (bind_run _ _ _ _ _ _ Hcomp). cbn [to_key app].
    rewrite bind_get, Hpks.
    rewrite decide_True by done.
    assert ((vl0 ← deref value_local;
             let first0 := head (map_to_list vl0).*1 in
             ret (first0 ≫= value_of_key, default KUndefined first0)) S
            = (S, [], Ret (first ≫= value_of_key, default KUndefined first)))
      as Hfst.
    { rewrite bind_deref_Some with (a := vl) by done. cbv zeta.
      by rewrite Hfirst. }
    rewrite (bind_run _ _ _ _ _ _ Hfst). cbn [app].
    by destruct (decide _). }
  unfold set. rewrite bind_get, decide_False by done.
  rewrite bind_get, Hl, bind_ret, Hlet.
  rewrite bind_deref_Some with (a := cq) by done.
  rewrite bind_get, Hsq.
  rewrite filter_none.
  2:{ intros k Hk Hnone. destruct (Hfields k Hk) as [? Hsome]. congruence. }
  rewrite bind_get.
  split.
  - intros ->. rewrite (bind_run _ _ _ _ _ _ (Hres None eq_refl)).
    cbn beta iota zeta.
    rewrite (bind_run _ _ _ _ _ _ (call_cb_exact _ _ S)).
    unfold ret. rewrite app_nil_r. eexists _, _. split; [reflexivity|].
    by destruct (default false _).
  - intros Hne.
    destruct (map_to_list vl) as [|[k c] l] eqn:Hm.
    { by apply map_to_list_empty_iff in Hm. }
    assert (vl !! k = Some c) as Hk.
    { apply elem_of_map_to_list. rewrite Hm. by left. }
    exists k, c. split; [exact Hk|]. intros Hkdef.
    rewrite (bind_run _ _ _ _ _ _ (Hres (Some k) eq_refl)).
    cbn [default from_option id mbind option_bind with_primary_key].
    rewrite decide_False by done. cbn beta iota zeta. cbn [app].
    rewrite bind_deref_Some with (a := vl) by done.
    rewrite bind_get, Hk.
    set (changes' := partial_alter (λ _, value_of_key k) pk changes).
    rewrite set_merge_finish by done.
    destruct (finish_set_run k (Some c)
                (next_value mergeDeep (set_merge merge) (Some c) changes')
                (set_cb merge cb) S vl Hst Hl Hk)
      as (S' & effs & Hrun & Hl' & Hs' & _).
    exists S', effs. cbv zeta. rewrite Hrun. done.
Qed.

Lemma set_without_primary_key_witness :
  ∃ k c,
    ({[ KString "k" := item "C" ]} : table_map) !! k = Some c
    ∧ (k ≠ KUndefined →
       ∃ S' effs,
         set items_stringify items_mergeDeep {[ "f" := VStr "D" ]}
           MergeUndefined None (renamed items_synced)
         = (S', effs,
            Ret (Some (items_mergeDeep c
                         (partial_alter (λ _, value_of_key k) "id"
                            {[ "f" := VStr "D" ]}))))
         ∧ value_server S' = Some {[ KString "k" := item "C" ]}).
Proof.
  destruct (set_without_primary_key items_stringify items_mergeDeep
              {[ "f" := VStr "D" ]} MergeUndefined None (renamed items_synced)
              {| cq_set := Some {| fields := {[ "id" := RuleValue;
                                                "f" := RuleValue;
                                                "g" := RuleValue ]};
                                   required_fields := {[ "g" ]} |} |}
              {| cq_set := Some {| fields := {[ "id" := RuleValue;
                                                "f" := RuleValue;
                                                "g" := RuleValue ]};
                                   required_fields := {[ "g" ]} |} |}
              {| fields := {[ "id" := RuleValue; "f" := RuleValue;
                              "g" := RuleValue ]};
                 required_fields := {[ "g" ]} |}
              {| fields := {[ "id" := RuleValue; "f" := RuleValue;
                              "g" := RuleValue ]};
                 required_fields := {[ "g" ]} |}
              {[ KString "k" := item "C" ]} "id")
    as [_ Hsome].
  - by_evaluation.
  - reflexivity.
  - reflexivity.
  - reflexivity.
  - intros k Hk.
    replace (keys ({[ "f" := VStr "D" ]} : record)) with ["f"] in Hk
      by by_evaluation.
    apply list_elem_of_singleton in Hk as ->. by eexists.
  - by_evaluation.
  - reflexivity.
  - reflexivity.
  - reflexivity.
  - intros f Hf. vm_compute in Hf. discriminate Hf.
  - by left.
  - destruct Hsome as (k & c & Hk & Hset).
    { by_evaluation. }
    exists k, c. split; [exact Hk|]. intros Hne.
    destruct (Hset Hne) as (S' & effs & Hrun & _ & Hs).
    exists S', effs. split; [exact Hrun|exact Hs].
Defined.

(** * From the constructor to the first snapshot *)

(** The instance that the constructor returns: disconnected, without
    tables, and with no save callback waiting. *)
Lemma new_SyncTable_fresh stringify SCHEMA q is_project di tc ck t T :
  new_SyncTable stringify SCHEMA q is_project di tc ck t = Ret T →
  state T = "disconnected" ∧ value_local T = None ∧ value_server T = None
  ∧ _connected_save_cbs T = None ∧ __is_saving T = false.
Proof.
  unfold new_SyncTable.
  destruct (parse_query SCHEMA q) as [[tbl templates]|]; [|done].
  destruct (SCHEMA tbl) as [sch|]; [|done].
  destruct (head templates), (primary_keys sch); try done.
  all: by intros [= <-].
Qed.

(** X27.  The first connection, end to end.  On an instance without
    tables and without waiting save callbacks (as the constructor returns
    it) whose change notifications are not throttled, the first response of
    the changefeed query with the rows of the table makes both tables the
    snapshot and the state connected, and emits, in this order,
    [before-change], [change] with the keys of the snapshot (each name
    under which the snapshot object holds a record, once; the order of the
    names is left open), and [connected] with the rows, before it calls
    the callback of the query without an error. *)
Theorem first_connection_loads_snapshot (JSON_parse : string → option value)
    (cb : option callback) (r : response) (rows : list record)
    (S : SyncTable) :
  state S ≠ "closed" →
  value_local S = None →
  _connected_save_cbs S = None →
  immediate S →
  resp_event r ≠ Some "query_cancel" →
  resp_query r = Some (Some rows) →
  ∃ S' names,
    _do_the_query_cb JSON_parse (QueryClosure true None cb) None (Some r) S
    = (S',
       [Emit Ev_before_change;
        Emit (Ev_change (KString <$> names));
        Emit (Ev_connected (Some rows))] ++ cb_effects cb None,
       Ret (QueryClosure false (resp_id r) cb, Returns))
    ∧ NoDup names
    ∧ (∀ s, s ∈ names ↔ is_Some (snapshot_object (_key S) rows !! s))
    ∧ state S' = "connected"
    ∧ changefeed_id S' = resp_id r
    ∧ value_local S' = Some (fromJS (snapshot_object (_key S) rows))
    ∧ value_server S' = Some (fromJS (snapshot_object (_key S) rows)).
Proof.
  intros Hst Hl Hcbs Hi Hev Hq.
  set (x := snapshot_object (_key S) rows).
  set (S0 := set_state "connected" (set_changefeed_id (resp_id r) S)).
  set (S1 := with_tables (fromJS x) (fromJS x) S0).
  assert (_update_all (Some rows) S0
          = (S1, [Emit Ev_before_change; Emit (Ev_change (KString <$> keys x))],
             Ret tt)) as Hup.
  { destruct (_update_all_first S0 rows) as (S' & effs & Hrun & Hem & Heff & _).
    - done.
    - by left.
    - assert (immediate (with_tables (fromJS x) (fromJS x) S0)) as Hi'
        by exact Hi.
      cbv zeta in Hem. change (_key S0) with (_key S) in Hem. fold x in Hem.
      rewrite (emit_change_immediate _ _ Hi') in Hem.
      injection Hem as <- Hdrop. rewrite Hrun, Heff, <- Hdrop. reflexivity. }
  set (S2 := if default false (cb_clears <$> cb)
             then set___is_saving false S1 else S1).
  exists (set__connected_save_cbs None S2), (keys x). split_and!.
  - unfold _do_the_query_cb.
    rewrite bind_get, decide_False by done.
    cbn [is_fatal first_resp qc_cb this_query_id].
    rewrite bind_get, decide_False by done.
    cbn [mbind option_bind truthy]. rewrite decide_False by done.
    unfold resp_rows. rewrite Hq. cbn [default from_option id].
    rewrite bind_put, bind_put. fold S0.
    rewrite (bind_run _ _ _ _ _ _ Hup).
    unfold emit. rewrite bind_perform.
    rewrite (bind_run _ _ _ _ _ _ (call_cb_exact cb None S1)).
    fold S2. rewrite bind_get.
    assert (_connected_save_cbs S2 = None) as ->.
    { unfold S2. by destruct (default false _). }
    cbn [default from_option for_of]. rewrite bind_ret, bind_put.
    unfold ret. by rewrite !app_nil_r.
  - apply NoDup_fst_map_to_list.
  - intros s. unfold keys. rewrite list_elem_of_fmap. split.
    + intros ([s' y] & -> & Hin%elem_of_map_to_list). by exists y.
    + intros [y Hy]. exists (s, y). split; [done|].
      by apply elem_of_map_to_list.
  - unfold S2. by destruct (default false _).
  - unfold S2. by destruct (default false _).
  - unfold S2. by destruct (default false _).
  - unfold S2. by destruct (default false _).
Qed.

Lemma first_connection_loads_snapshot_witness :
  ∃ S' names,
    _do_the_query_cb items_parse (QueryClosure true None (Some (UserCb 0)))
      None (Some items_response) items
    = (S',
       [Emit Ev_before_change;
        Emit (Ev_change (KString <$> names));
        Emit (Ev_connected (Some [item "C"]))]
         ++ cb_effects (Some (UserCb 0)) None,
       Ret (QueryClosure false (resp_id items_response) (Some (UserCb 0)),
            Returns))
    ∧ NoDup names
    ∧ (∀ s, s ∈ names ↔ is_Some (snapshot_object (_key items) [item "C"] !! s))
    ∧ state S' = "connected"
    ∧ changefeed_id S' = resp_id items_response
    ∧ value_local S' = Some (fromJS (snapshot_object (_key items) [item "C"]))
    ∧ value_server S' = Some (fromJS (snapshot_object (_key items) [item "C"])).
Proof.
  apply (first_connection_loads_snapshot items_parse (Some (UserCb 0))
           items_response [item "C"] items).
  - by_evaluation.
  - reflexivity.
  - reflexivity.
  - by left.
  - done.
  - reflexivity.
Defined.

(** * A table whose primary key is a number *)

(** A record of the table of items whose primary key is the number 7,
    with the value [x] of its field [f]. *)
Definition numbered (x : string) : record :=
  {[ "id" := VNum 7; "f" := VStr x; "g" := VStr "G" ]}.

(** The table after a first snapshot with that record.  The snapshot
    object of [_update_all] is a plain object, so the record is kept under
    the property name ["7"] in both tables. *)
Definition numbered_loaded : SyncTable :=
  items_with {[ KString "7" := numbered "C" ]} {[ KString "7" := numbered "C" ]}.

(** The table after a local write of [f = "A"] to that record: [set] looks
    the record up under the number 7 that [this._key] returns, finds none,
    and stores the written record under the number. *)
Definition numbered_edited : SyncTable :=
  items_with {[ KString "7" := numbered "C"; KNumber 7 := numbered "A" ]}
             {[ KString "7" := numbered "C" ]}.

(** C5.  Full resync is not idempotent on a table whose primary key is a
    number.  The first application of the snapshot [[{id: 7, f: "C"}]] to
    the connected table of items stores the record under the property name
    ["7"] and announces that key.  The second application of the same
    snapshot, with nothing done in between, looks the record up under the
    number 7 that [this._key] returns, finds none, and so has the changed
    key 7 after its two loops, emits a change notification for it and
    stores the record a second time in the local table. *)
Theorem resync_twice_reports_number_key :
  _key items (Some (numbered "C")) = KNumber 7
  ∧ _update_all (Some [numbered "C"]) (set_state "connected" items)
    = (numbered_loaded,
       [Emit Ev_before_change; Emit (Ev_change [KString "7"])], Ret tt)
  ∧ (_update_all_merge (snapshot_object (_key numbered_loaded) [numbered "C"])
       numbered_loaded).2 = Ret ([KNumber 7], false, false)
  ∧ _update_all (Some [numbered "C"]) numbered_loaded
    = (items_with {[ KString "7" := numbered "C"; KNumber 7 := numbered "C" ]}
                  {[ KString "7" := numbered "C" ]},
       [Emit Ev_before_change; Emit (Ev_change [KNumber 7])], Ret tt)
  ∧ ({[ KString "7" := numbered "C"; KNumber 7 := numbered "C" ]} : table_map)
    ≠ {[ KString "7" := numbered "C" ]}.
Proof. split_and!; by_evaluation. Qed.

(** C1.  A local edit is lost on a table whose primary key is a number.
    After the first snapshot [[{id: 7, f: "C", g: "G"}]], a [set] of
    [{id: 7, f: "A", g: "G"}] (on the instance with [client_query] bound)
    leaves the tables of [numbered_edited]: the edited record is under the
    number 7 and the last server value under the name ["7"].  The snapshot
    of a reconnect in which [f] still has the last server value ["C"] then
    overwrites the edit: [_handle_new_val] finds no server record under the
    number 7 and takes every field of the incoming record as changed.  The
    local record has [f = "C"] afterwards, no conflict is emitted and no
    save is requested. *)
Theorem reconnect_overwrites_edit_under_number_key :
  set items_stringify items_mergeDeep (numbered "A") MergeUndefined None
    (renamed numbered_loaded)
  = (set__save_debounce true
       (set_value_local
          (Some {[ KString "7" := numbered "C"; KNumber 7 := numbered "A" ]})
          (renamed numbered_loaded)),
     [AsyncDebounce (Some 2000) None; Emit (Ev_change [KNumber 7])],
     Ret (Some (numbered "A")))
  ∧ _key numbered_edited (Some (numbered "A")) = KNumber 7
  ∧ value_local numbered_edited
    = Some {[ KString "7" := numbered "C"; KNumber 7 := numbered "A" ]}
  ∧ value_server numbered_edited = Some {[ KString "7" := numbered "C" ]}
  ∧ numbered "A" !! "f" ≠ numbered "C" !! "f"
  ∧ _update_all (Some [numbered "C"]) numbered_edited
    = (items_with {[ KString "7" := numbered "C"; KNumber 7 := numbered "C" ]}
                  {[ KString "7" := numbered "C" ]},
       [Emit Ev_before_change; Emit (Ev_change [KNumber 7])], Ret tt).
Proof.
  split_and!; [by_evaluation|by_evaluation|reflexivity|reflexivity|..];
    by_evaluation.
Qed.

(** * The record written for a compound key *)

Lemma write_record_fields_witness :
  (∀ k, k ∉ ["a"; "b"] →
     ({[ "a" := VStr "p"; "b" := VStr "q" ]} : record) !! k = None)
  ∧ ∃ obj,
      write_record pair_parse ["a"; "b"] ["f"; "a"] ∅ "p/q"
        (ChangedEntry pair_record None) = Ret obj
      ∧ (∀ pk, ["a"; "b"] = [pk] → is_Some (obj !! pk))
      ∧ ∀ k, obj !! k =
          if decide (written ["f"; "a"] ∅ (ChangedEntry pair_record None) k)
          then pair_record !! k
          else ({[ "a" := VStr "p"; "b" := VStr "q" ]} : record) !! k.
Proof.
  apply (proj1 (proj2 (proj2
           (write_record_fields pair_parse ["a"; "b"] ["f"; "a"] ∅ "p/q"
              (ChangedEntry pair_record None))))
           {[ "a" := VStr "p"; "b" := VStr "q" ]}).
  by_evaluation.
Defined.
